(** * cooklang-ts: the recipe parser (Parser.ts, tokens.ts)

    A shallow embedding of the parser of cooklang-ts and the proofs of the
    properties its specification states.

    Conventions of the embedding.
    - A JavaScript string is a Rocq [string]; a character is an [ascii],
      read as the code point of the same number (the Latin-1 range), so that
      code units and code points coincide and the [u] flag only selects the
      character classes.  The tables for [\s], [\p{Zs}] and [\p{P}] are the
      Unicode ones restricted to that range.
    - A JavaScript number is an IEEE 754 binary64 value, [spec_float] with
      precision 53 and maximal exponent 1024.
    - A JavaScript object used as a dictionary is a [gmap] with string keys:
      its own keys only, not those an object inherits.
    - [throw] is the [Throw] constructor of [result]; the [console.log] call
      of createNamedGroups writes to the console only and is left out. *)

From Stdlib Require Import ZArith Ascii String List Lia.
From Stdlib Require Import Floats.SpecFloat.
From stdpp Require Import base option list strings gmap.

Local Open Scope string_scope.
Local Open Scope list_scope.
Local Open Scope nat_scope.

(** ** Characters and strings *)

Module Js.

Definition code (c : ascii) : nat := nat_of_ascii c.

(** WhiteSpace and LineTerminator of ECMAScript: what [trim], [\s] and
    StringToNumber strip. *)
Definition is_line_terminator (c : ascii) : bool :=
  (code c =? 10) || (code c =? 13).

Definition is_white_space (c : ascii) : bool :=
  (code c =? 9) || (code c =? 11) || (code c =? 12) || (code c =? 32)
  || (code c =? 160).

Definition is_space (c : ascii) : bool :=
  is_white_space c || is_line_terminator c.

(** General category Zs (space separators). *)
Definition is_Zs (c : ascii) : bool := (code c =? 32) || (code c =? 160).

(** General category P (punctuation): Pc, Pd, Ps, Pe, Pi, Pf, Po. *)
Definition is_P (c : ascii) : bool :=
  let n := code c in
  ((33 <=? n) && (n <=? 35)) || ((37 <=? n) && (n <=? 42))
  || ((44 <=? n) && (n <=? 47)) || (n =? 58) || (n =? 59)
  || (n =? 63) || (n =? 64) || ((91 <=? n) && (n <=? 93)) || (n =? 95)
  || (n =? 123) || (n =? 125)
  || (n =? 161) || (n =? 167) || (n =? 171) || (n =? 182) || (n =? 183)
  || (n =? 187) || (n =? 191).

Definition chars (s : string) : list ascii := list_ascii_of_string s.
Definition str (l : list ascii) : string := string_of_list_ascii l.

(** [s.substring(a, b)]: both ends clamped to the length, swapped when
    [a > b]. *)
Definition substring (s : string) (a b : nat) : string :=
  let n := String.length s in
  let a' := Nat.min a n in
  let b' := Nat.min b n in
  let lo := Nat.min a' b' in
  let hi := Nat.max a' b' in
  str (take (hi - lo) (drop lo (chars s))).

(** [s.substring(a)] *)
Definition substring_from (s : string) (a : nat) : string :=
  str (drop a (chars s)).

Fixpoint trim_start (l : list ascii) : list ascii :=
  match l with
  | c :: l' => if is_space c then trim_start l' else l
  | [] => []
  end.

Definition trim_end (l : list ascii) : list ascii :=
  rev (trim_start (rev l)).

(** [s.trim()] *)
Definition trim (s : string) : string :=
  str (trim_end (trim_start (chars s))).

(** [s.split(sep)] for a separator of one character. *)
Fixpoint split_chars (sep : ascii) (l : list ascii) (cur : list ascii)
  : list string :=
  match l with
  | [] => [str (rev cur)]
  | c :: l' =>
      if Ascii.eqb c sep then str (rev cur) :: split_chars sep l' []
      else split_chars sep l' (c :: cur)
  end.

Definition split (s : string) (sep : ascii) : list string :=
  split_chars sep (chars s) [].

(** [s.startsWith(p)] *)
Definition startsWith (s p : string) : bool := String.prefix p s.

(** A string as a condition: the empty string is falsy. *)
Definition truthy (s : string) : bool :=
  match s with EmptyString => false | _ => true end.

(** [o?.f && ...] on an optional string: undefined is falsy too. *)
Definition truthy_opt (o : option string) : bool :=
  match o with Some s => truthy s | None => false end.

End Js.

(** ** Regular expressions

    The fragment of ECMAScript patterns that tokens.ts uses, with the
    backtracking semantics of the language definition: a matcher takes the
    current state and a continuation, and the alternatives are tried in
    priority order. *)

Module RegExp.

Inductive class_item : Type :=
| CChar (c : ascii)      (* a member written literally, or as \t, \- ... *)
| CSpace                 (* \s *)
| CNotSpace              (* \S *)
| CZs                    (* \p{Zs} *)
| CP.                    (* \p{P} *)

Inductive regex : Type :=
| Empty
| Char (c : ascii)                              (* a literal character *)
| Dot                                           (* . *)
| Class (negated : bool) (items : list class_item)  (* [...] and [^...] *)
| Bol                                           (* ^ *)
| Eol                                           (* $ *)
| Seq (r1 r2 : regex)
| Alt (r1 r2 : regex)                           (* r1|r2 *)
| Star (greedy : bool) (r : regex)              (* r* and r*? *)
| Opt (greedy : bool) (r : regex)               (* r? and r?? *)
| Group (i : nat) (r : regex).                  (* the i-th ( ... ) *)

(** [r+] and [r+?]: one iteration, then the star. *)
Definition Plus (greedy : bool) (r : regex) : regex := Seq r (Star greedy r).

Fixpoint cat (rs : list regex) : regex :=
  match rs with
  | [] => Empty
  | [r] => r
  | r :: rs' => Seq r (cat rs')
  end.

Definition lit (s : string) : regex := cat (map Char (Js.chars s)).

Definition item_matches (it : class_item) (c : ascii) : bool :=
  match it with
  | CChar d => Ascii.eqb c d
  | CSpace => Js.is_space c
  | CNotSpace => negb (Js.is_space c)
  | CZs => Js.is_Zs c
  | CP => Js.is_P c
  end.

Definition class_matches (negated : bool) (items : list class_item)
  (c : ascii) : bool :=
  xorb negated (existsb (fun it => item_matches it c) items).

(** The capture groups of a pattern, in the order of their opening
    parentheses. *)
Fixpoint groups (r : regex) : list nat :=
  match r with
  | Seq r1 r2 | Alt r1 r2 => groups r1 ++ groups r2
  | Star _ r' | Opt _ r' => groups r'
  | Group i r' => i :: groups r'
  | _ => []
  end.

Fixpoint shift (n : nat) (r : regex) : regex :=
  match r with
  | Seq r1 r2 => Seq (shift n r1) (shift n r2)
  | Alt r1 r2 => Alt (shift n r1) (shift n r2)
  | Star g r' => Star g (shift n r')
  | Opt g r' => Opt g (shift n r')
  | Group i r' => Group (n + i) (shift n r')
  | _ => r
  end.

(** [rs.map(r => r.source).join("|")] compiled again: the alternatives in
    order, the groups of each numbered after those of the ones before. *)
Fixpoint join_from (off : nat) (rs : list regex) : regex :=
  match rs with
  | [] => Empty
  | [r] => shift off r
  | r :: rs' => Alt (shift off r) (join_from (off + length (groups r)) rs')
  end.

Definition join (rs : list regex) : regex := join_from 0 rs.

(** The state of a match: the input still to read, the index reached and the
    captures made so far, each a pair of a start and an end index. *)
Record mstate : Type := MState {
  rest : list ascii;
  pos : nat;
  caps : gmap nat (nat * nat)
}.

Definition cont : Type := mstate -> option mstate.

(** The first alternative that succeeds; the second is looked at only when
    the first has failed. *)
Notation "a <|> b" := (match a with Some s => Some s | None => b end)
  (at level 61, left associativity, only parsing).

Definition read (p : ascii -> bool) (st : mstate) (k : cont) : option mstate :=
  match rest st with
  | c :: l => if p c then k (MState l (S (pos st)) (caps st)) else None
  | [] => None
  end.

Definition clear (gs : list nat) (st : mstate) : mstate :=
  MState (rest st) (pos st) (foldr delete (caps st) gs).

Definition set_cap (i a b : nat) (st : mstate) : mstate :=
  MState (rest st) (pos st) (<[i := (a, b)]> (caps st)).

(** An iteration of a quantified atom that consumed nothing is rejected. *)
Definition progress (st : mstate) (k : cont) : cont :=
  fun st' => if pos st' =? pos st then None else k st'.

(** The iterations of [r*] and [r*?], [once] being the matcher of [r] and
    [gs] its groups, which every iteration resets.  An iteration reads at
    least one character, so [n] iterations are enough for an input of [n]
    characters. *)
Fixpoint repeat (once : mstate -> cont -> option mstate) (gs : list nat)
  (greedy : bool) (k : cont) (n : nat) (st : mstate) {struct n}
  : option mstate :=
  match n with
  | 0 => k st
  | S n' =>
      if greedy
      then once (clear gs st) (progress st (repeat once gs greedy k n'))
           <|> k st
      else k st
           <|> once (clear gs st) (progress st (repeat once gs greedy k n'))
  end.

Fixpoint rmatch (r : regex) (st : mstate) (k : cont) {struct r}
  : option mstate :=
  match r with
  | Empty => k st
  | Char c => read (Ascii.eqb c) st k
  | Dot => read (fun c => negb (Js.is_line_terminator c)) st k
  | Class neg items => read (class_matches neg items) st k
  | Bol => if pos st =? 0 then k st else None
  | Eol => match rest st with [] => k st | _ => None end
  | Seq r1 r2 => rmatch r1 st (fun st' => rmatch r2 st' k)
  | Alt r1 r2 => rmatch r1 st k <|> rmatch r2 st k
  | Group i r' => rmatch r' st (fun st' => k (set_cap i (pos st) (pos st') st'))
  | Opt greedy r' =>
      if greedy
      then rmatch r' (clear (groups r') st) (progress st k) <|> k st
      else k st <|> rmatch r' (clear (groups r') st) (progress st k)
  | Star greedy r' =>
      repeat (rmatch r') (groups r') greedy k (length (rest st)) st
  end.

(** The result of a successful match, as the array [exec] returns:
    [arr !! 0] is the matched text and [arr !! i] the i-th capture,
    [None] inside the array for a group that did not take part. *)
Record MatchArray : Type := {
  index : nat;
  arr : list (option string)
}.

Definition slice (input : list ascii) (a b : nat) : string :=
  Js.str (take (b - a) (drop a input)).

Definition match_array (ngroups : nat) (input : list ascii) (start : nat)
  (st : mstate) : MatchArray :=
  {| index := start;
     arr := Some (slice input start (pos st))
            :: map (fun i => (fun '(a, b) => slice input a b) <$> caps st !! i)
                   (seq 1 ngroups) |}.

(** [m[i]]: undefined beyond the end of the array as well. *)
Definition at_index (m : MatchArray) (i : nat) : option string :=
  match arr m !! i with Some o => o | None => None end.

Definition matched (m : MatchArray) : string :=
  match at_index m 0 with Some s => s | None => "" end.

(** A match that starts exactly at [start]. *)
Definition match_at (r : regex) (suffix : list ascii) (start : nat)
  : option mstate :=
  rmatch r (MState suffix start ∅) Some.

(** The first match at or after [start], the leftmost start first. *)
Fixpoint search (r : regex) (suffix : list ascii) (start : nat)
  : option (nat * mstate) :=
  match match_at r suffix start with
  | Some st => Some (start, st)
  | None =>
      match suffix with
      | [] => None
      | _ :: suffix' => search r suffix' (S start)
      end
  end.

(** [s.match(r)] and [r.exec(s)] for a pattern without the [g] flag. *)
Definition exec0 (r : regex) (s : string) : option MatchArray :=
  let input := Js.chars s in
  (fun '(start, st) => match_array (length (groups r)) input start st)
    <$> search r input 0.

(** [exec] with [lastIndex] for a pattern with the [g] flag. *)
Definition exec (r : regex) (input : list ascii) (lastIndex : nat)
  : option (nat * mstate) :=
  if length input <? lastIndex then None
  else search r (drop lastIndex input) lastIndex.

(** The successive matches of a global pattern: after a match the search
    goes on from its end, one further when the match was empty. *)
Fixpoint all_from (n : nat) (r : regex) (input : list ascii)
  (lastIndex : nat) : list (nat * mstate) :=
  match n with
  | 0 => []
  | S n' =>
      match exec r input lastIndex with
      | None => []
      | Some (start, st) =>
          let e := pos st in
          (start, st)
          :: all_from n' r input (if e =? start then S e else e)
      end
  end.

Definition all_matches (r : regex) (input : list ascii)
  : list (nat * mstate) :=
  all_from (S (S (length input))) r input 0.

(** [s.matchAll(r)] *)
Definition matchAll (r : regex) (s : string) : list MatchArray :=
  let input := Js.chars s in
  map (fun '(start, st) => match_array (length (groups r)) input start st)
      (all_matches r input).

(** [s.replace(r, by)] for a global pattern and a replacement without [$]. *)
Fixpoint replace_from (input : list ascii) (at_ : nat)
  (ms : list (nat * mstate)) (by_ : list ascii) : list ascii :=
  match ms with
  | [] => drop at_ input
  | (start, st) :: ms' =>
      take (start - at_) (drop at_ input) ++ by_
      ++ replace_from input (pos st) ms' by_
  end.

Definition replace (r : regex) (s by_ : string) : string :=
  let input := Js.chars s in
  Js.str (replace_from input 0 (all_matches r input) (Js.chars by_)).

(** [s.split(r)] for a pattern without groups: at each index [q] the pattern
    is tried at [q] only; a match that ends where the last piece ended is
    skipped. *)
Fixpoint split_from (n : nat) (r : regex) (input : list ascii) (p q : nat)
  : list string :=
  match n with
  | 0 => [slice input p (length input)]
  | S n' =>
      if length input <=? q then [slice input p (length input)]
      else
        match match_at r (drop q input) q with
        | None => split_from n' r input p (S q)
        | Some st =>
            let e := Nat.min (pos st) (length input) in
            if e =? p then split_from n' r input p (S q)
            else slice input p q :: split_from n' r input e e
        end
  end.

Definition split (r : regex) (s : string) : list string :=
  let input := Js.chars s in
  match input with
  | [] => match match_at r [] 0 with Some _ => [] | None => [s] end
  | _ => split_from (S (2 * length input)) r input 0 0
  end.

End RegExp.

(** ** The grammar (tokens.ts) *)

Module Tokens.
Import RegExp.

Local Open Scope char_scope.

Definition any : regex := Class true [].                    (* [^] *)
Definition space : regex := Class false [CSpace].           (* \s *)
(** [[^@#~[]] *)
Definition name_char : regex :=
  Class true [CChar "@"; CChar "#"; CChar "~"; CChar "["].
(** [[^\s\t\p{Zs}\p{P}]] *)
Definition word_char : regex :=
  Class true [CSpace; CChar "009"; CZs; CP].

(** [/^>>\s*(.+?):\s*(.+)/] *)
Definition metadata : regex :=
  cat [Bol; lit ">>"; Star true space; Group 1 (Plus false Dot); Char ":";
       Star true space; Group 2 (Plus true Dot)].

(** [/@([^@#~[]+?)\{([^]*?)(?:%([^}]+?))?\}(?:\(([^]*?)\))?/] *)
Definition multiwordIngredient : regex :=
  cat [Char "@"; Group 1 (Plus false name_char); Char "{";
       Group 2 (Star false any);
       Opt true (Seq (Char "%")
                     (Group 3 (Plus false (Class true [CChar "}"]))));
       Char "}";
       Opt true (cat [Char "("; Group 4 (Star false any); Char ")"])].

(** [/@([^\s\t\p{Zs}\p{P}]+)/] *)
Definition singleWordIngredient : regex :=
  Seq (Char "@") (Group 1 (Plus true word_char)).

(** [/#([^@#~[]+?)\{(.*?)\}/] *)
Definition multiwordCookware : regex :=
  cat [Char "#"; Group 1 (Plus false name_char); Char "{";
       Group 2 (Star false Dot); Char "}"].

(** [/#([^\s\t\p{Zs}\p{P}]+)/] *)
Definition singleWordCookware : regex :=
  Seq (Char "#") (Group 1 (Plus true word_char)).

(** [/~(.*?)(?:\{(.*?)(?:%(.*?))?\})/] *)
Definition timer : regex :=
  cat [Char "~"; Group 1 (Star false Dot);
       cat [Char "{"; Group 2 (Star false Dot);
            Opt true (Seq (Char "%") (Group 3 (Star false Dot)));
            Char "}"]].

(** [/--.*/g] *)
Definition comment : regex := Seq (lit "--") (Star true Dot).

(** [/\s*\[\-[\s\S]*?\-\]\s*/g] *)
Definition blockComment : regex :=
  cat [Star true space; lit "[-";
       Star false (Class false [CSpace; CNotSpace]); lit "-]";
       Star true space].

(** [/\n\s*\[(.+)\]\n([^]*?)(?:\n\n|$)/g] *)
Definition shoppingList : regex :=
  cat [Char "010"; Star true space; Char "["; Group 1 (Plus true Dot);
       Char "]"; Char "010"; Group 2 (Star false any);
       Alt (Seq (Char "010") (Char "010")) Eol].

(** [new RegExp([...].map((r) => r.source).join("|"), "gu")] *)
Definition tokens : regex :=
  join [metadata; multiwordIngredient; singleWordIngredient;
        multiwordCookware; singleWordCookware; timer].

(** [/\r?\n/], the pattern of the line splitter in Parser.parse. *)
Definition newline : regex := Seq (Opt true (Char "013")) (Char "010").

End Tokens.

(** ** Numbers

    [Number(s)], [isNaN], [!x] and [/] on binary64 values. *)

Module Num.

Definition number : Type := spec_float.

Definition prec : Z := 53.
Definition emax : Z := 1024.

Definition NaN : number := S754_nan.

Definition isNaN (x : number) : bool :=
  match x with S754_nan => true | _ => false end.

(** [!x]: zero of either sign and NaN are falsy. *)
Definition falsy (x : number) : bool :=
  match x with S754_nan | S754_zero _ => true | _ => false end.

(** [x / y] *)
Definition div (x y : number) : number := SFdiv prec emax x y.

(** The number nearest an integer; the literals [0], [1], [2] ... *)
Definition of_Z (z : Z) : number := binary_normalize prec emax z 0 false.

Definition digit_of (base : nat) (c : ascii) : option nat :=
  let n := Js.code c in
  let v := if (48 <=? n) && (n <=? 57) then Some (n - 48)
           else if (97 <=? n) && (n <=? 102) then Some (n - 87)
           else if (65 <=? n) && (n <=? 70) then Some (n - 55)
           else None in
  match v with
  | Some d => if d <? base then Some d else None
  | None => None
  end.

(** The longest run of digits at the head of [l]: its value after [acc],
    how many there were, and what follows. *)
Fixpoint digits (base : nat) (l : list ascii) (acc : Z) (count : nat)
  : Z * nat * list ascii :=
  match l with
  | c :: l' =>
      match digit_of base c with
      | Some d => digits base l' (acc * Z.of_nat base + Z.of_nat d) (S count)
      | None => (acc, count, l)
      end
  | [] => (acc, count, l)
  end.

(** The number nearest [m * 10 ^ e10], ties to even. *)
Definition decimal (neg : bool) (m : Z) (e10 : Z) : number :=
  match m with
  | Zpos p =>
      if (0 <=? e10)%Z
      then binary_normalize prec emax
             (if neg then Z.opp (m * 10 ^ e10) else m * 10 ^ e10) 0 false
      else SFdiv prec emax (S754_finite neg p 0)
             (S754_finite false (Z.to_pos (10 ^ (- e10))) 0)
  | _ => S754_zero neg
  end.

(** ExponentPart, when there is one; [None] when what follows the digits is
    not an exponent and nothing else. *)
Definition exponent (l : list ascii) : option Z :=
  match l with
  | [] => Some 0%Z
  | c :: l' =>
      if Ascii.eqb c "e" || Ascii.eqb c "E" then
        let '(neg, l'') :=
          match l' with
          | s :: t => if Ascii.eqb s "-" then (true, t)
                      else if Ascii.eqb s "+" then (false, t)
                      else (false, l')
          | [] => (false, l')
          end in
        match digits 10 l'' 0 0 with
        | (e, S _, []) => Some (if neg then Z.opp e else e)
        | _ => None
        end
      else None
  end.

(** StrUnsignedDecimalLiteral *)
Definition unsigned_decimal (neg : bool) (l : list ascii) : number :=
  if decide (l = Js.chars "Infinity") then S754_infinity neg
  else
    let '(int, ni, l1) := digits 10 l 0 0 in
    let '(m, nf, l2) :=
      match l1 with
      | c :: l1' => if Ascii.eqb c "." then digits 10 l1' int 0
                    else (int, 0, l1)
      | [] => (int, 0, l1)
      end in
    if (ni + nf =? 0) then NaN
    else
      match exponent l2 with
      | Some e => decimal neg m (e - Z.of_nat nf)
      | None => NaN
      end.

(** NonDecimalIntegerLiteral: [0x], [0o] and [0b], in either case. *)
Definition radix_of (c : ascii) : option nat :=
  if Ascii.eqb c "x" || Ascii.eqb c "X" then Some 16
  else if Ascii.eqb c "o" || Ascii.eqb c "O" then Some 8
  else if Ascii.eqb c "b" || Ascii.eqb c "B" then Some 2
  else None.

Definition non_decimal (l : list ascii) : option number :=
  match l with
  | z :: c :: l' =>
      if Ascii.eqb z "0" then
        match radix_of c with
        | Some base =>
            match digits base l' 0 0 with
            | (v, S _, []) => Some (of_Z v)
            | _ => Some NaN
            end
        | None => None
        end
      else None
  | _ => None
  end.

(** StringToNumber: white space stripped at both ends, the empty string is
    [+0], anything that is not a numeric literal is NaN. *)
Definition of_chars (l : list ascii) : number :=
  match Js.trim_end (Js.trim_start l) with
  | [] => S754_zero false
  | (c :: l') as t =>
      match non_decimal t with
      | Some x => x
      | None =>
          if Ascii.eqb c "-" then unsigned_decimal true l'
          else if Ascii.eqb c "+" then unsigned_decimal false l'
          else unsigned_decimal false t
      end
  end.

(** [Number(s)]; [Number(undefined)] is NaN. *)
Definition Number (s : option string) : number :=
  match s with
  | Some s => of_chars (Js.chars s)
  | None => NaN
  end.

End Num.

(** ** The document model (cooklang.ts) *)

(** [string | number], the type of a quantity. *)
Inductive amount : Type :=
| Numeric (n : Num.number)
| Textual (s : string).

Module Ingredient.
Record t : Type := {
  name : string;
  quantity : amount;
  units : string;
  preparation : option string;
  step : option nat
}.
End Ingredient.

Module Cookware.
Record t : Type := {
  name : string;
  quantity : amount;
  step : option nat
}.
End Cookware.

Module Timer.
Record t : Type := {
  name : option string;
  quantity : amount;
  units : string
}.
End Timer.

Inductive StepItem : Type :=
| Text (value : string)
| AnIngredient (i : Ingredient.t)
| ACookware (c : Cookware.t)
| ATimer (t : Timer.t).

Definition Step : Type := list StepItem.

Record Item : Type := { name : string; synonym : string }.

Record ParseResult : Type := {
  ingredients : list Ingredient.t;
  cookwares : list Cookware.t;
  metadata : gmap string string;
  steps : list Step;
  shoppingList : gmap string (list Item)
}.

(** ** Failure *)

Inductive result (A : Type) : Type :=
| Ok (a : A)
| Throw (message : string).
Arguments Ok {A} a.
Arguments Throw {A} message.

#[global] Instance result_ret : MRet result := fun A a => Ok a.
#[global] Instance result_bind : MBind result := fun A B f r =>
  match r with Ok a => f a | Throw e => Throw e end.
#[global] Instance result_fmap : FMap result := fun A B f r =>
  match r with Ok a => Ok (f a) | Throw e => Throw e end.

(** ** The parser (Parser.ts) *)

Module Parser.
Import RegExp.

Record ParserOptions : Type := {
  opt_defaultCookwareAmount : option amount;
  opt_defaultIngredientAmount : option amount;
  opt_includeStepNumber : option bool
}.

Record t : Type := {
  defaultCookwareAmount : amount;
  defaultIngredientAmount : amount;
  includeStepNumber : bool;
  defaultUnits : string
}.

(** [new Parser(options)] *)
Definition new (options : option ParserOptions) : t :=
  {| defaultCookwareAmount :=
       default (Numeric (Num.of_Z 1)) (options ≫= opt_defaultCookwareAmount);
     defaultIngredientAmount :=
       default (Textual "some") (options ≫= opt_defaultIngredientAmount);
     includeStepNumber := default false (options ≫= opt_includeStepNumber);
     defaultUnits := "" |}.

(** [undefined] is [None].  [right] is undefined when the quantity has no
    [/]; [right.startsWith] is then not evaluated, since [Number(undefined)]
    is NaN and the conjunction stops before it, so that the default given
    for it here is never looked at. *)
Definition parseQuantity (quantity : option string) : option amount :=
  match quantity with
  | None => None
  | Some q =>
      if negb (Js.truthy q) || String.eqb (Js.trim q) "" then None
      else
        let quantity := Js.trim q in
        let parts := Js.split quantity "/" in
        let left := default "" (parts !! 0) in
        let right := parts !! 1 in
        let numLeft := Num.Number (Some left) in
        let numRight := Num.Number right in
        if Js.truthy_opt right && Num.isNaN numRight then
          Some (Textual quantity)
        else if negb (Num.isNaN numLeft) && Num.falsy numRight then
          Some (Numeric numLeft)
        else if negb (Num.isNaN numLeft) && negb (Num.isNaN numRight)
                && negb (Js.startsWith left "0"
                         || Js.startsWith (default "" right) "0") then
          Some (Numeric (Num.div numLeft numRight))
        else Some (Textual (Js.trim quantity))
  end.

Definition parseUnits (units : option string) : option string :=
  match units with
  | None => None
  | Some u =>
      if negb (Js.truthy u) || String.eqb (Js.trim u) "" then None
      else Some (Js.trim u)
  end.

Definition parseShoppingListCategory (items : string) : list Item :=
  foldl (fun list item =>
           let item := Js.trim item in
           if String.eqb item "" then list
           else
             let parts := Js.split item "|" in
             let name := default "" (parts !! 0) in
             let synonym := parts !! 1 in
             list ++ [{| name := Js.trim name;
                         synonym :=
                           match synonym with
                           | Some s => if Js.truthy (Js.trim s)
                                       then Js.trim s else ""
                           | None => ""
                           end |}])
        [] (Js.split items "010").

Definition groupMappings : list (string * list (string * nat)) :=
  [ ("metadata", [("key", 1); ("value", 2)]);
    ("multiwordIngredient",
       [("mIngredientName", 3); ("mIngredientQuantity", 4);
        ("mIngredientUnits", 5); ("mIngredientPreparation", 6)]);
    ("singleWordIngredient", [("sIngredientName", 7)]);
    ("multiwordCookware", [("mCookwareName", 8); ("mCookwareQuantity", 9)]);
    ("singleWordCookware", [("sCookwareName", 10)]);
    ("timer", [("timerName", 11); ("timerQuantity", 12); ("timerUnits", 13)]);
    ("shoppingList", [("name", 14); ("items", 15)]) ].

Definition mapping_of (type : string) : option (list (string * nat)) :=
  snd <$> List.find (fun e => String.eqb (fst e) type) groupMappings.

(** The named groups of a match: [null] for no match, an object holding the
    groups that were captured otherwise; an unknown [type] throws. *)
Definition createNamedGroups (match_ : option MatchArray) (type : string)
  : result (option (gmap string string)) :=
  match match_ with
  | None => Ok None
  | Some m =>
      match mapping_of type with
      | None => Throw ("Unknown regex type: " +:+ type)
      | Some mapping =>
          Ok (Some (foldl (fun groups '(groupName, index) =>
                             match at_index m index with
                             | Some s => <[groupName := s]> groups
                             | None => groups
                             end) ∅ mapping))
      end
  end.

(** [groups?.field] *)
Definition field (groups : option (gmap string string)) (f : string)
  : option string :=
  groups ≫= (fun g => g !! f).

(** The variables of [parse] that the step loop updates. *)
Record vars : Type := {
  v_ingredients : list Ingredient.t;
  v_cookwares : list Cookware.t;
  v_metadata : gmap string string;
  v_steps : list Step;
  v_stepNumber : nat
}.

(** How the scan of a line ends: [continue stepLoop], or the end of the
    matches with the step built and the index reached. *)
Inductive scanned : Type :=
| ContinueStepLoop (v : vars)
| Scanned (v : vars) (step : Step) (pos : nat).

Section Parse.
Variable this : t.

(** The body of the loop over the matches of a line. *)
Definition on_match (line : string) (m : MatchArray) (v : vars)
  (step : Step) (pos : nat) : result scanned :=
  (* metadata *)
  metadataGroups ← createNamedGroups (Some m) "metadata";
  if Js.truthy_opt (field metadataGroups "key")
     && Js.truthy_opt (field metadataGroups "value") then
    Ok (ContinueStepLoop
          {| v_ingredients := v_ingredients v;
             v_cookwares := v_cookwares v;
             v_metadata :=
               <[Js.trim (default "" (field metadataGroups "key")) :=
                   Js.trim (default "" (field metadataGroups "value"))]>
                 (v_metadata v);
             v_steps := v_steps v;
             v_stepNumber := v_stepNumber v |})
  else
  (* text *)
  let step :=
    if pos <? index m then step ++ [Text (Js.substring line pos (index m))]
    else step in
  let stepField :=
    if includeStepNumber this then Some (v_stepNumber v) else None in
  let ingredients := v_ingredients v in
  let cookwares := v_cookwares v in
  (* single word ingredient *)
  sIngredientGroup ← createNamedGroups (Some m) "singleWordIngredient";
  let '(ingredients, step) :=
    if Js.truthy_opt (field sIngredientGroup "sIngredientName") then
      let ingredient :=
        {| Ingredient.name :=
             default "" (field sIngredientGroup "sIngredientName");
           Ingredient.quantity := defaultIngredientAmount this;
           Ingredient.units := defaultUnits this;
           Ingredient.preparation := None;
           Ingredient.step := stepField |} in
      (ingredients ++ [ingredient], step ++ [AnIngredient ingredient])
    else (ingredients, step) in
  (* multiword ingredient *)
  mIngredientGroup ← createNamedGroups (Some m) "multiwordIngredient";
  let '(ingredients, step) :=
    if Js.truthy_opt (field mIngredientGroup "mIngredientName") then
      let ingredient :=
        {| Ingredient.name :=
             default "" (field mIngredientGroup "mIngredientName");
           Ingredient.quantity :=
             default (defaultIngredientAmount this)
               (parseQuantity (field mIngredientGroup "mIngredientQuantity"));
           Ingredient.units :=
             default (defaultUnits this)
               (parseUnits (field mIngredientGroup "mIngredientUnits"));
           Ingredient.preparation :=
             if Js.truthy_opt (field mIngredientGroup "mIngredientPreparation")
             then field mIngredientGroup "mIngredientPreparation" else None;
           Ingredient.step := stepField |} in
      (ingredients ++ [ingredient], step ++ [AnIngredient ingredient])
    else (ingredients, step) in
  (* single word cookware *)
  sCookwareGroup ← createNamedGroups (Some m) "singleWordCookware";
  let '(cookwares, step) :=
    if Js.truthy_opt (field sCookwareGroup "sCookwareName") then
      let cookware :=
        {| Cookware.name := default "" (field sCookwareGroup "sCookwareName");
           Cookware.quantity := defaultCookwareAmount this;
           Cookware.step := stepField |} in
      (cookwares ++ [cookware], step ++ [ACookware cookware])
    else (cookwares, step) in
  (* multiword cookware *)
  mCookwareGroup ← createNamedGroups (Some m) "multiwordCookware";
  let '(cookwares, step) :=
    if Js.truthy_opt (field mCookwareGroup "mCookwareName") then
      let cookware :=
        {| Cookware.name := default "" (field mCookwareGroup "mCookwareName");
           Cookware.quantity :=
             default (defaultCookwareAmount this)
               (parseQuantity (field mCookwareGroup "mCookwareQuantity"));
           Cookware.step := stepField |} in
      (cookwares ++ [cookware], step ++ [ACookware cookware])
    else (cookwares, step) in
  (* timer *)
  timerGroup ← createNamedGroups (Some m) "timer";
  let step :=
    if Js.truthy_opt (field timerGroup "timerQuantity") then
      step ++ [ATimer
        {| Timer.name := field timerGroup "timerName";
           Timer.quantity :=
             default (Numeric (Num.of_Z 0))
               (parseQuantity (field timerGroup "timerQuantity"));
           Timer.units :=
             default (defaultUnits this)
               (parseUnits (field timerGroup "timerUnits")) |}]
    else step in
  Ok (Scanned
        {| v_ingredients := ingredients;
           v_cookwares := cookwares;
           v_metadata := v_metadata v;
           v_steps := v_steps v;
           v_stepNumber := v_stepNumber v |}
        step (index m + String.length (matched m))).

(** The loop over the matches of a line. *)
Fixpoint scan (line : string) (ms : list MatchArray) (v : vars)
  (step : Step) (pos : nat) : result scanned :=
  match ms with
  | [] => Ok (Scanned v step pos)
  | m :: ms' =>
      s ← on_match line m v step pos;
      match s with
      | ContinueStepLoop v' => Ok (ContinueStepLoop v')
      | Scanned v' step' pos' => scan line ms' v' step' pos'
      end
  end.

(** The body of [stepLoop]. *)
Definition on_line (v : vars) (line : string) : result vars :=
  s ← scan line (matchAll Tokens.tokens line) v [] 0;
  match s with
  | ContinueStepLoop v' => Ok v'
  | Scanned v' step pos =>
      (* If the entire line hasn't been parsed yet *)
      let step :=
        if pos <? String.length line
        then step ++ [Text (Js.substring_from line pos)] else step in
      if 0 <? length step then
        Ok {| v_ingredients := v_ingredients v';
              v_cookwares := v_cookwares v';
              v_metadata := v_metadata v';
              v_steps := v_steps v' ++ [step];
              v_stepNumber := S (v_stepNumber v') |}
      else Ok v'
  end.

Fixpoint stepLoop (lines : list string) (v : vars) : result vars :=
  match lines with
  | [] => Ok v
  | line :: lines' => v' ← on_line v line; stepLoop lines' v'
  end.

(** [source.replace(comment, "").replace(blockComment, " ")] *)
Definition strip_comments (source : string) : string :=
  replace Tokens.blockComment (replace Tokens.comment source "") " ".

(** The loop over the shopping lists.  The matches are those of the text as
    it was when the loop began; the statement after the assignment to
    [source] is an expression of its own, without effect. *)
Fixpoint shoppingLists (ms : list MatchArray)
  (shoppingList : gmap string (list Item)) (source : string)
  : result (gmap string (list Item) * string) :=
  match ms with
  | [] => Ok (shoppingList, source)
  | m :: ms' =>
      groups ← createNamedGroups (Some m) "shoppingList";
      if negb (Js.truthy_opt (field groups "name")) then
        shoppingLists ms' shoppingList source
      else
        shoppingLists ms'
          (<[default "" (field groups "name") :=
               parseShoppingListCategory
                 (match field groups "items" with
                  | Some s => if Js.truthy s then s else ""
                  | None => ""
                  end)]> shoppingList)
          (Js.substring source 0 (index m))
  end.

(** [source.split(/\r?\n/).filter((l) => l.trim().length > 0)] *)
Definition lines_of (source : string) : list string :=
  List.filter (fun l => 0 <? String.length (Js.trim l))
    (split Tokens.newline source).

(** The variables at the start of [parse]. *)
Definition initial : vars :=
  {| v_ingredients := []; v_cookwares := []; v_metadata := ∅;
     v_steps := []; v_stepNumber := 0 |}.

Definition parse (source : string) : result ParseResult :=
  let source := strip_comments source in
  '(shoppingList, source) ←
    shoppingLists (matchAll Tokens.shoppingList source) ∅ source;
  let lines := lines_of source in
  v ← stepLoop lines initial;
  Ok {| ingredients := v_ingredients v;
        cookwares := v_cookwares v;
        metadata := v_metadata v;
        steps := v_steps v;
        shoppingList := shoppingList |}.

End Parse.
End Parser.

(** * Properties

    First the notions that the statements use, then the facts about the
    matcher and about the parser, then the claims of the specification. *)

(** ** Notions about the matcher *)

Module RegExpSpec.
Import RegExp.

(** [st'] is reached from [st] by reading input and by capturing into the
    groups [gs] only. *)
Record advances (gs : list nat) (st st' : mstate) : Prop := {
  adv_pos : pos st ≤ pos st';
  adv_len : pos st' - pos st ≤ length (rest st);
  adv_rest : rest st' = drop (pos st' - pos st) (rest st);
  adv_caps : ∀ i, i ∉ gs → caps st' !! i = caps st !! i
}.

(** A matcher is sound for [gs] when every result it gives is one its
    continuation gave, in a state that the matcher reached by advancing. *)
Definition sound (gs : list nat) (m : mstate → cont → option mstate) : Prop :=
  ∀ st k res, m st k = Some res → ∃ st', advances gs st st' ∧ k st' = Some res.

(** A matcher is local for [gs] when its result depends on its continuation
    only at the states it can reach. *)
Definition local (gs : list nat) (m : mstate → cont → option mstate) : Prop :=
  ∀ st k1 k2, (∀ st', advances gs st st' → k1 st' = k2 st') →
              m st k1 = m st k2.

(** Patterns that read at least one character whenever they match. *)
Fixpoint consuming (r : regex) : bool :=
  match r with
  | Char _ | Dot | Class _ _ => true
  | Seq r1 r2 => consuming r1 || consuming r2
  | Alt r1 r2 => consuming r1 && consuming r2
  | Group _ r' => consuming r'
  | _ => false
  end.

(** The number of characters of the input, read or not. *)
Definition total (st : mstate) : nat := pos st + length (rest st).

End RegExpSpec.

(** ** Notions about the parser *)

Module ParserSpec.
Import RegExp Parser.

(** The test of the metadata branch: a key and a value, neither empty. *)
Definition is_metadata (m : MatchArray) : bool :=
  Js.truthy_opt (at_index m 1) && Js.truthy_opt (at_index m 2).

(** The variables after the entry [key: value] was recorded. *)
Definition recorded (v : vars) (key value : string) : vars :=
  {| v_ingredients := v_ingredients v;
     v_cookwares := v_cookwares v;
     v_metadata := <[key := value]> (v_metadata v);
     v_steps := v_steps v;
     v_stepNumber := v_stepNumber v |}.

(** The text between the index reached and the match, when there is some. *)
Definition gap (line : string) (pos : nat) (m : MatchArray) : Step :=
  if pos <? index m then [Text (Js.substring line pos (index m))] else [].

(** The [step] field of an item made while the counter is [n]. *)
Definition stepField (this : t) (n : nat) : option nat :=
  if includeStepNumber this then Some n else None.

(** The ingredients a match makes: the single word one, then the multiword
    one. *)
Definition ingredients_of (this : t) (n : nat) (m : MatchArray)
  : list Ingredient.t :=
  (if Js.truthy_opt (at_index m 7) then
     [{| Ingredient.name := default "" (at_index m 7);
         Ingredient.quantity := defaultIngredientAmount this;
         Ingredient.units := defaultUnits this;
         Ingredient.preparation := None;
         Ingredient.step := stepField this n |}]
   else [])
  ++
  (if Js.truthy_opt (at_index m 3) then
     [{| Ingredient.name := default "" (at_index m 3);
         Ingredient.quantity :=
           default (defaultIngredientAmount this)
             (parseQuantity (at_index m 4));
         Ingredient.units :=
           default (defaultUnits this) (parseUnits (at_index m 5));
         Ingredient.preparation :=
           if Js.truthy_opt (at_index m 6) then at_index m 6 else None;
         Ingredient.step := stepField this n |}]
   else []).

(** The cookware a match makes: the single word one, then the multiword
    one. *)
Definition cookwares_of (this : t) (n : nat) (m : MatchArray)
  : list Cookware.t :=
  (if Js.truthy_opt (at_index m 10) then
     [{| Cookware.name := default "" (at_index m 10);
         Cookware.quantity := defaultCookwareAmount this;
         Cookware.step := stepField this n |}]
   else [])
  ++
  (if Js.truthy_opt (at_index m 8) then
     [{| Cookware.name := default "" (at_index m 8);
         Cookware.quantity :=
           default (defaultCookwareAmount this) (parseQuantity (at_index m 9));
         Cookware.step := stepField this n |}]
   else []).

(** The timer a match makes. *)
Definition timers_of (this : t) (m : MatchArray) : list Timer.t :=
  if Js.truthy_opt (at_index m 12) then
    [{| Timer.name := at_index m 11;
        Timer.quantity :=
          default (Numeric (Num.of_Z 0)) (parseQuantity (at_index m 12));
        Timer.units :=
          default (defaultUnits this) (parseUnits (at_index m 13)) |}]
  else [].

(** The items a match pushes onto the step, in order. *)
Definition items_of (this : t) (n : nat) (m : MatchArray) : Step :=
  (AnIngredient <$> ingredients_of this n m)
  ++ (ACookware <$> cookwares_of this n m)
  ++ (ATimer <$> timers_of this m).

(** The index after a match. *)
Definition after (m : MatchArray) : nat := index m + String.length (matched m).

(** [m] is a match of the combined pattern in [input]. *)
Definition token_match (input : list ascii) (m : MatchArray) : Prop :=
  ∃ s st, m = match_array 13 input s st ∧ s ≤ length input
          ∧ match_at Tokens.tokens (drop s input) s = Some st.

(** The groups of the six forms in the combined pattern. *)
Definition form_groups : list (list nat) :=
  [[1; 2]; [3; 4; 5; 6]; [7]; [8; 9]; [10]; [11; 12; 13]].

(** The ingredients of a step, in order. *)
Definition ingredients_in (s : Step) : list Ingredient.t :=
  omap (λ it, match it with AnIngredient i => Some i | _ => None end) s.

(** The cookware of a step, in order. *)
Definition cookwares_in (s : Step) : list Cookware.t :=
  omap (λ it, match it with ACookware c => Some c | _ => None end) s.

(** An ingredient or a cookware of a step carries the step field [o]. *)
Definition numbered (o : option nat) (it : StepItem) : Prop :=
  match it with
  | AnIngredient i => Ingredient.step i = o
  | ACookware c => Cookware.step c = o
  | _ => True
  end.

(** The variables after the items [items] were pushed. *)
Definition pushed (v : vars) (items : Step) : vars :=
  {| v_ingredients := v_ingredients v ++ ingredients_in items;
     v_cookwares := v_cookwares v ++ cookwares_in items;
     v_metadata := v_metadata v;
     v_steps := v_steps v;
     v_stepNumber := v_stepNumber v |}.

(** The variables after the step [step] was appended. *)
Definition appended (v : vars) (step : Step) : vars :=
  {| v_ingredients := v_ingredients v;
     v_cookwares := v_cookwares v;
     v_metadata := v_metadata v;
     v_steps := v_steps v ++ [step];
     v_stepNumber := S (v_stepNumber v) |}.

(** The invariant of the step loop. *)
Record well_formed (this : t) (v : vars) : Prop := {
  wf_ingredients : v_ingredients v = concat (ingredients_in <$> v_steps v);
  wf_cookwares : v_cookwares v = concat (cookwares_in <$> v_steps v);
  wf_counter : v_stepNumber v = length (v_steps v);
  wf_nonempty : Forall (λ s, s ≠ []) (v_steps v);
  wf_numbered : ∀ i s, v_steps v !! i = Some s →
                       Forall (numbered (stepField this i)) s
}.

(** [x] is [+0] or [-0]. *)
Definition is_zero (x : Num.number) : bool :=
  match x with S754_zero _ => true | _ => false end.

(** The entry of a line of the metadata form: the key and the value that
    [/^>>\s*(.+?):\s*(.+)/] captures, trimmed. *)
Definition metadata_entry (line : string) : option (string * string) :=
  m ← exec0 Tokens.metadata line;
  key ← at_index m 1;
  value ← at_index m 2;
  Some (Js.trim key, Js.trim value).

(** The entries of the lines, recorded in order. *)
Definition record_all (lines : list string) (md : gmap string string)
  : gmap string string :=
  foldl (λ md line,
           match metadata_entry line with
           | Some (key, value) => <[key := value]> md
           | None => md
           end) md lines.

(** The forms of the table of createNamedGroups. *)
Definition forms : list string :=
  ["metadata"; "multiwordIngredient"; "singleWordIngredient";
   "multiwordCookware"; "singleWordCookware"; "timer"; "shoppingList"].

(** The line feed, and some lines joined by it. *)
Definition LF : string := String "010" "".

(** A recipe of two lines with a shopping list between them. *)
Definition recipe_with_list : string :=
  "Mix." +:+ LF +:+ LF +:+ "[produce]" +:+ LF +:+ "onion|onions" +:+ LF
  +:+ "garlic" +:+ LF +:+ LF +:+ "Serve.".

End ParserSpec.

(** ** Further notions: texts, lines and items *)

Module FurtherSpec.
Import RegExp Parser ParserSpec.

(** Every match of the pattern reads one of the characters [cs]. *)
Fixpoint requires (cs : list ascii) (r : regex) : bool :=
  match r with
  | Char c => existsb (Ascii.eqb c) cs
  | Seq r1 r2 => requires cs r1 || requires cs r2
  | Alt r1 r2 => requires cs r1 && requires cs r2
  | Group _ r' => requires cs r'
  | _ => false
  end.

(** The matches from the index [pos] on lie one after the other, inside a
    text of [len] characters. *)
Fixpoint in_order (len : nat) (ms : list MatchArray) (pos : nat) : Prop :=
  match ms with
  | [] => True
  | m :: ms' => pos ≤ index m ∧ after m ≤ len ∧ in_order len ms' (after m)
  end.

(** The text from [pos] on, put together again from the matches and from
    what the step loop takes for the text between and after them. *)
Fixpoint covered (line : string) (ms : list MatchArray) (pos : nat)
  : string :=
  match ms with
  | [] => Js.substring_from line pos
  | m :: ms' =>
      Js.substring line pos (index m) +:+ matched m
      +:+ covered line ms' (after m)
  end.

(** No character of [s] is one of [cs]. *)
Definition free_of (cs : list ascii) (s : string) : bool :=
  forallb (λ c, negb (existsb (Ascii.eqb c) cs)) (Js.chars s).

(** The lines joined by line feeds. *)
Fixpoint joined (lines : list string) : string :=
  match lines with
  | [] => ""
  | [l] => l
  | l :: ls => l +:+ LF +:+ joined ls
  end.

(** The characters that start a token, the one that starts a comment and
    the ones that end a line. *)
Definition markup : list ascii := ["@"; "#"; "~"; ">"]%char.
Definition hyphen : list ascii := ["-"]%char.
Definition terminators : list ascii := ["013"; "010"]%char.

(** The items that the matches [ms] of a line push onto the step, from
    the index [pos] on, while the counter is [n]. *)
Fixpoint items_from (this : t) (n : nat) (line : string)
  (ms : list MatchArray) (pos : nat) : Step :=
  match ms with
  | [] => []
  | m :: ms' =>
      gap line pos m ++ items_of this n m
      ++ items_from this n line ms' (after m)
  end.

(** The index reached after the matches. *)
Fixpoint end_from (ms : list MatchArray) (pos : nat) : nat :=
  match ms with
  | [] => pos
  | m :: ms' => end_from ms' (after m)
  end.

(** The text after the last match, when there is some. *)
Definition rest_of (line : string) (pos : nat) : Step :=
  if pos <? String.length line then [Text (Js.substring_from line pos)]
  else [].

(** The step of a line that is not of the metadata form. *)
Definition step_of (this : t) (n : nat) (line : string) : Step :=
  let ms := matchAll Tokens.tokens line in
  items_from this n line ms 0 ++ rest_of line (end_from ms 0).

(** The variables after the steps [ss] were appended, without ingredients
    or cookware in them. *)
Definition texts (v : vars) (ss : list Step) : vars :=
  {| v_ingredients := v_ingredients v;
     v_cookwares := v_cookwares v;
     v_metadata := v_metadata v;
     v_steps := v_steps v ++ ss;
     v_stepNumber := v_stepNumber v + length ss |}.

(** A text that is not empty and has no white space at either end. *)
Definition trimmed (s : string) : Prop := s ≠ "" ∧ Js.trim s = s.

(** An amount that is the default [d], a number, or a trimmed text. *)
Definition resolved (d : amount) (a : amount) : Prop :=
  a = d ∨ match a with Textual s => trimmed s | Numeric _ => True end.

(** What holds of every item of a step: a text is not empty; an ingredient
    and a cookware have a name; a preparation, when there is one, is not
    empty; quantities and units are the defaults or were resolved. *)
Definition proper (this : t) (it : StepItem) : Prop :=
  match it with
  | Text value => value ≠ ""
  | AnIngredient i =>
      Ingredient.name i ≠ "" ∧ Ingredient.preparation i ≠ Some ""
      ∧ resolved (defaultIngredientAmount this) (Ingredient.quantity i)
      ∧ (Ingredient.units i = defaultUnits this
         ∨ trimmed (Ingredient.units i))
  | ACookware c =>
      Cookware.name c ≠ ""
      ∧ resolved (defaultCookwareAmount this) (Cookware.quantity c)
  | ATimer t =>
      resolved (Numeric (Num.of_Z 0)) (Timer.quantity t)
      ∧ (Timer.units t = defaultUnits this ∨ trimmed (Timer.units t))
  end.

(** An item without its step number. *)
Definition unnumbered_ingredient (i : Ingredient.t) : Ingredient.t :=
  {| Ingredient.name := Ingredient.name i;
     Ingredient.quantity := Ingredient.quantity i;
     Ingredient.units := Ingredient.units i;
     Ingredient.preparation := Ingredient.preparation i;
     Ingredient.step := None |}.

Definition unnumbered_cookware (c : Cookware.t) : Cookware.t :=
  {| Cookware.name := Cookware.name c;
     Cookware.quantity := Cookware.quantity c;
     Cookware.step := None |}.

Definition unnumbered (it : StepItem) : StepItem :=
  match it with
  | AnIngredient i => AnIngredient (unnumbered_ingredient i)
  | ACookware c => ACookware (unnumbered_cookware c)
  | _ => it
  end.

Definition unnumbered_vars (v : vars) : vars :=
  {| v_ingredients := unnumbered_ingredient <$> v_ingredients v;
     v_cookwares := unnumbered_cookware <$> v_cookwares v;
     v_metadata := v_metadata v;
     v_steps := fmap (M := list) unnumbered <$> v_steps v;
     v_stepNumber := v_stepNumber v |}.

Definition unnumbered_result (r : ParseResult) : ParseResult :=
  {| ingredients := unnumbered_ingredient <$> ingredients r;
     cookwares := unnumbered_cookware <$> cookwares r;
     metadata := metadata r;
     steps := fmap (M := list) unnumbered <$> steps r;
     shoppingList := shoppingList r |}.

(** The parser [this] with the option includeStepNumber off. *)
Definition without_numbers (this : t) : t :=
  {| defaultCookwareAmount := defaultCookwareAmount this;
     defaultIngredientAmount := defaultIngredientAmount this;
     includeStepNumber := false;
     defaultUnits := defaultUnits this |}.

(** No white space at the start and none at the end. *)
Definition no_space_at_ends (s : string) : Prop :=
  (∀ c, head (Js.chars s) = Some c → Js.is_space c = false)
  ∧ (∀ c, last (Js.chars s) = Some c → Js.is_space c = false).

(** The index that the table gives for a name of a group, the first entry
    of that name. *)
Definition group_index (mapping : list (string * nat)) (name : string)
  : option nat :=
  snd <$> List.find (λ e, String.eqb (fst e) name) mapping.

(** The item of a line of a category of the shopping list; a blank line
    has none. *)
Definition item_of (line : string) : option Item :=
  let item := Js.trim line in
  if String.eqb item "" then None
  else
    let parts := Js.split item "|" in
    Some {| name := Js.trim (default "" (parts !! 0));
            synonym :=
              match parts !! 1 with
              | Some s => if Js.truthy (Js.trim s) then Js.trim s else ""
              | None => ""
              end |}.

(** A decimal digit, and the value of a run of them. *)
Definition is_digit (c : ascii) : bool :=
  (48 <=? Js.code c) && (Js.code c <=? 57).

Definition decimal_value (ds : list ascii) : Z :=
  foldl (λ acc c, (acc * 10 + Z.of_nat (Js.code c - 48))%Z) 0%Z ds.

(** A matcher that reads only characters on which [p] holds. *)
Definition reads (p : ascii → bool) (m : mstate → cont → option mstate)
  : Prop :=
  ∀ st k res, m st k = Some res →
    ∃ st', RegExpSpec.advances [] st st'
           ∧ Forall (λ c, p c = true) (take (pos st' - pos st) (rest st))
           ∧ k st' = Some res.

(** The characters that start an ingredient, a cookware and a block
    comment. *)
Definition reserved : list ascii := ["@"; "#"; "["]%char.

(** The name of an ingredient or of a cookware has no reserved character. *)
Definition well_named (it : StepItem) : Prop :=
  match it with
  | AnIngredient i => free_of reserved (Ingredient.name i) = true
  | ACookware c => free_of reserved (Cookware.name c) = true
  | _ => True
  end.

(** An item of a step that comes [k] steps later. *)
Definition later_ingredient (k : nat) (i : Ingredient.t) : Ingredient.t :=
  {| Ingredient.name := Ingredient.name i;
     Ingredient.quantity := Ingredient.quantity i;
     Ingredient.units := Ingredient.units i;
     Ingredient.preparation := Ingredient.preparation i;
     Ingredient.step := (λ n, k + n) <$> Ingredient.step i |}.

Definition later_cookware (k : nat) (c : Cookware.t) : Cookware.t :=
  {| Cookware.name := Cookware.name c;
     Cookware.quantity := Cookware.quantity c;
     Cookware.step := (λ n, k + n) <$> Cookware.step c |}.

Definition later (k : nat) (it : StepItem) : StepItem :=
  match it with
  | AnIngredient i => AnIngredient (later_ingredient k i)
  | ACookware c => ACookware (later_cookware k c)
  | _ => it
  end.

(** The variables [d] of a text that comes after the text of the variables
    [v]: its steps follow, its entries of the metadata win. *)
Definition after_vars (v d : vars) : vars :=
  {| v_ingredients :=
       v_ingredients v ++ (later_ingredient (v_stepNumber v) <$> v_ingredients d);
     v_cookwares :=
       v_cookwares v ++ (later_cookware (v_stepNumber v) <$> v_cookwares d);
     v_metadata := v_metadata d ∪ v_metadata v;
     v_steps :=
       v_steps v ++ (fmap (M := list) (later (v_stepNumber v)) <$> v_steps d);
     v_stepNumber := v_stepNumber v + v_stepNumber d |}.

(** The result of a text followed by the result of another. *)
Definition after_result (r1 r2 : ParseResult) : ParseResult :=
  let k := length (steps r1) in
  {| ingredients := ingredients r1 ++ (later_ingredient k <$> ingredients r2);
     cookwares := cookwares r1 ++ (later_cookware k <$> cookwares r2);
     metadata := metadata r2 ∪ metadata r1;
     steps := steps r1 ++ (fmap (M := list) (later k) <$> steps r2);
     shoppingList := ∅ |}.

(** The result that [parse] makes of the variables of the step loop. *)
Definition result_of (v : vars) : ParseResult :=
  {| ingredients := v_ingredients v;
     cookwares := v_cookwares v;
     metadata := v_metadata v;
     steps := v_steps v;
     shoppingList := ∅ |}.

(** Every match of the pattern starts with one of the characters [cs]. *)
Fixpoint begins (cs : list ascii) (r : regex) : bool :=
  match r with
  | Char c => existsb (Ascii.eqb c) cs
  | Seq Bol r2 => begins cs r2
  | Seq r1 _ => begins cs r1
  | Alt r1 r2 => begins cs r1 && begins cs r2
  | Group _ r' => begins cs r'
  | _ => false
  end.

(** A text as an item of a step, when there is some. *)
Definition text_item (s : string) : Step :=
  if Js.truthy s then [Text s] else [].

(** The match of a token of the line that starts after [pre], ends at the
    index [e] before [post], and has the captures [cs]. *)
Definition token_at (line : string) (pre post : list ascii) (e : nat)
  (cs : gmap nat (nat * nat)) : MatchArray :=
  match_array 13 (Js.chars line) (length pre) (MState post e cs).

(** A character of a word: [[^\s\t\p{Zs}\p{P}]]. *)
Definition is_word (c : ascii) : bool :=
  class_matches true [CSpace; CChar "009"; CZs; CP] c.

(** A word does not go on into the text [post]. *)
Definition word_ends (post : string) : bool :=
  match Js.chars post with
  | c :: _ => negb (is_word c)
  | [] => true
  end.

(** The lines with one token between two texts. *)
Definition ingredient_line (pre name q u post : string) : string :=
  pre +:+ "@" +:+ name +:+ "{" +:+ q +:+ "%" +:+ u +:+ "}" +:+ post.

Definition cookware_line (pre name q post : string) : string :=
  pre +:+ "#" +:+ name +:+ "{" +:+ q +:+ "}" +:+ post.

Definition timer_line (pre name q u post : string) : string :=
  pre +:+ "~" +:+ name +:+ "{" +:+ q +:+ "%" +:+ u +:+ "}" +:+ post.

Definition word_line (sigil pre word post : string) : string :=
  pre +:+ sigil +:+ word +:+ post.

Definition amount_line (sigil pre name q post : string) : string :=
  pre +:+ sigil +:+ name +:+ "{" +:+ q +:+ "}" +:+ post.

Definition prepared_line (pre name q u prep post : string) : string :=
  pre +:+ "@" +:+ name +:+ "{" +:+ q +:+ "%" +:+ u +:+ "}"
      +:+ "(" +:+ prep +:+ ")" +:+ post.

(** The items that these lines make, while the counter is [n]. *)
Definition full_ingredient (this : t) (n : nat) (name q u : string)
  : Ingredient.t :=
  {| Ingredient.name := name;
     Ingredient.quantity :=
       default (defaultIngredientAmount this) (parseQuantity (Some q));
     Ingredient.units := default (defaultUnits this) (parseUnits (Some u));
     Ingredient.preparation := None;
     Ingredient.step := stepField this n |}.

Definition amount_ingredient (this : t) (n : nat) (name q : string)
  : Ingredient.t :=
  {| Ingredient.name := name;
     Ingredient.quantity :=
       default (defaultIngredientAmount this) (parseQuantity (Some q));
     Ingredient.units := defaultUnits this;
     Ingredient.preparation := None;
     Ingredient.step := stepField this n |}.

Definition prepared_ingredient (this : t) (n : nat) (name q u prep : string)
  : Ingredient.t :=
  {| Ingredient.name := name;
     Ingredient.quantity :=
       default (defaultIngredientAmount this) (parseQuantity (Some q));
     Ingredient.units := default (defaultUnits this) (parseUnits (Some u));
     Ingredient.preparation := if Js.truthy prep then Some prep else None;
     Ingredient.step := stepField this n |}.

Definition word_ingredient (this : t) (n : nat) (word : string)
  : Ingredient.t :=
  {| Ingredient.name := word;
     Ingredient.quantity := defaultIngredientAmount this;
     Ingredient.units := defaultUnits this;
     Ingredient.preparation := None;
     Ingredient.step := stepField this n |}.

Definition full_cookware (this : t) (n : nat) (name q : string) : Cookware.t :=
  {| Cookware.name := name;
     Cookware.quantity :=
       default (defaultCookwareAmount this) (parseQuantity (Some q));
     Cookware.step := stepField this n |}.

Definition word_cookware (this : t) (n : nat) (word : string) : Cookware.t :=
  {| Cookware.name := word;
     Cookware.quantity := defaultCookwareAmount this;
     Cookware.step := stepField this n |}.

Definition full_timer (this : t) (name q u : string) : Timer.t :=
  {| Timer.name := Some name;
     Timer.quantity :=
       default (Numeric (Num.of_Z 0)) (parseQuantity (Some q));
     Timer.units := default (defaultUnits this) (parseUnits (Some u)) |}.

Definition amount_timer (this : t) (name q : string) : Timer.t :=
  {| Timer.name := Some name;
     Timer.quantity :=
       default (Numeric (Num.of_Z 0)) (parseQuantity (Some q));
     Timer.units := defaultUnits this |}.


(** A text of white space, and a text that starts with another character. *)
Definition blank (s : string) : bool := forallb Js.is_space (Js.chars s).



(** A text that is empty or starts with a line terminator. *)
Definition line_ends (s : string) : bool :=
  match Js.chars s with
  | c :: _ => Js.is_line_terminator c
  | [] => true
  end.

(** A text that does not start, or does not end, with white space. *)
Definition tight_start (s : string) : bool :=
  match Js.chars s with
  | c :: _ => negb (Js.is_space c)
  | [] => true
  end.

Definition tight_end (s : string) : bool :=
  match rev (Js.chars s) with
  | c :: _ => negb (Js.is_space c)
  | [] => true
  end.

(** The character that opens a block comment. *)
Definition bracket : list ascii := ["["]%char.

(** The text with a block comment between two texts, white space around
    the comment. *)
Definition commented (a w1 c w2 b : string) : string :=
  a +:+ w1 +:+ "[-" +:+ c +:+ "-]" +:+ w2 +:+ b.

(** The result of a line that makes one step. *)
Definition one_step (step : Step) : ParseResult :=
  {| ingredients := ingredients_in step;
     cookwares := cookwares_in step;
     metadata := ∅;
     steps := [step];
     shoppingList := ∅ |}.

End FurtherSpec.

(** ** Facts about the matcher *)

Module RegExpFacts.
Import RegExp RegExpSpec.

Lemma advances_refl gs st : advances gs st st.
Proof.
  split; try done; try lia.
  by rewrite Nat.sub_diag.
Qed.

Lemma advances_trans gs1 gs2 gs st st1 st2 :
  advances gs1 st st1 → advances gs2 st1 st2 →
  gs1 ⊆ gs → gs2 ⊆ gs → advances gs st st2.
Proof.
  intros [P1 L1 R1 C1] [P2 L2 R2 C2] S1 S2.
  assert (Hl : length (rest st1) = length (rest st) - (pos st1 - pos st))
    by (rewrite R1; apply length_drop).
  split.
  - lia.
  - lia.
  - rewrite R2, R1, drop_drop. f_equal. lia.
  - intros i Hi. rewrite C2 by (intros ?; apply Hi; auto).
    apply C1. intros ?; apply Hi; auto.
Qed.

Lemma advances_mono gs gs' st st' :
  advances gs st st' → gs ⊆ gs' → advances gs' st st'.
Proof.
  intros H S. eapply advances_trans; [apply H|apply (advances_refl [])| |];
    set_solver.
Qed.

Lemma lookup_clear gs (m : gmap nat (nat * nat)) i :
  i ∉ gs → foldr delete m gs !! i = m !! i.
Proof.
  induction gs as [|g gs IH]; simpl; [done|].
  intros Hi. rewrite lookup_delete_ne by set_solver. apply IH. set_solver.
Qed.

Lemma advances_clear gs st st' :
  advances gs (clear gs st) st' → advances gs st st'.
Proof.
  intros [P L R C]. split; auto.
  intros i Hi. rewrite C by done. by apply lookup_clear.
Qed.

Lemma advances_set_cap gs i a b st st' :
  advances gs st st' → advances (i :: gs) st (set_cap i a b st').
Proof.
  intros [P L R C]. split; auto.
  intros j Hj. simpl. rewrite lookup_insert_ne by set_solver.
  apply C. set_solver.
Qed.

Lemma read_sound p : sound [] (read p).
Proof.
  intros st k res. unfold read.
  destruct (rest st) as [|c l] eqn:E; [done|].
  destruct (p c); [|done]. intros Hk.
  eexists; split; [|exact Hk].
  split; simpl; try lia.
  - rewrite E. simpl. lia.
  - replace (S (pos st) - pos st) with 1 by lia. by rewrite E.
  - done.
Qed.

Lemma repeat_sound once gs greedy k :
  sound gs once →
  ∀ n st res, repeat once gs greedy k n st = Some res →
    ∃ st', advances gs st st' ∧ k st' = Some res.
Proof.
  intros Honce n. induction n as [|n IH]; intros st res; simpl.
  { intros Hk. exists st. split; [apply advances_refl|done]. }
  assert (Hagain : once (clear gs st) (progress st (repeat once gs greedy k n))
                   = Some res → ∃ st', advances gs st st' ∧ k st' = Some res).
  { intros H. apply Honce in H as (st1 & A1 & H1).
    unfold progress in H1. destruct (pos st1 =? pos st); [done|].
    apply IH in H1 as (st2 & A2 & H2). exists st2. split; [|done].
    eapply advances_trans; [apply advances_clear, A1|apply A2|done|done]. }
  assert (Hstop : k st = Some res
                  → ∃ st', advances gs st st' ∧ k st' = Some res).
  { intros H. exists st. split; [apply advances_refl|done]. }
  destruct greedy.
  - destruct (once _ _) as [s|] eqn:E; [|apply Hstop].
    intros [= ->]. by apply Hagain.
  - destruct (k st) as [s|] eqn:E; [|apply Hagain].
    intros [= ->]. by apply Hstop.
Qed.

Lemma rmatch_sound r : sound (groups r) (rmatch r).
Proof.
  induction r as [ |c| |neg items| | |r1 IH1 r2 IH2|r1 IH1 r2 IH2
                  |greedy r IH|greedy r IH|i r IH]; intros st k res; simpl.
  - intros H. exists st. split; [apply advances_refl|done].
  - apply read_sound.
  - apply read_sound.
  - apply read_sound.
  - destruct (pos st =? 0); [|done].
    intros H. exists st. split; [apply advances_refl|done].
  - destruct (rest st); [|done].
    intros H. exists st. split; [apply advances_refl|done].
  - intros H. apply IH1 in H as (st1 & A1 & H).
    apply IH2 in H as (st2 & A2 & H). exists st2. split; [|done].
    eapply advances_trans; [apply A1|apply A2| |]; set_solver.
  - destruct (rmatch r1 st k) as [s|] eqn:E.
    + intros [= ->]. apply IH1 in E as (st1 & A1 & H). exists st1.
      split; [|done]. eapply advances_mono; [apply A1|set_solver].
    + intros H. apply IH2 in H as (st1 & A1 & H). exists st1.
      split; [|done]. eapply advances_mono; [apply A1|set_solver].
  - apply repeat_sound, IH.
  - assert (Honce : rmatch r (clear (groups r) st) (progress st k) = Some res
                    → ∃ st', advances (groups r) st st' ∧ k st' = Some res).
    { intros H. apply IH in H as (st1 & A1 & H). unfold progress in H.
      destruct (pos st1 =? pos st); [done|]. exists st1.
      split; [by apply advances_clear|done]. }
    assert (Hskip : k st = Some res
                    → ∃ st', advances (groups r) st st' ∧ k st' = Some res).
    { intros H. exists st. split; [apply advances_refl|done]. }
    destruct greedy.
    + destruct (rmatch r _ _) as [s|] eqn:E; [|apply Hskip].
      intros [= ->]. by apply Honce.
    + destruct (k st) as [s|] eqn:E; [|apply Honce].
      intros [= ->]. by apply Hskip.
  - intros H. apply IH in H as (st1 & A1 & H).
    eexists. split; [|exact H]. by apply advances_set_cap.
Qed.

Lemma read_consumes p st k res :
  read p st k = Some res →
  ∃ st', advances [] st st' ∧ pos st < pos st' ∧ k st' = Some res.
Proof.
  intros H. destruct (read_sound p st k res H) as (st' & A & Hk).
  unfold read in H. destruct (rest st) as [|c l] eqn:E; [done|].
  destruct (p c); [|done].
  eexists. split; [|split; [|exact H]]; simpl; [|lia].
  split; simpl; try lia.
  - rewrite E. simpl. lia.
  - replace (S (pos st) - pos st) with 1 by lia. by rewrite E.
  - done.
Qed.

Lemma rmatch_consumes r :
  consuming r = true →
  ∀ st k res, rmatch r st k = Some res →
    ∃ st', advances (groups r) st st' ∧ pos st < pos st' ∧ k st' = Some res.
Proof.
  induction r as [ |c| |neg items| | |r1 IH1 r2 IH2|r1 IH1 r2 IH2
                  |greedy r IH|greedy r IH|i r IH]; simpl; try done;
    intros Hc st k res.
  - apply read_consumes.
  - apply read_consumes.
  - apply read_consumes.
  - intros H. destruct (consuming r1) eqn:E1.
    + apply IH1 in H as (st1 & A1 & L1 & H); [|done].
      apply rmatch_sound in H as (st2 & A2 & H). exists st2.
      split; [|split; [|done]].
      * eapply advances_trans; [apply A1|apply A2| |]; set_solver.
      * destruct A2. lia.
    + apply rmatch_sound in H as (st1 & A1 & H).
      apply IH2 in H as (st2 & A2 & L2 & H); [|done]. exists st2.
      split; [|split; [|done]].
      * eapply advances_trans; [apply A1|apply A2| |]; set_solver.
      * destruct A1. lia.
  - apply andb_prop in Hc as [Hc1 Hc2].
    destruct (rmatch r1 st k) as [s|] eqn:E.
    + intros [= ->]. apply IH1 in E as (st1 & A1 & L1 & H); [|done].
      exists st1. split; [|done]. eapply advances_mono; [apply A1|set_solver].
    + intros H. apply IH2 in H as (st1 & A1 & L1 & H); [|done].
      exists st1. split; [|done]. eapply advances_mono; [apply A1|set_solver].
  - intros H. apply IH in H as (st1 & A1 & L1 & H); [|done].
    eexists. split; [|split; [|exact H]]; [by apply advances_set_cap|done].
Qed.

(** What a group hands to what follows it: its capture, from where the
    group began to where it ended. *)
Lemma rmatch_group i r st k res :
  rmatch (Group i r) st k = Some res →
  ∃ st1, advances (groups r) st st1
         ∧ (consuming r = true → pos st < pos st1)
         ∧ k (set_cap i (pos st) (pos st1) st1) = Some res.
Proof.
  simpl. intros H. destruct (consuming r) eqn:Ec.
  - apply rmatch_consumes in H as (st1 & A & L & H); [|done]. eauto.
  - apply rmatch_sound in H as (st1 & A & H). exists st1.
    split; [done|]. split; [intros ?; discriminate|done].
Qed.

Lemma rmatch_group_then i r b st k res :
  rmatch (Seq (Group i r) b) st k = Some res →
  ∃ st1, advances (groups r) st st1
         ∧ (consuming r = true → pos st < pos st1)
         ∧ rmatch b (set_cap i (pos st) (pos st1) st1) k = Some res.
Proof. intros H. by apply rmatch_group in H. Qed.

Lemma rmatch_then a b st k res :
  rmatch (Seq a b) st k = Some res →
  ∃ st1, advances (groups a) st st1 ∧ rmatch b st1 k = Some res.
Proof. simpl. intros H. by apply rmatch_sound in H. Qed.

Lemma rmatch_alt a b st k res :
  rmatch (Alt a b) st k = Some res →
  rmatch a st k = Some res ∨ (rmatch a st k = None ∧ rmatch b st k = Some res).
Proof. simpl. destruct (rmatch a st k); [left|right]; done. Qed.

Lemma advances_total gs st st' : advances gs st st' → total st' = total st.
Proof.
  intros [P L R C]. unfold total. rewrite R, length_drop. lia.
Qed.

Lemma match_at_advances r suffix start st :
  match_at r suffix start = Some st →
  advances (groups r) (MState suffix start ∅) st.
Proof.
  unfold match_at. intros H. apply rmatch_sound in H as (st' & A & [= ->]).
  done.
Qed.

Lemma match_at_caps r suffix start st i :
  match_at r suffix start = Some st → i ∉ groups r → caps st !! i = None.
Proof.
  intros H Hi. apply match_at_advances in H as [_ _ _ C].
  by rewrite C.
Qed.

Lemma search_spec r suffix start s st :
  search r suffix start = Some (s, st) →
  start ≤ s ∧ s - start ≤ length suffix
  ∧ match_at r (drop (s - start) suffix) s = Some st.
Proof.
  revert start. induction suffix as [|c suffix IH]; intros start; simpl.
  - destruct (match_at r [] start) eqn:E; [|done]. intros [= -> ->].
    rewrite Nat.sub_diag. simpl. repeat split; [lia|lia|done].
  - destruct (match_at r (c :: suffix) start) eqn:E.
    + intros [= -> ->]. rewrite Nat.sub_diag. simpl.
      repeat split; [lia|lia|done].
    + intros H. apply IH in H as (L & B & H).
      replace (s - start) with (S (s - S start)) by lia. simpl.
      repeat split; [lia|lia|done].
Qed.

Lemma search_here r suffix start st :
  match_at r suffix start = Some st → search r suffix start = Some (start, st).
Proof. intros H. destruct suffix; simpl; by rewrite H. Qed.

Lemma match_at_alt_l a b suffix start st :
  match_at a suffix start = Some st →
  match_at (Alt a b) suffix start = Some st.
Proof. unfold match_at. simpl. by intros ->. Qed.

Lemma exec_0 r input : exec r input 0 = search r input 0.
Proof. reflexivity. Qed.

Lemma exec_spec r input lastIndex s st :
  exec r input lastIndex = Some (s, st) →
  lastIndex ≤ s ∧ s ≤ length input ∧ match_at r (drop s input) s = Some st.
Proof.
  unfold exec. destruct (length input <? lastIndex) eqn:E; [done|].
  apply Nat.ltb_ge in E. intros H. apply search_spec in H as (L & B & H).
  rewrite length_drop in B. rewrite drop_drop in H.
  replace (lastIndex + (s - lastIndex)) with s in H by lia.
  repeat split; [lia|lia|done].
Qed.

(** Every match of a global pattern is a match at its own index, and the
    matches after the first begin after the first character. *)
Lemma all_from_spec r input n lastIndex :
  Forall (fun '(s, st) => lastIndex ≤ s ∧ s ≤ length input
                          ∧ match_at r (drop s input) s = Some st)
         (all_from n r input lastIndex).
Proof.
  revert lastIndex. induction n as [|n IH]; intros lastIndex; simpl; [done|].
  destruct (exec r input lastIndex) as [[s st]|] eqn:E; [|done].
  apply exec_spec in E as (L & B & H). constructor; [done|].
  eapply Forall_impl; [apply IH|]. intros [s' st'] (L' & B' & H').
  repeat split; [|done|done].
  apply match_at_advances in H as [P _ _ _]. simpl in P.
  destruct (pos st =? s) eqn:Eq;
    [apply Nat.eqb_eq in Eq|apply Nat.eqb_neq in Eq]; lia.
Qed.

Lemma all_from_S r input n lastIndex :
  all_from (S n) r input lastIndex
  = match exec r input lastIndex with
    | None => []
    | Some (start, st) =>
        (start, st)
        :: all_from n r input (if pos st =? start then S (pos st) else pos st)
    end.
Proof. reflexivity. Qed.

Lemma all_matches_tail r input p ms :
  all_matches r input = p :: ms →
  Forall (fun '(s, st) => 1 ≤ s ∧ s ≤ length input
                          ∧ match_at r (drop s input) s = Some st) ms.
Proof.
  unfold all_matches. rewrite all_from_S. generalize (S (length input)) as n.
  intros n. destruct (exec r input 0) as [[s st]|] eqn:E; [|done].
  intros [= <- <-]. apply exec_spec in E as (_ & _ & H).
  apply match_at_advances in H as [P _ _ _]. simpl in P.
  eapply Forall_impl; [apply all_from_spec|]. intros [s' st'] (L' & B' & H').
  repeat split; [|done|done].
  destruct (pos st =? s) eqn:Eq;
    [apply Nat.eqb_eq in Eq|apply Nat.eqb_neq in Eq]; lia.
Qed.

(** The groups of a match array. *)
Lemma at_index_match_array n input start st i :
  1 ≤ i ≤ n →
  at_index (match_array n input start st) i
  = (λ '(a, b), slice input a b) <$> caps st !! i.
Proof.
  intros Hi. unfold at_index, match_array. simpl.
  destruct i as [|i]; [lia|]. simpl.
  rewrite list_lookup_fmap, lookup_seq_lt by lia. simpl. done.
Qed.

Lemma at_index_beyond n input start st i :
  n < i → at_index (match_array n input start st) i = None.
Proof.
  intros Hi. unfold at_index, match_array. simpl.
  destruct i as [|i]; [lia|]. simpl.
  rewrite list_lookup_fmap, lookup_seq_ge by lia. done.
Qed.

(** *** Fuel

    The iterations of a star, the matches of a global pattern and the pieces
    of a split are counted down from the length of the input; the bounds are
    never reached, so that more fuel gives the same result. *)

Lemma read_local p : local [] (read p).
Proof.
  intros st k1 k2 H. unfold read.
  destruct (rest st) as [|c l] eqn:E; [done|]. destruct (p c); [|done].
  apply H. split; simpl; try lia; try done.
  - rewrite E. simpl. lia.
  - replace (S (pos st) - pos st) with 1 by lia. by rewrite E.
Qed.

Lemma progress_agree gs st k1 k2 :
  (∀ st', advances gs st st' → pos st < pos st' → k1 st' = k2 st') →
  ∀ st', advances gs (clear gs st) st' →
         progress st k1 st' = progress st k2 st'.
Proof.
  intros H st' A. unfold progress.
  destruct (pos st' =? pos st) eqn:E; [done|]. apply Nat.eqb_neq in E.
  apply advances_clear in A. apply H; [done|]. destruct A. lia.
Qed.

Lemma repeat_local once gs greedy :
  local gs once →
  ∀ n st k1 k2, (∀ st', advances gs st st' → k1 st' = k2 st') →
                repeat once gs greedy k1 n st = repeat once gs greedy k2 n st.
Proof.
  intros Honce n. induction n as [|n IH]; intros st k1 k2 H; simpl.
  { apply H, advances_refl. }
  rewrite (H st (advances_refl _ _)).
  rewrite (Honce (clear gs st) (progress st (repeat once gs greedy k1 n))
                 (progress st (repeat once gs greedy k2 n))); [done|].
  apply progress_agree. intros st' A _. apply IH. intros st'' A'.
  apply H. eapply advances_trans; [apply A|apply A'|done|done].
Qed.

Lemma rmatch_local r : local (groups r) (rmatch r).
Proof.
  induction r as [ |c| |neg items| | |r1 IH1 r2 IH2|r1 IH1 r2 IH2
                  |greedy r IH|greedy r IH|i r IH]; intros st k1 k2 H; simpl.
  - apply H, advances_refl.
  - by apply read_local.
  - by apply read_local.
  - by apply read_local.
  - destruct (pos st =? 0); [|done]. apply H, advances_refl.
  - destruct (rest st); [|done]. apply H, advances_refl.
  - apply IH1. intros st1 A1. apply IH2. intros st2 A2. apply H.
    eapply advances_trans; [apply A1|apply A2| |]; set_solver.
  - rewrite (IH1 st k1 k2), (IH2 st k1 k2); [done| |];
      intros st' A; apply H; (eapply advances_mono; [apply A|set_solver]).
  - by apply repeat_local.
  - rewrite (H st (advances_refl _ _)).
    rewrite (IH (clear (groups r) st) (progress st k1) (progress st k2));
      [done|].
    apply progress_agree. intros st' A _. by apply H.
  - apply IH. intros st' A. apply H. by apply advances_set_cap.
Qed.

(** At the end of the input no further iteration is possible. *)
Lemma once_more_fails once gs st k :
  sound gs once → rest st = [] → once (clear gs st) (progress st k) = None.
Proof.
  intros Hs Hr. destruct (once _ _) as [res|] eqn:E; [|done].
  apply Hs in E as (st' & A & H). apply advances_clear in A.
  destruct A as [P L _ _]. rewrite Hr in L. simpl in L.
  unfold progress in H. replace (pos st') with (pos st) in H by lia.
  by rewrite Nat.eqb_refl in H.
Qed.

Lemma repeat_fuel once gs greedy k :
  sound gs once → local gs once →
  ∀ n st, length (rest st) ≤ n →
          repeat once gs greedy k (S n) st = repeat once gs greedy k n st.
Proof.
  intros Hs Hl n. induction n as [|n IH]; intros st Hn.
  - assert (Hr : rest st = []) by (destruct (rest st); [done|simpl in Hn; lia]).
    simpl. rewrite (once_more_fails once gs st _ Hs Hr).
    destruct greedy; [done|]. by destruct (k st).
  - change (repeat once gs greedy k (S (S n)) st)
      with (if greedy
            then once (clear gs st)
                   (progress st (repeat once gs greedy k (S n))) <|> k st
            else k st <|> once (clear gs st)
                            (progress st (repeat once gs greedy k (S n)))).
    rewrite (Hl (clear gs st) (progress st (repeat once gs greedy k (S n)))
                (progress st (repeat once gs greedy k n))); [done|].
    apply progress_agree. intros st' A Hlt. apply IH.
    pose proof (advances_total _ _ _ A) as T. unfold total in T. lia.
Qed.

(** The star, with any fuel from the length of the input on. *)
Lemma rmatch_star_fuel greedy r st k n :
  length (rest st) ≤ n →
  rmatch (Star greedy r) st k = repeat (rmatch r) (groups r) greedy k n st.
Proof.
  intros Hn. simpl.
  induction Hn as [|n Hn IH]; [done|].
  rewrite IH. symmetry.
  apply repeat_fuel; [apply rmatch_sound|apply rmatch_local|done].
Qed.

Lemma all_from_fuel r input n lastIndex :
  S (length input) < n + lastIndex →
  all_from (S n) r input lastIndex = all_from n r input lastIndex.
Proof.
  revert lastIndex. induction n as [|n IH]; intros lastIndex Hn.
  - rewrite all_from_S. unfold exec.
    replace (length input <? lastIndex) with true; [done|].
    symmetry. apply Nat.ltb_lt. lia.
  - rewrite (all_from_S r input (S n) lastIndex),
      (all_from_S r input n lastIndex).
    destruct (exec r input lastIndex) as [[s st]|] eqn:E; [|done].
    apply exec_spec in E as (L & B & H).
    apply match_at_advances in H as [P _ _ _]. simpl in P.
    f_equal. apply IH.
    destruct (pos st =? s) eqn:Eq;
      [apply Nat.eqb_eq in Eq|apply Nat.eqb_neq in Eq]; lia.
Qed.

Lemma all_matches_fuel r input n :
  S (S (length input)) ≤ n → all_from n r input 0 = all_matches r input.
Proof.
  unfold all_matches. induction 1 as [|n Hn IH]; [done|].
  rewrite all_from_fuel by lia. exact IH.
Qed.

Lemma split_from_S r input n p q :
  split_from (S n) r input p q
  = if length input <=? q then [slice input p (length input)]
    else
      match match_at r (drop q input) q with
      | None => split_from n r input p (S q)
      | Some st =>
          let e := Nat.min (pos st) (length input) in
          if e =? p then split_from n r input p (S q)
          else slice input p q :: split_from n r input e e
      end.
Proof. reflexivity. Qed.

Lemma split_from_fuel r input n p q :
  p ≤ q → 2 * (length input - q) + (if p <? q then 1 else 0) < n →
  split_from (S n) r input p q = split_from n r input p q.
Proof.
  revert p q. induction n as [|n IH]; intros p q Hpq Hn; [lia|].
  rewrite (split_from_S r input (S n) p q), (split_from_S r input n p q).
  destruct (length input <=? q) eqn:Eq; [done|]. apply Nat.leb_gt in Eq.
  assert (Hnext : split_from (S n) r input p (S q)
                  = split_from n r input p (S q)).
  { apply IH; [lia|].
    replace (p <? S q) with true by (symmetry; apply Nat.ltb_lt; lia).
    destruct (p <? q); lia. }
  destruct (match_at r (drop q input) q) as [st|] eqn:E; [|exact Hnext].
  apply match_at_advances in E as [P L _ _]. simpl in P, L.
  rewrite length_drop in L. cbv zeta.
  destruct (Nat.min (pos st) (length input) =? p) eqn:Ep; [exact Hnext|].
  apply Nat.eqb_neq in Ep. f_equal. apply IH; [lia|].
  rewrite Nat.ltb_irrefl.
  destruct (p <? q) eqn:Epq;
    [apply Nat.ltb_lt in Epq|apply Nat.ltb_ge in Epq]; lia.
Qed.

Lemma split_fuel r input n :
  S (2 * length input) ≤ n →
  split_from n r input 0 0 = split_from (S (2 * length input)) r input 0 0.
Proof.
  induction 1 as [|n Hn IH]; [done|].
  rewrite split_from_fuel; [exact IH|lia|simpl; lia].
Qed.

End RegExpFacts.

(** ** Facts about the parser *)

Module ParserFacts.
Import RegExp RegExpSpec RegExpFacts Parser ParserSpec.

(** *** createNamedGroups on the forms that Parser.parse names *)

Ltac named_groups :=
  unfold createNamedGroups; simpl; eexists; split; [reflexivity|];
  repeat match goal with
         | |- context [at_index ?m ?i] => destruct (at_index m i)
         end; repeat split; reflexivity.

Lemma groups_metadata m :
  ∃ g, createNamedGroups (Some m) "metadata" = Ok (Some g)
       ∧ g !! "key" = at_index m 1 ∧ g !! "value" = at_index m 2.
Proof. named_groups. Qed.

Lemma groups_singleWordIngredient m :
  ∃ g, createNamedGroups (Some m) "singleWordIngredient" = Ok (Some g)
       ∧ g !! "sIngredientName" = at_index m 7.
Proof. named_groups. Qed.

Lemma groups_multiwordIngredient m :
  ∃ g, createNamedGroups (Some m) "multiwordIngredient" = Ok (Some g)
       ∧ g !! "mIngredientName" = at_index m 3
       ∧ g !! "mIngredientQuantity" = at_index m 4
       ∧ g !! "mIngredientUnits" = at_index m 5
       ∧ g !! "mIngredientPreparation" = at_index m 6.
Proof. named_groups. Qed.

Lemma groups_singleWordCookware m :
  ∃ g, createNamedGroups (Some m) "singleWordCookware" = Ok (Some g)
       ∧ g !! "sCookwareName" = at_index m 10.
Proof. named_groups. Qed.

Lemma groups_multiwordCookware m :
  ∃ g, createNamedGroups (Some m) "multiwordCookware" = Ok (Some g)
       ∧ g !! "mCookwareName" = at_index m 8
       ∧ g !! "mCookwareQuantity" = at_index m 9.
Proof. named_groups. Qed.

Lemma groups_timer m :
  ∃ g, createNamedGroups (Some m) "timer" = Ok (Some g)
       ∧ g !! "timerName" = at_index m 11
       ∧ g !! "timerQuantity" = at_index m 12
       ∧ g !! "timerUnits" = at_index m 13.
Proof. named_groups. Qed.

Lemma groups_shoppingList m :
  ∃ g, createNamedGroups (Some m) "shoppingList" = Ok (Some g)
       ∧ g !! "name" = at_index m 14 ∧ g !! "items" = at_index m 15.
Proof. named_groups. Qed.

(** *** The body of the loop over the matches, in one equation *)

Lemma on_match_eq this line m v step pos :
  on_match this line m v step pos
  = Ok (if is_metadata m then
          ContinueStepLoop
            (recorded v (Js.trim (default "" (at_index m 1)))
                        (Js.trim (default "" (at_index m 2))))
        else
          Scanned
            {| v_ingredients :=
                 v_ingredients v ++ ingredients_of this (v_stepNumber v) m;
               v_cookwares :=
                 v_cookwares v ++ cookwares_of this (v_stepNumber v) m;
               v_metadata := v_metadata v;
               v_steps := v_steps v;
               v_stepNumber := v_stepNumber v |}
            (step ++ gap line pos m ++ items_of this (v_stepNumber v) m)
            (after m)).
Proof.
  unfold on_match.
  destruct (groups_metadata m) as (g1 & -> & K1 & K2).
  destruct (groups_singleWordIngredient m) as (g2 & -> & K3).
  destruct (groups_multiwordIngredient m) as (g3 & -> & K4 & K5 & K6 & K7).
  destruct (groups_singleWordCookware m) as (g4 & -> & K8).
  destruct (groups_multiwordCookware m) as (g5 & -> & K9 & K10).
  destruct (groups_timer m) as (g6 & -> & K11 & K12 & K13).
  unfold field. simpl.
  rewrite K1, K2, K3, K4, K5, K6, K7, K8, K9, K10, K11, K12, K13.
  unfold is_metadata, items_of, ingredients_of, cookwares_of, timers_of, gap,
    stepField, after.
  destruct (Js.truthy_opt (at_index m 1) && Js.truthy_opt (at_index m 2));
    [reflexivity|].
  destruct (pos <? index m), (Js.truthy_opt (at_index m 7)),
    (Js.truthy_opt (at_index m 3)), (Js.truthy_opt (at_index m 10)),
    (Js.truthy_opt (at_index m 8)), (Js.truthy_opt (at_index m 12));
    simpl; rewrite ?app_nil_r, <- ?app_assoc; reflexivity.
Qed.

(** *** The matches of the combined pattern *)

Lemma tokens_alternatives :
  Tokens.tokens
  = Alt (shift 0 Tokens.metadata)
      (Alt (shift 2 Tokens.multiwordIngredient)
         (Alt (shift 6 Tokens.singleWordIngredient)
            (Alt (shift 7 Tokens.multiwordCookware)
               (Alt (shift 9 Tokens.singleWordCookware)
                  (shift 10 Tokens.timer))))).
Proof. reflexivity. Qed.

Lemma tokens_groups : length (groups Tokens.tokens) = 13.
Proof. reflexivity. Qed.

Lemma matchAll_tokens line :
  Forall (token_match (Js.chars line)) (matchAll Tokens.tokens line).
Proof.
  unfold matchAll, all_matches. rewrite tokens_groups.
  apply Forall_fmap. eapply Forall_impl; [apply all_from_spec|].
  intros [s st] (_ & B & H). simpl. by exists s, st.
Qed.

(** A match takes one alternative, and only the groups of that alternative
    are defined in it. *)
Lemma token_match_one_form input m :
  token_match input m →
  ∃ gs, gs ∈ form_groups ∧ ∀ i, 1 ≤ i → i ∉ gs → at_index m i = None.
Proof.
  intros (s & st & -> & B & H).
  assert (Hcaps : ∃ gs, gs ∈ form_groups ∧ ∀ i, i ∉ gs → caps st !! i = None).
  { unfold match_at in H. rewrite tokens_alternatives in H.
    repeat (apply rmatch_alt in H as [H|[_ H]]);
      apply rmatch_sound in H as (st' & [_ _ _ C] & [= ->]);
      eexists; (split; [|intros i Hi; rewrite C by exact Hi; reflexivity]);
      vm_compute groups; apply list_elem_of_In; simpl; tauto. }
  destruct Hcaps as (gs & Hgs & C). exists gs. split; [done|].
  intros i Hpos Hi. destruct (decide (i ≤ 13)) as [Hr|Hr].
  - rewrite at_index_match_array by done. by rewrite C.
  - apply at_index_beyond. lia.
Qed.

(** *** The metadata form *)

Lemma metadata_shape :
  shift 0 Tokens.metadata = Tokens.metadata
  ∧ Tokens.metadata
    = Seq Bol (Seq (lit ">>") (Seq (Star true Tokens.space)
        (Seq (Group 1 (Plus false Dot)) (Seq (Char ":")
           (Seq (Star true Tokens.space) (Group 2 (Plus true Dot))))))).
Proof. split; reflexivity. Qed.

Lemma slice_truthy input a b :
  a < b → b ≤ length input → Js.truthy (slice input a b) = true.
Proof.
  intros Hab Hb. unfold slice.
  destruct (take (b - a) (drop a input)) as [|c l] eqn:E; [|done].
  apply (f_equal length) in E. rewrite length_take, length_drop in E.
  simpl in E. lia.
Qed.

(** The metadata form matches at the start of the line only, and its key
    and its value are never empty. *)
Lemma match_at_metadata suffix s st :
  match_at Tokens.metadata suffix s = Some st →
  s = 0 ∧ ∃ a b c d,
    caps st !! 1 = Some (a, b) ∧ a < b ∧ b ≤ length suffix
    ∧ caps st !! 2 = Some (c, d) ∧ c < d ∧ d ≤ length suffix.
Proof.
  unfold match_at. destruct metadata_shape as [_ ->]. intros H.
  assert (s = 0) as ->.
  { simpl in H. destruct s; [done|discriminate]. }
  split; [done|].
  set (st0 := MState suffix 0 ∅) in *.
  apply rmatch_then in H as (st1 & A1 & H).
  apply rmatch_then in H as (st3 & A3 & H).
  apply rmatch_then in H as (st4 & A4 & H).
  apply rmatch_group_then in H as (st5 & A5 & L5 & H).
  apply rmatch_then in H as (st6 & A6 & H).
  apply rmatch_then in H as (st7 & A7 & H).
  apply rmatch_group in H as (st8 & A8 & L8 & [= <-]).
  pose proof (advances_total _ _ _ A1) as T1.
  pose proof (advances_total _ _ _ A3) as T3.
  pose proof (advances_total _ _ _ A4) as T4.
  pose proof (advances_total _ _ _ A5) as T5.
  pose proof (advances_total _ _ _ A6) as T6.
  pose proof (advances_total _ _ _ A7) as T7.
  pose proof (advances_total _ _ _ A8) as T8.
  unfold total in *. simpl in *.
  exists (pos st4), (pos st5), (pos st7), (pos st8).
  destruct A6 as [_ _ _ C6], A7 as [_ _ _ C7], A8 as [_ _ _ C8].
  repeat split.
  - rewrite lookup_insert_ne by done.
    rewrite C8, C7, C6 by (simpl; apply not_elem_of_nil).
    simpl. by rewrite lookup_insert_eq.
  - by apply L5.
  - lia.
  - by rewrite lookup_insert_eq.
  - by apply L8.
  - lia.
Qed.

Lemma tokens_later_not_metadata suffix s st :
  1 ≤ s → match_at Tokens.tokens suffix s = Some st →
  caps st !! 1 = None ∧ caps st !! 2 = None.
Proof.
  intros Hs. unfold match_at. rewrite tokens_alternatives.
  destruct metadata_shape as [-> _]. intros H.
  apply rmatch_alt in H as [H|[_ H]].
  { apply match_at_metadata in H as [-> _]. lia. }
  apply rmatch_sound in H as (st' & [_ _ _ C] & [= ->]).
  split; rewrite C; try done; vm_compute groups; rewrite list_elem_of_In;
    simpl; lia.
Qed.

Lemma is_metadata_later input s st :
  1 ≤ s → match_at Tokens.tokens (drop s input) s = Some st →
  is_metadata (match_array 13 input s st) = false.
Proof.
  intros Hs H. apply tokens_later_not_metadata in H as [H1 _]; [|done].
  unfold is_metadata. rewrite at_index_match_array by lia.
  by rewrite H1.
Qed.

(** Only the first match of a line can be the metadata form. *)
Lemma matchAll_tokens_tail line m ms :
  matchAll Tokens.tokens line = m :: ms →
  Forall (λ m', is_metadata m' = false) ms.
Proof.
  unfold matchAll. rewrite tokens_groups.
  destruct (all_matches Tokens.tokens (Js.chars line)) as [|p l] eqn:E;
    [done|].
  apply all_matches_tail in E. rewrite fmap_cons. intros [= _ <-].
  apply Forall_fmap. eapply Forall_impl; [apply E|].
  intros [s st] (L & B & H). simpl. by apply is_metadata_later.
Qed.

(** A line of the metadata form: its first match, in the combined pattern,
    is the match of the metadata pattern. *)
Lemma metadata_line_first line m :
  exec0 Tokens.metadata line = Some m →
  ∃ key value m0 ms,
    at_index m 1 = Some key ∧ at_index m 2 = Some value
    ∧ matchAll Tokens.tokens line = m0 :: ms
    ∧ at_index m0 1 = Some key ∧ at_index m0 2 = Some value
    ∧ is_metadata m0 = true.
Proof.
  unfold exec0. destruct (search _ _ 0) as [[s st]|] eqn:E; [|done].
  simpl. intros [= <-].
  apply search_spec in E as (_ & B & H).
  pose proof H as H'. apply match_at_metadata in H' as [-> R].
  simpl in H. rewrite length_drop in R.
  destruct R as (a & b & c & d & C1 & L1 & B1 & C2 & L2 & B2).
  set (input := Js.chars line) in *.
  exists (slice input a b), (slice input c d).
  assert (Hfirst : all_matches Tokens.tokens input
                   = (0, st) :: all_from (S (length input)) Tokens.tokens input
                                  (if pos st =? 0 then S (pos st) else pos st)).
  { unfold all_matches. rewrite all_from_S, exec_0.
    rewrite (search_here _ _ _ st); [done|].
    rewrite tokens_alternatives. apply match_at_alt_l.
    by destruct metadata_shape as [-> _]. }
  unfold matchAll. fold input. rewrite Hfirst, fmap_cons, tokens_groups.
  eexists _, _.
  change (length (groups Tokens.metadata)) with 2.
  unfold is_metadata. rewrite !at_index_match_array by lia.
  rewrite C1, C2. cbn [fmap option_fmap option_map].
  split; [done|]. split; [done|]. split; [reflexivity|].
  rewrite !at_index_match_array by lia. rewrite C1, C2.
  cbn [fmap option_fmap option_map Js.truthy_opt].
  rewrite !slice_truthy by lia. done.
Qed.

(** *** The step loop *)

Lemma ingredients_in_app s1 s2 :
  ingredients_in (s1 ++ s2) = ingredients_in s1 ++ ingredients_in s2.
Proof. apply omap_app. Qed.

Lemma cookwares_in_app s1 s2 :
  cookwares_in (s1 ++ s2) = cookwares_in s1 ++ cookwares_in s2.
Proof. apply omap_app. Qed.

Lemma ingredients_in_ingredients l : ingredients_in (AnIngredient <$> l) = l.
Proof. induction l as [|i l IH]; [done|]. simpl. f_equal. exact IH. Qed.

Lemma ingredients_in_cookwares l : ingredients_in (ACookware <$> l) = [].
Proof. induction l as [|i l IH]; [done|]. exact IH. Qed.

Lemma ingredients_in_timers l : ingredients_in (ATimer <$> l) = [].
Proof. induction l as [|i l IH]; [done|]. exact IH. Qed.

Lemma cookwares_in_cookwares l : cookwares_in (ACookware <$> l) = l.
Proof. induction l as [|i l IH]; [done|]. simpl. f_equal. exact IH. Qed.

Lemma cookwares_in_ingredients l : cookwares_in (AnIngredient <$> l) = [].
Proof. induction l as [|i l IH]; [done|]. exact IH. Qed.

Lemma cookwares_in_timers l : cookwares_in (ATimer <$> l) = [].
Proof. induction l as [|i l IH]; [done|]. exact IH. Qed.

Lemma ingredients_in_items this n m :
  ingredients_in (items_of this n m) = ingredients_of this n m.
Proof.
  unfold items_of. rewrite !ingredients_in_app, ingredients_in_ingredients,
    ingredients_in_cookwares, ingredients_in_timers.
  by rewrite !app_nil_r.
Qed.

Lemma cookwares_in_items this n m :
  cookwares_in (items_of this n m) = cookwares_of this n m.
Proof.
  unfold items_of. rewrite !cookwares_in_app, cookwares_in_cookwares,
    cookwares_in_ingredients, cookwares_in_timers.
  by rewrite !app_nil_r.
Qed.

Lemma gap_flat line pos m :
  ingredients_in (gap line pos m) = [] ∧ cookwares_in (gap line pos m) = [].
Proof. unfold gap. by destruct (pos <? index m). Qed.

Lemma numbered_items this n m :
  Forall (numbered (stepField this n)) (items_of this n m).
Proof.
  unfold items_of, ingredients_of, cookwares_of, timers_of.
  destruct (Js.truthy_opt (at_index m 7)), (Js.truthy_opt (at_index m 3)),
    (Js.truthy_opt (at_index m 10)), (Js.truthy_opt (at_index m 8)),
    (Js.truthy_opt (at_index m 12)); simpl; repeat constructor.
Qed.

Lemma numbered_gap o line pos m : Forall (numbered o) (gap line pos m).
Proof. unfold gap. destruct (pos <? index m); repeat constructor. Qed.

Lemma pushed_nil v : pushed v [] = v.
Proof. destruct v. unfold pushed. simpl. by rewrite !app_nil_r. Qed.

Lemma pushed_app v s1 s2 : pushed (pushed v s1) s2 = pushed v (s1 ++ s2).
Proof.
  unfold pushed. simpl.
  by rewrite ingredients_in_app, cookwares_in_app, !app_assoc.
Qed.

(** One match that is not of the metadata form pushes its items. *)
Lemma on_match_plain this line m v step pos :
  is_metadata m = false →
  on_match this line m v step pos
  = Ok (Scanned (pushed v (gap line pos m ++ items_of this (v_stepNumber v) m))
          (step ++ gap line pos m ++ items_of this (v_stepNumber v) m)
          (after m)).
Proof.
  intros Hm. rewrite on_match_eq, Hm. unfold pushed.
  rewrite ingredients_in_app, cookwares_in_app.
  destruct (gap_flat line pos m) as [-> ->].
  by rewrite ingredients_in_items, cookwares_in_items.
Qed.

(** The matches of a line among which none is of the metadata form push
    their items, and the scan reaches the end of the matches. *)
Lemma scan_plain this line ms :
  Forall (λ m, is_metadata m = false) ms →
  ∀ v step pos, ∃ items pos',
    scan this line ms v step pos
    = Ok (Scanned (pushed v items) (step ++ items) pos')
    ∧ Forall (numbered (stepField this (v_stepNumber v))) items.
Proof.
  induction 1 as [|m ms Hm _ IH]; intros v step pos; simpl.
  - exists [], pos. by rewrite pushed_nil, app_nil_r.
  - rewrite on_match_plain by done. simpl.
    destruct (IH (pushed v (gap line pos m ++ items_of this (v_stepNumber v) m))
                 (step ++ gap line pos m ++ items_of this (v_stepNumber v) m)
                 (after m)) as (items & pos' & -> & N).
    exists ((gap line pos m ++ items_of this (v_stepNumber v) m) ++ items).
    exists pos'.
    rewrite pushed_app, <- !app_assoc. split; [done|].
    rewrite !Forall_app.
    split; [apply numbered_gap|split; [apply numbered_items|exact N]].
Qed.

(** The two ways a line ends: as a line of the metadata form, which sets an
    entry and nothing else, or with a step, appended when it has items. *)
Lemma on_line_cases this v line :
  (∃ m ms, matchAll Tokens.tokens line = m :: ms ∧ is_metadata m = true
           ∧ on_line this v line
             = Ok (recorded v (Js.trim (default "" (at_index m 1)))
                              (Js.trim (default "" (at_index m 2)))))
  ∨ (∃ step, (∀ m ms, matchAll Tokens.tokens line = m :: ms
                      → is_metadata m = false)
             ∧ Forall (numbered (stepField this (v_stepNumber v))) step
             ∧ on_line this v line
               = Ok (if decide (step = []) then v
                     else appended (pushed v step) step)).
Proof.
  unfold on_line.
  destruct (matchAll Tokens.tokens line) as [|m ms] eqn:E.
  - right. simpl.
    exists (if 0 <? String.length line
            then [Text (Js.substring_from line 0)] else []).
    split; [done|]. destruct (0 <? String.length line); simpl.
    + split; [repeat constructor|]. unfold appended, pushed. simpl.
      by rewrite !app_nil_r.
    + split; [constructor|]. done.
  - pose proof (matchAll_tokens_tail _ _ _ E) as Htail.
    destruct (is_metadata m) eqn:Hm.
    + left. exists m, ms. split; [done|]. split; [done|].
      simpl. by rewrite on_match_eq, Hm.
    + right.
      destruct (scan_plain this line (m :: ms) (Forall_cons_2 _ _ _ Hm Htail)
                  v [] 0) as (items & pos' & -> & N).
      simpl.
      exists (if pos' <? String.length line
              then items ++ [Text (Js.substring_from line pos')] else items).
      split; [by intros ?? [= <- <-]|].
      destruct (pos' <? String.length line).
      * split; [apply Forall_app; split; [done|repeat constructor]|].
        destruct (items ++ [Text (Js.substring_from line pos')]) eqn:Ei;
          [by destruct items|]. rewrite <- Ei. simpl.
        rewrite length_app. simpl.
        replace (0 <? length items + 1) with true
          by (symmetry; apply Nat.ltb_lt; lia).
        unfold appended, pushed. simpl.
        rewrite ingredients_in_app, cookwares_in_app. simpl.
        rewrite !app_nil_r.
        destruct (decide (items ++ [Text (Js.substring_from line pos')] = []))
          as [Hn|_]; [by rewrite Ei in Hn|done].
      * split; [done|]. destruct items as [|it items]; [by rewrite pushed_nil|].
        simpl. done.
Qed.

Lemma well_formed_initial this : well_formed this initial.
Proof. by split. Qed.

Lemma well_formed_recorded this v key value :
  well_formed this v → well_formed this (recorded v key value).
Proof. intros [? ? ? ? ?]. by split. Qed.

Lemma well_formed_appended this v step :
  well_formed this v → step ≠ [] →
  Forall (numbered (stepField this (v_stepNumber v))) step →
  well_formed this (appended (pushed v step) step).
Proof.
  intros [I C N E Hs] Hne Hnum. split; simpl.
  - rewrite fmap_app, concat_app, I. simpl. by rewrite app_nil_r.
  - rewrite fmap_app, concat_app, C. simpl. by rewrite app_nil_r.
  - rewrite List.length_app. simpl. lia.
  - apply Forall_app. split; [done|]. by constructor.
  - intros i s Hi. apply lookup_snoc_Some in Hi as [[_ Hi]|[-> <-]].
    + by apply Hs.
    + rewrite N in Hnum. exact Hnum.
Qed.

Lemma on_line_well_formed this v line :
  well_formed this v →
  ∃ v', on_line this v line = Ok v' ∧ well_formed this v'.
Proof.
  intros W.
  destruct (on_line_cases this v line)
    as [(m & ms & _ & _ & ->)|(step & _ & N & ->)].
  - eexists. split; [done|]. by apply well_formed_recorded.
  - eexists. split; [done|]. destruct (decide (step = [])); [done|].
    by apply well_formed_appended.
Qed.

Lemma stepLoop_well_formed this lines :
  ∀ v, well_formed this v →
       ∃ v', stepLoop this lines v = Ok v' ∧ well_formed this v'.
Proof.
  induction lines as [|line lines IH]; intros v W; simpl.
  - by exists v.
  - destruct (on_line_well_formed this v line W) as (v1 & -> & W1). simpl.
    by apply IH.
Qed.

(** *** The shopping lists *)

Lemma matchAll_arity r s :
  Forall (λ m, ∀ i, length (groups r) < i → at_index m i = None)
         (matchAll r s).
Proof.
  unfold matchAll. apply Forall_fmap, Forall_true.
  intros [start st] i Hi. by apply at_index_beyond.
Qed.

(** A match without a fourteenth element is passed over. *)
Lemma shoppingLists_skip ms :
  Forall (λ m, at_index m 14 = None) ms →
  ∀ shoppingList source,
    shoppingLists ms shoppingList source = Ok (shoppingList, source).
Proof.
  induction 1 as [|m ms Hm _ IH]; intros shoppingList source; [done|].
  cbn [shoppingLists].
  destruct (groups_shoppingList m) as (g & -> & K1 & _).
  unfold field. simpl. rewrite K1, Hm. simpl. apply IH.
Qed.

(** The loop over the shopping lists changes neither the mapping nor the
    text: the pattern has two groups, and the name is looked up as the
    fourteenth. *)
Lemma shoppingLists_unchanged source :
  shoppingLists (matchAll Tokens.shoppingList source) ∅ source
  = Ok (∅, source).
Proof.
  apply shoppingLists_skip. eapply Forall_impl; [apply matchAll_arity|].
  intros m H. apply H. vm_compute. lia.
Qed.

(** The loop over the shopping lists ends with a result, whatever the
    matches. *)
Lemma shoppingLists_total ms :
  ∀ shoppingList source, ∃ r, shoppingLists ms shoppingList source = Ok r.
Proof.
  induction ms as [|m ms IH]; intros shoppingList source; [by eexists|].
  cbn [shoppingLists].
  destruct (groups_shoppingList m) as (g & -> & _). cbn [mbind result_bind].
  destruct (negb _); apply IH.
Qed.

Lemma parse_eq this source :
  parse this source
  = (v ← stepLoop this (lines_of (strip_comments source)) initial;
     Ok {| ingredients := v_ingredients v;
           cookwares := v_cookwares v;
           metadata := v_metadata v;
           steps := v_steps v;
           shoppingList := ∅ |}).
Proof.
  unfold parse. by rewrite shoppingLists_unchanged.
Qed.

(** The result of [parse], from the variables the step loop ends with. *)
Lemma parse_well_formed this source :
  ∃ v, stepLoop this (lines_of (strip_comments source)) initial = Ok v
       ∧ well_formed this v
       ∧ parse this source
         = Ok {| ingredients := v_ingredients v;
                 cookwares := v_cookwares v;
                 metadata := v_metadata v;
                 steps := v_steps v;
                 shoppingList := ∅ |}.
Proof.
  destruct (stepLoop_well_formed this (lines_of (strip_comments source))
              initial (well_formed_initial this)) as (v & E & W).
  exists v. split; [done|]. split; [done|]. by rewrite parse_eq, E.
Qed.

(** *** Quantities and units *)

Lemma trim_start_idem l : Js.trim_start (Js.trim_start l) = Js.trim_start l.
Proof.
  induction l as [|c l IH]; [done|]. simpl.
  destruct (Js.is_space c) eqn:E; [done|]. simpl. by rewrite E.
Qed.

Lemma trim_start_keeps_last l c :
  Js.is_space c = false → ∃ l', Js.trim_start (l ++ [c]) = l' ++ [c].
Proof.
  intros Hc. induction l as [|d l IH]; simpl.
  - rewrite Hc. by exists [].
  - destruct (Js.is_space d); [done|]. by exists (d :: l).
Qed.

Lemma trim_end_idem l : Js.trim_end (Js.trim_end l) = Js.trim_end l.
Proof.
  unfold Js.trim_end. by rewrite rev_involutive, trim_start_idem.
Qed.

Lemma trim_start_end l :
  Js.trim_start (Js.trim_end (Js.trim_start l))
  = Js.trim_end (Js.trim_start l).
Proof.
  assert (H : ∀ k, Js.trim_start k = k →
                   Js.trim_start (Js.trim_end k) = Js.trim_end k).
  { intros [|c k] Hk; [done|]. simpl in Hk.
    destruct (Js.is_space c) eqn:Ec.
    - exfalso. clear -Hk.
      assert (Hlen : ∀ k, length (Js.trim_start k) ≤ length k).
      { induction k0 as [|d k0 IH]; simpl; [done|].
        destruct (Js.is_space d); simpl; lia. }
      specialize (Hlen k). rewrite Hk in Hlen. simpl in Hlen. lia.
    - unfold Js.trim_end. simpl.
      destruct (trim_start_keeps_last (rev k) c Ec) as (l' & ->).
      rewrite rev_app_distr. simpl. by rewrite Ec. }
  apply H, trim_start_idem.
Qed.

Lemma trim_idem s : Js.trim (Js.trim s) = Js.trim s.
Proof.
  unfold Js.trim, Js.chars, Js.str.
  by rewrite list_ascii_of_string_of_list_ascii, trim_start_end, trim_end_idem.
Qed.

Lemma falsy_trim q : Js.truthy q = false → Js.trim q = "".
Proof. by destruct q. Qed.

Lemma blank_test raw :
  negb (Js.truthy raw) || String.eqb (Js.trim raw) "" = true
  ↔ Js.trim raw = "".
Proof.
  rewrite orb_true_iff, negb_true_iff, String.eqb_eq. split; [|by right].
  intros [H|H]; [by apply falsy_trim|done].
Qed.

(** The quantity is unresolved exactly when it is blank. *)
Lemma parseQuantity_None raw :
  parseQuantity (Some raw) = None ↔ Js.trim raw = "".
Proof.
  unfold parseQuantity. rewrite <- blank_test.
  destruct (negb (Js.truthy raw) || String.eqb (Js.trim raw) ""); [done|].
  cbv zeta. split; [|done].
  repeat match goal with |- context [if ?b then _ else _] => destruct b end;
    discriminate.
Qed.

(** [parseQuantity] on a quantity that is not blank, as one equation. *)
Lemma parseQuantity_eq raw :
  Js.trim raw ≠ "" →
  let q := Js.trim raw in
  let left := default "" (Js.split q "/" !! 0) in
  let right := Js.split q "/" !! 1 in
  let numLeft := Num.Number (Some left) in
  let numRight := Num.Number right in
  parseQuantity (Some raw)
  = if Js.truthy_opt right && Num.isNaN numRight then Some (Textual q)
    else if negb (Num.isNaN numLeft) && Num.falsy numRight
         then Some (Numeric numLeft)
    else if negb (Num.isNaN numLeft) && negb (Num.isNaN numRight)
            && negb (Js.startsWith left "0"
                     || Js.startsWith (default "" right) "0")
         then Some (Numeric (Num.div numLeft numRight))
    else Some (Textual q).
Proof.
  intros Hq. cbv zeta. unfold parseQuantity.
  destruct (negb (Js.truthy raw) || String.eqb (Js.trim raw) "") eqn:E.
  - by apply blank_test in E.
  - by rewrite trim_idem.
Qed.

(** *** The metadata of a document *)

(** When the first match of a line has a key and a value, the line is of
    the metadata form. *)
Lemma first_metadata_entry line m ms :
  matchAll Tokens.tokens line = m :: ms → is_metadata m = true →
  metadata_entry line
  = Some (Js.trim (default "" (at_index m 1)),
          Js.trim (default "" (at_index m 2))).
Proof.
  intros E Hm.
  pose proof (matchAll_tokens line) as F. rewrite E in F.
  apply Forall_cons_1 in F as [(s & st & -> & B & H) _].
  destruct (decide (s = 0)) as [->|Hs];
    [|by rewrite is_metadata_later in Hm by (done || lia)].
  simpl in H. unfold match_at in H. rewrite tokens_alternatives in H.
  destruct metadata_shape as [Hshift _]. rewrite Hshift in H.
  apply rmatch_alt in H as [H|[_ H]].
  - unfold metadata_entry, exec0.
    rewrite (search_here _ _ _ st) by exact H. simpl.
    unfold is_metadata in Hm. rewrite !at_index_match_array in Hm by lia.
    change (length (groups Tokens.metadata)) with 2.
    rewrite !at_index_match_array by lia.
    destruct (caps st !! 1) as [[a b]|]; [|done].
    destruct (caps st !! 2) as [[c d]|]; [|by rewrite andb_false_r in Hm].
    done.
  - exfalso. apply rmatch_sound in H as (st' & [_ _ _ C] & [= ->]).
    unfold is_metadata in Hm. rewrite !at_index_match_array in Hm by lia.
    rewrite C in Hm; [done|].
    vm_compute groups. rewrite list_elem_of_In. simpl. lia.
Qed.

(** A line of the metadata form records its entry and nothing else: no
    step, no ingredient, no cookware, and the counter stays. *)
Lemma on_line_entry this v line key value :
  metadata_entry line = Some (key, value) →
  on_line this v line = Ok (recorded v key value).
Proof.
  unfold metadata_entry. intros H.
  destruct (exec0 Tokens.metadata line) as [m|] eqn:E; [|done].
  apply metadata_line_first in E
    as (k & val & m0 & ms & K1 & K2 & E & K1' & K2' & Hm).
  simpl in H. rewrite K1, K2 in H. simpl in H. injection H as <- <-.
  destruct (on_line_cases this v line)
    as [(m1 & ms1 & E1 & _ & ->)|(step & Hno & _)].
  - rewrite E in E1. injection E1 as <- <-. by rewrite K1', K2'.
  - by rewrite (Hno _ _ E) in Hm.
Qed.

(** Any other line leaves the metadata as they are. *)
Lemma on_line_no_entry this v line :
  metadata_entry line = None →
  ∃ v', on_line this v line = Ok v' ∧ v_metadata v' = v_metadata v.
Proof.
  intros H.
  destruct (on_line_cases this v line)
    as [(m & ms & E & Hm & _)|(step & _ & _ & ->)].
  - by rewrite (first_metadata_entry _ _ _ E Hm) in H.
  - eexists. split; [done|]. by destruct (decide (step = [])).
Qed.

Lemma record_all_cons line lines md :
  record_all (line :: lines) md
  = record_all lines
      match metadata_entry line with
      | Some (key, value) => <[key := value]> md
      | None => md
      end.
Proof. reflexivity. Qed.

Lemma stepLoop_metadata this lines :
  ∀ v, ∃ v', stepLoop this lines v = Ok v'
             ∧ v_metadata v' = record_all lines (v_metadata v).
Proof.
  induction lines as [|line lines IH]; intros v; cbn [stepLoop].
  - by exists v.
  - destruct (metadata_entry line) as [[key value]|] eqn:E.
    + rewrite (on_line_entry this v line key value E).
      cbn [mbind result_bind].
      destruct (IH (recorded v key value)) as (v' & -> & Hmd).
      exists v'. split; [done|]. by rewrite Hmd, record_all_cons, E.
    + destruct (on_line_no_entry this v line E) as (v1 & -> & Hv1).
      cbn [mbind result_bind].
      destruct (IH v1) as (v' & -> & Hmd).
      exists v'. split; [done|]. by rewrite Hmd, Hv1, record_all_cons, E.
Qed.



(** *** The forms of createNamedGroups, the counter and the timer *)

Lemma pushed_nothing v items :
  ingredients_in items = [] → cookwares_in items = [] → pushed v items = v.
Proof.
  intros Hi Hc. destruct v. unfold pushed. simpl.
  by rewrite Hi, Hc, !app_nil_r.
Qed.

Lemma find_form_None (l : list (string * list (string * nat))) type :
  List.find (λ e, String.eqb (fst e) type) l = None ↔ type ∉ l.*1.
Proof.
  induction l as [|[name mapping] l IH]; simpl.
  - split; [intros _; apply not_elem_of_nil|done].
  - rewrite not_elem_of_cons. destruct (String.eqb_spec name type) as [->|Hne].
    + split; [done|]. by intros [? _].
    + rewrite IH. split; [by split|by intros [_ ?]].
Qed.

Lemma mapping_of_forms type : mapping_of type = None ↔ type ∉ forms.
Proof.
  unfold mapping_of. rewrite fmap_None. apply find_form_None.
Qed.

Lemma createNamedGroups_throws m type :
  (∃ message, createNamedGroups m type = Throw message)
  ↔ m ≠ None ∧ type ∉ forms.
Proof.
  rewrite <- mapping_of_forms. unfold createNamedGroups.
  destruct m as [m|].
  - destruct (mapping_of type); split.
    + by intros [? ?].
    + by intros [_ ?].
    + by intros _.
    + intros _. by eexists.
  - split; [by intros [? ?]|by intros [? _]].
Qed.

Lemma stepLoop_total this lines v :
  ∃ v', stepLoop this lines v = Ok v'.
Proof.
  destruct (stepLoop_metadata this lines v) as (v' & H & _). by exists v'.
Qed.

Lemma on_line_counter this v line :
  ∃ v', on_line this v line = Ok v'
        ∧ ((v_steps v' = v_steps v ∧ v_stepNumber v' = v_stepNumber v)
           ∨ ∃ step, step ≠ [] ∧ v_steps v' = v_steps v ++ [step]
                     ∧ v_stepNumber v' = S (v_stepNumber v)).
Proof.
  destruct (on_line_cases this v line)
    as [(m & ms & _ & _ & ->)|(step & _ & _ & ->)].
  - eexists. split; [done|]. by left.
  - eexists. split; [done|]. destruct (decide (step = [])); [by left|].
    right. by exists step.
Qed.

(** The units are unresolved exactly when they are absent or blank. *)
Lemma parseUnits_None units :
  parseUnits units = None ↔ ∀ u, units = Some u → Js.trim u = "".
Proof.
  destruct units as [u|]; simpl; [|by split].
  destruct (negb (Js.truthy u) || String.eqb (Js.trim u) "") eqn:E.
  - apply blank_test in E. split; [by intros _ ? [= <-]|done].
  - split; [done|]. intros H. specialize (H u eq_refl).
    apply blank_test in H. congruence.
Qed.

(** A match of the timer form: the text before it, and the timer when the
    quantity is not empty; the variables of the parse stay as they are. *)
Lemma on_match_timer this line i m v step pos q :
  matchAll Tokens.tokens line !! i = Some m →
  at_index m 12 = Some q →
  on_match this line m v step pos
  = Ok (Scanned v
          (step ++ gap line pos m
           ++ (if Js.truthy q then
                 [ATimer {| Timer.name := at_index m 11;
                            Timer.quantity :=
                              default (Numeric (Num.of_Z 0))
                                (parseQuantity (Some q));
                            Timer.units :=
                              default (defaultUnits this)
                                (parseUnits (at_index m 13)) |}]
               else []))
          (after m)).
Proof.
  intros Hm Hq.
  assert (T : token_match (Js.chars line) m).
  { eapply Forall_lookup_1; [apply matchAll_tokens|exact Hm]. }
  apply token_match_one_form in T as (gs & Hgs & Hnone).
  assert (Hother : ∀ j, 1 ≤ j ≤ 10 → at_index m j = None).
  { intros j Hj. apply Hnone; [lia|]. intros Hin.
    assert (H12 : 12 ∉ gs).
    { apply list_elem_of_In in Hgs. simpl in Hgs.
      repeat (destruct Hgs as [<-|Hgs];
              [apply list_elem_of_In in Hin; simpl in Hin;
               rewrite list_elem_of_In; simpl; lia|]).
      done. }
    specialize (Hnone 12 ltac:(lia) H12). congruence. }
  rewrite on_match_plain
    by (unfold is_metadata; rewrite (Hother 1) by lia; done).
  assert (Hitems : items_of this (v_stepNumber v) m
                   = if Js.truthy q then
                       [ATimer {| Timer.name := at_index m 11;
                                  Timer.quantity :=
                                    default (Numeric (Num.of_Z 0))
                                      (parseQuantity (Some q));
                                  Timer.units :=
                                    default (defaultUnits this)
                                      (parseUnits (at_index m 13)) |}]
                     else []).
  { unfold items_of, ingredients_of, cookwares_of, timers_of.
    rewrite (Hother 7), (Hother 3), (Hother 10), (Hother 8), Hq by lia.
    cbn [Js.truthy_opt]. by destruct (Js.truthy q). }
  rewrite Hitems. rewrite pushed_nothing; [done| |].
  - rewrite ingredients_in_app. destruct (gap_flat line pos m) as [-> _].
    by destruct (Js.truthy q).
  - rewrite cookwares_in_app. destruct (gap_flat line pos m) as [_ ->].
    by destruct (Js.truthy q).
Qed.

End ParserFacts.

(** ** Further facts about the matcher, the numbers and the parser *)

Module FurtherRegExpFacts.
Import RegExp RegExpSpec RegExpFacts Parser ParserSpec ParserFacts FurtherSpec.

(** *** Strings and their characters *)

Lemma chars_str l : Js.chars (Js.str l) = l.
Proof. apply list_ascii_of_string_of_list_ascii. Qed.

Lemma str_chars s : Js.str (Js.chars s) = s.
Proof. apply string_of_list_ascii_of_string. Qed.

Lemma length_chars s : length (Js.chars s) = String.length s.
Proof. induction s as [|c s IH]; simpl; [done|]. by rewrite IH. Qed.

Lemma str_app l1 l2 : Js.str (l1 ++ l2) = Js.str l1 +:+ Js.str l2.
Proof. induction l1 as [|c l1 IH]; simpl; [done|]. by rewrite IH. Qed.

Lemma chars_app s1 s2 : Js.chars (s1 +:+ s2) = Js.chars s1 ++ Js.chars s2.
Proof. induction s1 as [|c s1 IH]; simpl; [done|]. by rewrite IH. Qed.

Lemma length_str l : String.length (Js.str l) = length l.
Proof. by rewrite <- length_chars, chars_str. Qed.

Lemma substring_slice s a b :
  a ≤ b → b ≤ String.length s →
  Js.substring s a b = slice (Js.chars s) a b.
Proof.
  intros Hab Hb. unfold Js.substring, slice. cbv zeta.
  rewrite (Nat.min_l a), (Nat.min_l b) by lia.
  by rewrite Nat.min_l, Nat.max_r by lia.
Qed.

Lemma elem_of_drop (x : ascii) n l : x ∈ drop n l → x ∈ l.
Proof.
  intros H. rewrite <- (take_drop n l). apply elem_of_app. by right.
Qed.

(** *** Patterns that need a character *)

Lemma existsb_eqb c cs : existsb (Ascii.eqb c) cs = true ↔ c ∈ cs.
Proof.
  rewrite existsb_exists, list_elem_of_In. split.
  - intros (d & Hd & E). apply Ascii.eqb_eq in E. by subst.
  - intros H. exists c. split; [done|apply Ascii.eqb_refl].
Qed.

Lemma rmatch_requires cs r :
  requires cs r = true →
  ∀ st k res, rmatch r st k = Some res → ∃ c, c ∈ cs ∧ c ∈ rest st.
Proof.
  induction r as [ |c| |neg items| | |r1 IH1 r2 IH2|r1 IH1 r2 IH2
                  |greedy r IH|greedy r IH|i r IH]; simpl; try done;
    intros Hr st k res H.
  - unfold read in H. destruct (rest st) as [|d l] eqn:E; [done|].
    destruct (Ascii.eqb c d) eqn:Ed; [|done]. apply Ascii.eqb_eq in Ed as <-.
    exists c. split; [by apply existsb_eqb|]. by left.
  - destruct (requires cs r1) eqn:E1; [by eapply IH1|].
    apply rmatch_sound in H as (st1 & [_ _ R _] & H).
    destruct (IH2 Hr _ _ _ H) as (c & Hc & Hin). exists c. split; [done|].
    rewrite R in Hin. by eapply elem_of_drop.
  - apply andb_prop in Hr as [H1 H2].
    apply rmatch_alt in H as [H|[_ H]]; [by eapply IH1|by eapply IH2].
  - by eapply IH.
Qed.

(** A text without any of the characters a pattern needs has no match. *)
Lemma search_requires cs r suffix start :
  requires cs r = true → (∀ c, c ∈ cs → c ∉ suffix) →
  search r suffix start = None.
Proof.
  intros Hr. revert start. induction suffix as [|d suffix IH];
    intros start Hno; simpl.
  - destruct (match_at r [] start) eqn:E; [|done].
    apply (rmatch_requires cs r Hr) in E as (c & Hc & Hin).
    by apply Hno in Hc.
  - destruct (match_at r (d :: suffix) start) eqn:E.
    + apply (rmatch_requires cs r Hr) in E as (c & Hc & Hin).
      by apply Hno in Hc.
    + apply IH. intros c Hc Hin. apply (Hno c Hc). by right.
Qed.

Lemma all_matches_requires cs r input :
  requires cs r = true → (∀ c, c ∈ cs → c ∉ input) →
  all_matches r input = [].
Proof.
  intros Hr Hno. unfold all_matches. rewrite all_from_S, exec_0.
  by rewrite (search_requires cs).
Qed.

Lemma matchAll_requires cs r s :
  requires cs r = true → (∀ c, c ∈ cs → c ∉ Js.chars s) →
  matchAll r s = [].
Proof.
  intros Hr Hno. unfold matchAll. by rewrite (all_matches_requires cs).
Qed.

Lemma replace_requires cs r s by_ :
  requires cs r = true → (∀ c, c ∈ cs → c ∉ Js.chars s) →
  replace r s by_ = s.
Proof.
  intros Hr Hno. unfold replace. rewrite (all_matches_requires cs) by done.
  simpl. apply str_chars.
Qed.

Lemma split_from_requires cs r input n p q :
  requires cs r = true → (∀ c, c ∈ cs → c ∉ input) →
  split_from n r input p q = [slice input p (length input)].
Proof.
  intros Hr Hno. revert q. induction n as [|n IH]; intros q; simpl; [done|].
  destruct (length input <=? q); [done|].
  destruct (match_at r (drop q input) q) eqn:E; [|apply IH].
  apply (rmatch_requires cs r Hr) in E as (c & Hc & Hin). simpl in Hin.
  apply elem_of_drop in Hin. by apply Hno in Hc.
Qed.

Lemma split_requires cs r s :
  requires cs r = true → (∀ c, c ∈ cs → c ∉ Js.chars s) →
  split r s = [s].
Proof.
  intros Hr Hno. unfold split.
  destruct (Js.chars s) as [|c l] eqn:E.
  - destruct (match_at r [] 0) eqn:Em; [|done].
    apply (rmatch_requires cs r Hr) in Em as (c & Hc & Hin).
    simpl in Hin. by apply not_elem_of_nil in Hin.
  - rewrite (split_from_requires cs) by done. unfold slice.
    rewrite Nat.sub_0_r, drop_0, firstn_all. by rewrite <- E, str_chars.
Qed.

(** *** The matches of a global pattern, one after the other *)

Lemma length_slice input a b :
  a ≤ b → b ≤ length input → String.length (slice input a b) = b - a.
Proof.
  intros Hab Hb. unfold slice.
  rewrite length_str, length_take, length_drop. lia.
Qed.

Lemma matched_match_array n input s st :
  matched (match_array n input s st) = slice input s (pos st).
Proof. reflexivity. Qed.

Lemma match_at_bounds r input s st :
  s ≤ length input → match_at r (drop s input) s = Some st →
  s ≤ pos st ∧ pos st ≤ length input.
Proof.
  intros Hs H. apply match_at_advances in H as [P L _ _]. simpl in *.
  rewrite length_drop in L. lia.
Qed.

Lemma after_match_array n r input s st :
  s ≤ length input → match_at r (drop s input) s = Some st →
  after (match_array n input s st) = pos st.
Proof.
  intros Hs H. destruct (match_at_bounds _ _ _ _ Hs H) as [A B].
  unfold after. rewrite matched_match_array, length_slice by done.
  simpl. lia.
Qed.

Lemma take_drop_middle (l : list ascii) p s :
  p ≤ s → take (s - p) (drop p l) ++ drop s l = drop p l.
Proof.
  intros Hps. replace s with (p + (s - p)) at 2 by lia.
  rewrite <- drop_drop. apply take_drop.
Qed.

Lemma all_from_in_order r input n :
  ∀ lastIndex p, p ≤ lastIndex →
    in_order (length input)
      (map (λ '(start, st), match_array (length (groups r)) input start st)
           (all_from n r input lastIndex)) p.
Proof.
  induction n as [|n IH]; intros lastIndex p Hp; [done|].
  rewrite all_from_S. destruct (exec r input lastIndex) as [[s st]|] eqn:E;
    [|done].
  apply exec_spec in E as (A & B & H). cbn [map in_order].
  rewrite (after_match_array _ r) by done.
  destruct (match_at_bounds _ _ _ _ B H) as [C D]. simpl.
  split; [lia|]. split; [done|]. apply IH.
  destruct (pos st =? s); lia.
Qed.

Lemma all_from_covered r line n :
  ∀ lastIndex p, p ≤ lastIndex →
    covered line
      (map (λ '(start, st),
              match_array (length (groups r)) (Js.chars line) start st)
           (all_from n r (Js.chars line) lastIndex)) p
    = Js.substring_from line p.
Proof.
  induction n as [|n IH]; intros lastIndex p Hp; [done|].
  rewrite all_from_S.
  destruct (exec r (Js.chars line) lastIndex) as [[s st]|] eqn:E; [|done].
  apply exec_spec in E as (A & B & H). cbn [map covered].
  rewrite (after_match_array _ r) by done.
  destruct (match_at_bounds _ _ _ _ B H) as [C D].
  rewrite (IH _ (pos st)) by (destruct (pos st =? s); lia).
  rewrite matched_match_array.
  change (index (match_array _ _ s st)) with s.
  rewrite length_chars in B, D.
  rewrite substring_slice by lia. unfold slice, Js.substring_from.
  rewrite <- !str_app. f_equal.
  rewrite (take_drop_middle _ s) by done. apply take_drop_middle. lia.
Qed.

(** *** Texts without some characters *)

Lemma free_of_spec cs s :
  free_of cs s = true ↔ ∀ c, c ∈ cs → c ∉ Js.chars s.
Proof.
  unfold free_of. rewrite forallb_forall. split.
  - intros H c Hc Hin. apply list_elem_of_In, H in Hin.
    apply negb_true_iff in Hin. apply existsb_eqb in Hc. congruence.
  - intros H c Hin. apply negb_true_iff.
    destruct (existsb (Ascii.eqb c) cs) eqn:E; [|done].
    apply existsb_eqb in E. exfalso. apply (H c E). by apply list_elem_of_In.
Qed.

Lemma free_of_subseteq cs cs' s :
  cs' ⊆ cs → free_of cs s = true → free_of cs' s = true.
Proof.
  rewrite !free_of_spec. intros Hsub H c Hc. apply H. by apply Hsub.
Qed.

Lemma free_of_app cs s1 s2 :
  free_of cs (s1 +:+ s2) = free_of cs s1 && free_of cs s2.
Proof. unfold free_of. by rewrite chars_app, forallb_app. Qed.

Lemma free_of_joined cs lines :
  free_of cs LF = true → Forall (λ l, free_of cs l = true) lines →
  free_of cs (joined lines) = true.
Proof.
  intros HLF. induction 1 as [|l ls Hl _ IH]; [done|].
  destruct ls as [|l2 ls]; [done|].
  change (joined (l :: l2 :: ls)) with (l +:+ LF +:+ joined (l2 :: ls)).
  by rewrite !free_of_app, Hl, HLF, IH.
Qed.

(** *** Splitting into lines *)

Lemma newline_none c l q :
  c ≠ "013"%char → c ≠ "010"%char →
  match_at Tokens.newline (c :: l) q = None.
Proof.
  intros H13 H10. apply Ascii.eqb_neq in H13, H10.
  rewrite Ascii.eqb_sym in H13. rewrite Ascii.eqb_sym in H10.
  unfold match_at, Tokens.newline. cbn [rmatch]. unfold read.
  cbn [rest clear]. by rewrite H13, H10.
Qed.

Lemma newline_LF l q :
  match_at Tokens.newline ("010"%char :: l) q = Some (MState l (S q) ∅).
Proof. reflexivity. Qed.

Lemma split_from_skip r (pre l post : list ascii) n :
  (∀ c, c ∈ l → ∀ rest q, match_at r (c :: rest) q = None) →
  ∀ k j, j + k = length l →
    split_from (k + n) r (pre ++ l ++ post) (length pre) (length pre + j)
    = split_from n r (pre ++ l ++ post) (length pre) (length pre + length l).
Proof.
  intros Hno. induction k as [|k IH]; intros j Hj.
  - by replace j with (length l) by lia.
  - change (S k + n) with (S (k + n)). rewrite split_from_S.
    replace (length (pre ++ l ++ post) <=? length pre + j) with false
      by (symmetry; apply Nat.leb_gt; rewrite !List.length_app; lia).
    rewrite drop_app_add, drop_app_le by lia.
    destruct (drop j l) as [|c l'] eqn:E.
    { apply (f_equal length) in E. rewrite length_drop in E. simpl in E. lia. }
    cbn [app]. rewrite Hno.
    + replace (S (length pre + j)) with (length pre + S j) by lia.
      apply IH. lia.
    + apply (elem_of_drop c j). rewrite E. by left.
Qed.

Lemma slice_middle (pre l post : list ascii) :
  slice (pre ++ l ++ post) (length pre) (length pre + length l) = Js.str l.
Proof.
  unfold slice. rewrite drop_app_length.
  replace (length pre + length l - length pre) with (length l) by lia.
  by rewrite take_app_length.
Qed.

Lemma clean_line l :
  free_of terminators l = true →
  ∀ c, c ∈ Js.chars l → ∀ rest q, match_at Tokens.newline (c :: rest) q = None.
Proof.
  rewrite free_of_spec. intros H c Hc rest q. apply newline_none.
  - intros ->. apply (H "013"%char); [by left|done].
  - intros ->. apply (H "010"%char); [by right; left|done].
Qed.

Lemma split_from_line r input (pre l post : list ascii) n m :
  input = pre ++ l ++ post → m = length l + n →
  (∀ c, c ∈ l → ∀ rest q, match_at r (c :: rest) q = None) →
  split_from m r input (length pre) (length pre)
  = split_from n r input (length pre) (length pre + length l).
Proof.
  intros -> -> Hno. rewrite <- (Nat.add_0_r (length pre)) at 2.
  by apply split_from_skip.
Qed.

Lemma split_from_end r input p n :
  split_from n r input p (length input) = [slice input p (length input)].
Proof. destruct n; simpl; [done|]. by rewrite Nat.leb_refl. Qed.

Lemma slice_end (pre l : list ascii) :
  slice (pre ++ l) (length pre) (length (pre ++ l)) = Js.str l.
Proof.
  rewrite <- (app_nil_r l) at 1. rewrite List.length_app.
  apply slice_middle.
Qed.

Lemma split_from_joined lines :
  lines ≠ [] → Forall (λ l, free_of terminators l = true) lines →
  ∀ pre n, String.length (joined lines) < n →
    split_from n Tokens.newline (pre ++ Js.chars (joined lines))
      (length pre) (length pre)
    = lines.
Proof.
  intros Hne F. induction F as [|l ls Hl F IH]; [done|]. clear Hne.
  intros pre n Hn. destruct ls as [|l2 ls].
  - cbn [joined] in *. rewrite <- length_chars in Hn.
    rewrite (split_from_line _ _ pre (Js.chars l) []
               (n - length (Js.chars l)))
      by (by rewrite app_nil_r || lia || by apply clean_line).
    rewrite <- List.length_app, split_from_end, slice_end.
    by rewrite str_chars.
  - change (joined (l :: l2 :: ls)) with (l +:+ LF +:+ joined (l2 :: ls)) in *.
    set (tl := joined (l2 :: ls)) in *.
    assert (Hlen : String.length (l +:+ LF +:+ tl)
                   = length (Js.chars l) + S (String.length tl)).
    { rewrite <- !length_chars, !chars_app, !List.length_app. done. }
    rewrite Hlen in Hn. rewrite !chars_app.
    change (Js.chars LF) with ["010"%char].
    destruct (n - length (Js.chars l)) as [|m] eqn:Em; [lia|].
    rewrite (split_from_line _ _ pre (Js.chars l)
               (["010"%char] ++ Js.chars tl) (S m))
      by (done || lia || by apply clean_line).
    rewrite split_from_S.
    replace (length (pre ++ Js.chars l ++ ["010"%char] ++ Js.chars tl)
             <=? length pre + length (Js.chars l)) with false
      by (symmetry; apply Nat.leb_gt; rewrite !List.length_app; simpl; lia).
    rewrite slice_middle, str_chars.
    rewrite (app_assoc pre), <- List.length_app, drop_app_length.
    cbn [app]. rewrite newline_LF. cbv zeta. cbn [pos].
    rewrite Nat.min_l by (rewrite !List.length_app; simpl; lia).
    replace (S (length (pre ++ Js.chars l)) =? length pre) with false
      by (symmetry; apply Nat.eqb_neq; rewrite List.length_app; lia).
    f_equal.
    replace ((pre ++ Js.chars l) ++ "010"%char :: Js.chars tl)
      with ((pre ++ Js.chars l ++ ["010"%char]) ++ Js.chars tl)
      by (by rewrite <- !app_assoc).
    replace (S (length (pre ++ Js.chars l)))
      with (length (pre ++ Js.chars l ++ ["010"%char]))
      by (rewrite !List.length_app; simpl; lia).
    apply IH; [done|lia].
Qed.

Lemma split_joined lines :
  lines ≠ [] → Forall (λ l, free_of terminators l = true) lines →
  split Tokens.newline (joined lines) = lines.
Proof.
  intros Hne F. unfold split.
  destruct (Js.chars (joined lines)) as [|c l] eqn:E.
  - assert (joined lines = "") as E'.
    { by rewrite <- (str_chars (joined lines)), E. }
    rewrite E'. destruct lines as [|l1 [|l2 ls]]; [done| |].
    + simpl in E'. by rewrite E'.
    + change (joined (l1 :: l2 :: ls))
        with (l1 +:+ LF +:+ joined (l2 :: ls)) in E.
      rewrite !chars_app in E. by destruct (Js.chars l1).
  - rewrite <- E.
    apply (split_from_joined lines Hne F []).
    rewrite <- length_chars. lia.
Qed.

(** *** Runs of the characters of a class *)

Lemma rmatch_char_then c b st k res :
  rmatch (Seq (Char c) b) st k = Some res →
  ∃ l, rest st = c :: l
       ∧ rmatch b (MState l (S (pos st)) (caps st)) k = Some res.
Proof.
  cbn [rmatch]. unfold read. destruct (rest st) as [|d l]; [done|].
  destruct (Ascii.eqb c d) eqn:E; [|done]. apply Ascii.eqb_eq in E as <-.
  intros H. by exists l.
Qed.


Lemma reads_refl (p : ascii → bool) (k : cont) (st res : mstate) :
  k st = Some res →
  ∃ st', advances [] st st'
         ∧ Forall (λ c, p c = true) (take (pos st' - pos st) (rest st))
         ∧ k st' = Some res.
Proof.
  intros H. exists st. split; [apply advances_refl|]. split; [|done].
  by rewrite Nat.sub_diag.
Qed.

Lemma reads_trans (p : ascii → bool) st st1 st2 :
  advances [] st st1 →
  Forall (λ c, p c = true) (take (pos st1 - pos st) (rest st)) →
  advances [] st1 st2 →
  Forall (λ c, p c = true) (take (pos st2 - pos st1) (rest st1)) →
  advances [] st st2
  ∧ Forall (λ c, p c = true) (take (pos st2 - pos st) (rest st)).
Proof.
  intros A1 F1 A2 F2. split.
  - by eapply advances_trans.
  - destruct A1 as [P1 _ R1 _], A2 as [P2 _ _ _]. rewrite R1 in F2.
    replace (pos st2 - pos st)
      with ((pos st1 - pos st) + (pos st2 - pos st1)) by lia.
    rewrite <- take_take_drop. by apply Forall_app.
Qed.

Lemma read_reads p : reads p (read p).
Proof.
  intros st k res. unfold read. destruct (rest st) as [|c l] eqn:R; [done|].
  destruct (p c) eqn:C; [|done]. intros H.
  exists (MState l (S (pos st)) (caps st)). split; [|split; [|done]].
  - replace (S (pos st) - pos st) with 1 by lia.
    constructor; cbn [pos rest caps]; rewrite ?R.
    + lia.
    + replace (S (pos st) - pos st) with 1 by lia. simpl. lia.
    + by replace (S (pos st) - pos st) with 1 by lia.
    + done.
  - simpl. replace (S (pos st) - pos st) with 1 by lia.
    simpl. by repeat constructor.
Qed.

Lemma clear_nil st : clear [] st = st.
Proof. by destruct st. Qed.

Lemma repeat_reads p once greedy k :
  reads p once →
  ∀ n st res, repeat once [] greedy k n st = Some res →
    ∃ st', advances [] st st'
           ∧ Forall (λ c, p c = true) (take (pos st' - pos st) (rest st))
           ∧ k st' = Some res.
Proof.
  intros Honce n. induction n as [|n IH]; intros st res; cbn [repeat].
  { apply reads_refl. }
  rewrite clear_nil.
  assert (Hagain : once st (progress st (repeat once [] greedy k n))
                   = Some res →
                   ∃ st', advances [] st st'
                          ∧ Forall (λ c, p c = true)
                              (take (pos st' - pos st) (rest st))
                          ∧ k st' = Some res).
  { intros H. apply Honce in H as (st1 & A1 & F1 & H1).
    unfold progress in H1. destruct (pos st1 =? pos st); [done|].
    apply IH in H1 as (st2 & A2 & F2 & H2). exists st2.
    destruct (reads_trans p st st1 st2 A1 F1 A2 F2) as [A F]. done. }
  destruct greedy.
  - destruct (once _ _) as [s|] eqn:E; [|apply reads_refl].
    intros [= ->]. by apply Hagain.
  - destruct (k st) as [s|] eqn:E; [|apply Hagain].
    intros [= ->]. by apply (reads_refl p k).
Qed.

Lemma plus_class_reads g neg items :
  reads (class_matches neg items)
        (rmatch (Seq (Class neg items) (Star g (Class neg items)))).
Proof.
  intros st k res. cbn [rmatch groups]. intros H.
  apply read_reads in H as (st1 & A1 & F1 & H).
  apply (repeat_reads (class_matches neg items)) in H
    as (st2 & A2 & F2 & H); [|apply read_reads].
  exists st2. destruct (reads_trans _ st st1 st2 A1 F1 A2 F2) as [A F]. done.
Qed.

(** The capture of a group that is a run of a class: every character of it
    is of the class. *)
Lemma group_run i g neg items st k res :
  rmatch (Group i (Seq (Class neg items) (Star g (Class neg items)))) st k
  = Some res →
  ∃ st', advances [] st st'
         ∧ Forall (λ c, class_matches neg items c = true)
             (take (pos st' - pos st) (rest st))
         ∧ k (set_cap i (pos st) (pos st') st') = Some res.
Proof.
  change (rmatch (Group i ?r) st k)
    with (rmatch r st (λ st', k (set_cap i (pos st) (pos st') st'))).
  apply plus_class_reads.
Qed.

Lemma char_group_run c i g neg items b suffix s res :
  rmatch (Seq (Char c)
            (Seq (Group i (Seq (Class neg items) (Star g (Class neg items))))
                 b))
    (MState suffix s ∅) Some = Some res →
  i ∉ groups b →
  ∃ e, caps res !! i = Some (S s, e)
       ∧ Forall (λ c, class_matches neg items c = true)
           (take (e - S s) (drop 1 suffix)).
Proof.
  intros H Hi. apply rmatch_char_then in H as (l & R & H).
  cbn [rest pos caps] in *. subst suffix.
  change (rmatch (Seq ?a ?b) ?st Some)
    with (rmatch a st (λ st', rmatch b st' Some)) in H.
  apply group_run in H as (st1 & A1 & F1 & H). cbn [pos rest] in *.
  apply rmatch_sound in H as (st2 & [_ _ _ C] & [= ->]).
  exists (pos st1). split; [|done].
  rewrite C by done. cbn. by rewrite lookup_insert_eq.
Qed.

Lemma char_group_run_last c i g neg items suffix s res :
  rmatch (Seq (Char c)
            (Group i (Seq (Class neg items) (Star g (Class neg items)))))
    (MState suffix s ∅) Some = Some res →
  ∃ e, caps res !! i = Some (S s, e)
       ∧ Forall (λ c, class_matches neg items c = true)
           (take (e - S s) (drop 1 suffix)).
Proof.
  intros H. apply rmatch_char_then in H as (l & R & H).
  cbn [rest pos caps] in *. subst suffix.
  apply group_run in H as (st1 & A1 & F1 & [= <-]). cbn [pos rest] in *.
  exists (pos st1). split; [|done]. cbn. by rewrite lookup_insert_eq.
Qed.

(** *** Walking a pattern over a text *)

Lemma rmatch_begins cs r :
  begins cs r = true →
  ∀ st k, (∀ c l, rest st = c :: l → c ∉ cs) → rmatch r st k = None.
Proof.
  induction r as [ |c| |neg items| | |r1 IH1 r2 IH2|r1 IH1 r2 IH2
                  |greedy r IH|greedy r IH|i r IH]; try done;
    intros Hb st k Hno.
  - cbn [rmatch]. unfold read. destruct (rest st) as [|d l] eqn:R; [done|].
    destruct (Ascii.eqb_spec c d) as [<-|_]; [|done].
    exfalso. apply (Hno c l eq_refl). by apply existsb_eqb.
  - change (rmatch r1 st (λ st', rmatch r2 st' k) = None).
    destruct r1; try discriminate Hb;
      try (apply IH1; [exact Hb|exact Hno]).
    cbn [rmatch]. destruct (pos st =? 0); [|done]. by apply IH2.
  - cbn [begins] in Hb. apply andb_prop in Hb as [H1 H2].
    cbn [rmatch]. by rewrite IH1, IH2.
  - cbn [rmatch]. by apply IH.
Qed.

Lemma match_at_begins cs r c l s :
  begins cs r = true → c ∉ cs → match_at r (c :: l) s = None.
Proof.
  intros Hb Hc. apply (rmatch_begins cs r Hb).
  by intros d l' [= <- <-].
Qed.

Lemma search_skip cs r pre l :
  begins cs r = true → (∀ c, c ∈ pre → c ∉ cs) →
  ∀ s, search r (pre ++ l) s = search r l (s + length pre).
Proof.
  intros Hb. induction pre as [|c pre IH]; intros Hno s.
  - by rewrite Nat.add_0_r.
  - cbn [app search].
    rewrite (match_at_begins cs) by (done || apply Hno; by left).
    rewrite IH by (intros d Hd; apply Hno; by right).
    f_equal. simpl. lia.
Qed.

Lemma rmatch_char c l q cs b k :
  rmatch (Seq (Char c) b) (MState (c :: l) q cs) k
  = rmatch b (MState l (S q) cs) k.
Proof. cbn [rmatch]. unfold read. cbn. by rewrite Ascii.eqb_refl. Qed.

(** A lazy run stops at the first place where what follows matches. *)
Lemma lazy_run (p : ascii → bool) (once : mstate → cont → option mstate)
  (k : cont) res :
  (∀ st k, once st k = read p st k) →
  ∀ l1 l2 q cs n,
    Forall (λ c, p c = true) l1 → length l1 ≤ n →
    (∀ i, i < length l1 → k (MState (drop i l1 ++ l2) (q + i) cs) = None) →
    k (MState l2 (q + length l1) cs) = Some res →
    repeat once [] false k n (MState (l1 ++ l2) q cs) = Some res.
Proof.
  intros Honce. induction l1 as [|c l1 IH]; intros l2 q cs n F Hn Hfail Hk.
  - simpl in Hk. rewrite Nat.add_0_r in Hk.
    destruct n; cbn [repeat app]; by rewrite Hk.
  - destruct n as [|n]; [simpl in Hn; lia|]. cbn [repeat].
    pose proof (Hfail 0 ltac:(simpl; lia)) as H0.
    rewrite Nat.add_0_r in H0. cbn [drop] in H0. rewrite H0.
    rewrite Honce. unfold read. cbn [clear rest pos caps foldr app].
    apply Forall_cons_1 in F as [Hc F]. rewrite Hc.
    unfold progress. cbn [pos].
    replace (S q =? q) with false by (symmetry; apply Nat.eqb_neq; lia).
    apply IH; [done|simpl in Hn; lia| |].
    + intros i Hi. specialize (Hfail (S i) ltac:(simpl; lia)).
      cbn [drop] in Hfail. by replace (S q + i) with (q + S i) by lia.
    + by replace (S q + length l1) with (q + length (c :: l1))
        by (simpl; lia).
Qed.

(** A greedy run goes on as long as it can. *)
Lemma greedy_run (p : ascii → bool) (once : mstate → cont → option mstate)
  (k : cont) res :
  (∀ st k, once st k = read p st k) →
  ∀ l1 l2 q cs n,
    Forall (λ c, p c = true) l1 → length l1 ≤ n →
    (∀ c l, l2 = c :: l → p c = false) →
    k (MState l2 (q + length l1) cs) = Some res →
    repeat once [] true k n (MState (l1 ++ l2) q cs) = Some res.
Proof.
  intros Honce. induction l1 as [|c l1 IH]; intros l2 q cs n F Hn Hstop Hk.
  - simpl in Hk. rewrite Nat.add_0_r in Hk.
    destruct n; cbn [repeat app]; [done|].
    rewrite Honce. unfold read. cbn [clear rest pos caps foldr].
    destruct l2 as [|c l]; [done|]. by rewrite (Hstop c l eq_refl).
  - destruct n as [|n]; [simpl in Hn; lia|]. cbn [repeat].
    rewrite Honce. unfold read. cbn [clear rest pos caps foldr app].
    apply Forall_cons_1 in F as [Hc F]. rewrite Hc.
    unfold progress. cbn [pos].
    replace (S q =? q) with false by (symmetry; apply Nat.eqb_neq; lia).
    rewrite (IH l2 (S q) cs n); [done|done|simpl in Hn; lia|done|].
    by replace (S q + length l1) with (q + length (c :: l1))
      by (simpl; lia).
Qed.

(** The two atoms that the tokens repeat: a class and the dot. *)
Lemma atom_class neg items st k :
  rmatch (Class neg items) st k = read (class_matches neg items) st k.
Proof. reflexivity. Qed.

Lemma atom_dot st k :
  rmatch Dot st k = read (λ c, negb (Js.is_line_terminator c)) st k.
Proof. reflexivity. Qed.

Section Runs.
Variables (r : regex) (p : ascii → bool).
Hypothesis atom : ∀ st k, rmatch r st k = read p st k.
Hypothesis no_group : groups r = [].

Lemma star_lazy_run (k : cont) res l1 l2 q cs :
  Forall (λ c, p c = true) l1 →
  (∀ i, i < length l1 → k (MState (drop i l1 ++ l2) (q + i) cs) = None) →
  k (MState l2 (q + length l1) cs) = Some res →
  rmatch (Star false r) (MState (l1 ++ l2) q cs) k = Some res.
Proof.
  intros F Hfail Hk. cbn [rmatch rest]. rewrite no_group.
  apply (lazy_run p); try done.
  rewrite List.length_app. lia.
Qed.

Lemma plus_lazy_run (k : cont) res l1 l2 q cs :
  l1 ≠ [] → Forall (λ c, p c = true) l1 →
  (∀ i, 1 ≤ i < length l1 →
        k (MState (drop i l1 ++ l2) (q + i) cs) = None) →
  k (MState l2 (q + length l1) cs) = Some res →
  rmatch (Seq r (Star false r)) (MState (l1 ++ l2) q cs) k = Some res.
Proof.
  intros Hne F Hfail Hk. destruct l1 as [|c l1]; [done|].
  apply Forall_cons_1 in F as [Hc F].
  change (rmatch (Seq ?a ?b) ?st k)
    with (rmatch a st (λ st', rmatch b st' k)).
  rewrite atom. unfold read. cbn [rest app pos caps]. rewrite Hc.
  apply star_lazy_run; [done| |].
  - intros i Hi. specialize (Hfail (S i) ltac:(simpl; lia)).
    cbn [drop] in Hfail. by replace (S q + i) with (q + S i) by lia.
  - by replace (S q + length l1) with (q + length (c :: l1))
      by (simpl; lia).
Qed.

Lemma star_greedy_run (k : cont) res l1 l2 q cs :
  Forall (λ c, p c = true) l1 →
  (∀ c l, l2 = c :: l → p c = false) →
  k (MState l2 (q + length l1) cs) = Some res →
  rmatch (Star true r) (MState (l1 ++ l2) q cs) k = Some res.
Proof.
  intros F Hstop Hk. cbn [rmatch rest]. rewrite no_group.
  apply (greedy_run p); try done.
  rewrite List.length_app. lia.
Qed.

Lemma plus_greedy_run (k : cont) res l1 l2 q cs :
  l1 ≠ [] → Forall (λ c, p c = true) l1 →
  (∀ c l, l2 = c :: l → p c = false) →
  k (MState l2 (q + length l1) cs) = Some res →
  rmatch (Seq r (Star true r)) (MState (l1 ++ l2) q cs) k = Some res.
Proof.
  intros Hne F Hstop Hk. destruct l1 as [|c l1]; [done|].
  apply Forall_cons_1 in F as [Hc F].
  change (rmatch (Seq ?a ?b) ?st k)
    with (rmatch a st (λ st', rmatch b st' k)).
  rewrite atom. unfold read. cbn [rest app pos caps]. rewrite Hc.
  cbn [rmatch rest]. rewrite no_group.
  apply (greedy_run p); try done.
  - rewrite List.length_app. lia.
  - by replace (S q + length l1) with (q + length (c :: l1))
      by (simpl; lia).
Qed.

End Runs.

(** An optional part that does not match is passed over. *)
Lemma opt_passed cs r (k : cont) st :
  begins cs r = true → (∀ c l, rest st = c :: l → c ∉ cs) →
  rmatch (Opt true r) st k = k st.
Proof.
  intros Hb Hno. cbn [rmatch]. by rewrite (rmatch_begins cs r Hb).
Qed.

Lemma opt_taken r st (k : cont) res :
  rmatch r (clear (groups r) st) (progress st k) = Some res →
  rmatch (Opt true r) st k = Some res.
Proof. cbn [rmatch]. by intros ->. Qed.

Lemma progress_moved st (k : cont) st' :
  pos st' ≠ pos st → progress st k st' = k st'.
Proof.
  intros H. unfold progress.
  by replace (pos st' =? pos st) with false by (symmetry; by apply Nat.eqb_neq).
Qed.

Lemma head_drop_app (l1 l2 : list ascii) i c l :
  i < length l1 → drop i l1 ++ l2 = c :: l → c ∈ l1.
Proof.
  intros Hi E. destruct (drop i l1) as [|d l'] eqn:D.
  - apply (f_equal length) in D. rewrite length_drop in D. simpl in D. lia.
  - injection E as <- _. apply (elem_of_drop d i). rewrite D. by left.
Qed.

(** The one match of a text that has a token between two texts without the
    characters that start a token. *)
Lemma all_matches_one cs r input pre tok post st :
  input = pre ++ tok ++ post →
  begins cs r = true → (∀ c, c ∈ pre → c ∉ cs) →
  match_at r (tok ++ post) (length pre) = Some st →
  pos st = length pre + length tok → tok ≠ [] →
  search r post (pos st) = None →
  all_matches r input = [(length pre, st)].
Proof.
  intros -> Hb Hpre Hm Hpos Hne Hpost. unfold all_matches.
  rewrite all_from_S, exec_0, (search_skip cs) by done. cbn [Nat.add].
  rewrite (search_here _ _ _ st) by done.
  replace (pos st =? length pre) with false
    by (symmetry; apply Nat.eqb_neq; destruct tok; [done|simpl in Hpos; lia]).
  cbv beta iota. rewrite all_from_S. unfold exec.
  replace (length (pre ++ tok ++ post) <? pos st) with false
    by (symmetry; apply Nat.ltb_ge; rewrite !List.length_app; lia).
  replace (drop (pos st) (pre ++ tok ++ post)) with post.
  - by rewrite Hpost.
  - rewrite Hpos, app_assoc, <- List.length_app. symmetry.
    apply drop_app_length.
Qed.

Lemma slice_at input (A l B : list ascii) a b :
  input = A ++ l ++ B → a = length A → b = a + length l →
  slice input a b = Js.str l.
Proof. intros -> -> ->. apply slice_middle. Qed.

End FurtherRegExpFacts.

Module NumFacts.
Import FurtherSpec FurtherRegExpFacts.

(** *** Rounding never gives NaN *)

Lemma iter_pos_inv {A} (P : A → Prop) (f : A → A) :
  (∀ x, P x → P (f x)) → ∀ p x, P x → P (SpecFloat.iter_pos f p x).
Proof.
  intros Hf. induction p as [p IH|p IH|]; intros x Hx; simpl; auto.
Qed.

Lemma shr_1_nonneg mrs : (0 ≤ shr_m mrs)%Z → (0 ≤ shr_m (shr_1 mrs))%Z.
Proof.
  destruct mrs as [m r s]. simpl. destruct m as [|[p|p|]|[p|p|]]; simpl; lia.
Qed.

Lemma shr_nonneg mrs e n :
  (0 ≤ shr_m mrs)%Z → (0 ≤ shr_m (fst (shr mrs e n)))%Z.
Proof.
  intros H. destruct n as [|p|p]; simpl; [done| |done].
  by apply (iter_pos_inv (λ x, (0 ≤ shr_m x)%Z)); [apply shr_1_nonneg|].
Qed.

Lemma shr_fexp_nonneg prec emax m e l :
  (0 ≤ m)%Z → (0 ≤ shr_m (fst (shr_fexp prec emax m e l)))%Z.
Proof.
  intros H. unfold shr_fexp. apply shr_nonneg.
  by destruct l as [|[| |]].
Qed.

Lemma round_nearest_even_nonneg m l :
  (0 ≤ m)%Z → (0 ≤ round_nearest_even m l)%Z.
Proof.
  intros H. destruct l as [|[| |]]; simpl; try lia.
  destruct (Z.even m); lia.
Qed.

Lemma binary_round_aux_not_nan prec emax sx mx ex lx :
  (0 ≤ mx)%Z → binary_round_aux prec emax sx mx ex lx ≠ S754_nan.
Proof.
  intros H. unfold binary_round_aux.
  pose proof (shr_fexp_nonneg prec emax mx ex lx H) as H1.
  destruct (shr_fexp prec emax mx ex lx) as [mrs' e'].
  pose proof (shr_fexp_nonneg prec emax
                (round_nearest_even (shr_m mrs') (loc_of_shr_record mrs'))
                e' loc_Exact
                (round_nearest_even_nonneg _ _ H1)) as H2.
  destruct (shr_fexp prec emax
              (round_nearest_even (shr_m mrs') (loc_of_shr_record mrs'))
              e' loc_Exact) as [mrs'' e''].
  simpl in H2. destruct (shr_m mrs'') as [|p|p]; [done| |lia].
  by destruct (e'' <=? emax - prec)%Z.
Qed.

Lemma binary_normalize_not_nan prec emax m e szero :
  binary_normalize prec emax m e szero ≠ S754_nan.
Proof.
  destruct m as [|p|p]; [done| |]; simpl; unfold binary_round;
    destruct (shl_align _ _ _) as [mz ez];
    by apply binary_round_aux_not_nan.
Qed.

Lemma of_Z_not_nan z : Num.isNaN (Num.of_Z z) = false.
Proof.
  unfold Num.of_Z.
  pose proof (binary_normalize_not_nan Num.prec Num.emax z 0 false) as H.
  by destruct (binary_normalize Num.prec Num.emax z 0 false).
Qed.

(** A quotient is NaN only when a part is NaN, or both are infinite, or
    both are zero. *)
Lemma div_nan x y :
  Num.isNaN (Num.div x y) = true →
  Num.isNaN x = true ∨ Num.isNaN y = true
  ∨ (∃ s1 s2, x = S754_infinity s1 ∧ y = S754_infinity s2)
  ∨ (∃ s1 s2, x = S754_zero s1 ∧ y = S754_zero s2).
Proof.
  intros H. unfold Num.div, SFdiv in H.
  destruct x as [sx|sx| |sx mx ex], y as [sy|sy| |sy my ey];
    cbv beta iota in H; try discriminate H;
    try (by left); try (by right; left);
    try (by right; right; left; eexists _, _);
    try (by right; right; right; eexists _, _).
  exfalso.
  destruct (SFdiv_core_binary _ _ _ _ _ _) as [[mz ez] lz] eqn:E.
  assert (Hmz : (0 ≤ mz)%Z).
  { unfold SFdiv_core_binary in E. cbv zeta in E.
    match type of E with
    | (let '(q, r) := Z.div_eucl ?a ?b in _) = _ =>
        pose proof (Z.div_pos a b) as Hq; unfold Z.div in Hq;
        destruct (Z.div_eucl a b) as [q r]; injection E as <- _ _;
        apply Hq; [|lia]
    end.
    match goal with |- (0 ≤ match ?s with _ => _ end)%Z => destruct s end;
      try lia.
    apply Z.shiftl_nonneg. lia. }
  pose proof (binary_round_aux_not_nan Num.prec Num.emax (xorb sx sy)
                mz ez lz Hmz) as N.
  by destruct (binary_round_aux _ _ _ _ _ _).
Qed.

(** *** Whole numbers in decimal digits *)

Lemma digit_of_digit c :
  is_digit c = true → Num.digit_of 10 c = Some (Js.code c - 48).
Proof.
  unfold is_digit, Num.digit_of. cbv zeta. intros H. rewrite H.
  apply andb_prop in H as [_ H]. apply Nat.leb_le in H.
  replace (Js.code c - 48 <? 10) with true; [done|].
  symmetry. apply Nat.ltb_lt. lia.
Qed.

Lemma digits_all ds :
  forallb is_digit ds = true →
  ∀ acc n, Num.digits 10 ds acc n
           = (foldl (λ acc c, (acc * 10 + Z.of_nat (Js.code c - 48))%Z) acc ds,
              n + length ds, []).
Proof.
  induction ds as [|c ds IH]; intros H acc n.
  - simpl. by rewrite Nat.add_0_r.
  - cbn [forallb] in H. apply andb_prop in H as [Hc H].
    cbn [Num.digits]. rewrite (digit_of_digit c Hc), (IH H).
    cbn [foldl length]. do 2 f_equal. lia.
Qed.

Lemma decimal_value_nonneg ds : (0 ≤ decimal_value ds)%Z.
Proof.
  assert (H : ∀ acc, (0 ≤ acc)%Z →
            (0 ≤ foldl (λ acc c, (acc * 10 + Z.of_nat (Js.code c - 48))%Z)
                   acc ds)%Z).
  { induction ds as [|c ds IH]; intros acc Hacc; [done|].
    cbn [foldl]. apply IH. lia. }
  by apply H.
Qed.

Lemma digit_not_space c : is_digit c = true → Js.is_space c = false.
Proof.
  unfold is_digit, Js.is_space, Js.is_white_space, Js.is_line_terminator.
  intros H. apply andb_prop in H as [H1 H2].
  apply Nat.leb_le in H1, H2.
  repeat match goal with
         | |- context [?a =? ?b] =>
             replace (a =? b) with false
               by (symmetry; apply Nat.eqb_neq; lia)
         end.
  done.
Qed.

Lemma digit_is_not c d : is_digit d = false → is_digit c = true → c ≠ d.
Proof. intros Hd Hc ->. congruence. Qed.

Lemma forallb_digit_rev ds :
  forallb is_digit ds = true → forallb is_digit (rev ds) = true.
Proof.
  rewrite !forallb_forall. intros H c Hc. apply H. by apply in_rev.
Qed.

Lemma trim_start_digits ds :
  forallb is_digit ds = true → Js.trim_start ds = ds.
Proof.
  destruct ds as [|c ds]; [done|]. cbn [forallb]. intros H.
  apply andb_prop in H as [Hc _]. simpl. by rewrite (digit_not_space c Hc).
Qed.

Lemma trim_digits ds :
  forallb is_digit ds = true → Js.trim_end (Js.trim_start ds) = ds.
Proof.
  intros H. rewrite (trim_start_digits ds H). unfold Js.trim_end.
  rewrite (trim_start_digits (rev ds)) by (by apply forallb_digit_rev).
  apply rev_involutive.
Qed.

Lemma split_chars_none sep l :
  (∀ c, c ∈ l → c ≠ sep) →
  ∀ cur, Js.split_chars sep l cur = [Js.str (rev cur ++ l)].
Proof.
  induction l as [|c l IH]; intros H cur; simpl.
  - by rewrite app_nil_r.
  - destruct (Ascii.eqb_spec c sep) as [->|_].
    + exfalso. by apply (H sep); [left|].
    + rewrite IH by (intros d Hd; apply H; by right).
      simpl. by rewrite <- app_assoc.
Qed.

Lemma radix_of_digit c : is_digit c = true → Num.radix_of c = None.
Proof.
  intros H. unfold Num.radix_of.
  repeat match goal with
         | |- context [Ascii.eqb c ?d] =>
             destruct (Ascii.eqb_spec c d) as [->|_]; [discriminate H|]
         end.
  done.
Qed.

Lemma non_decimal_digits ds :
  forallb is_digit ds = true → Num.non_decimal ds = None.
Proof.
  destruct ds as [|c [|c2 ds]]; [done|done|]. cbn [forallb]. intros H.
  apply andb_prop in H as [_ H]. apply andb_prop in H as [H2 _].
  unfold Num.non_decimal. rewrite (radix_of_digit c2 H2).
  by destruct (Ascii.eqb c "0").
Qed.

Lemma Number_digits ds :
  ds ≠ [] → forallb is_digit ds = true →
  Num.Number (Some (Js.str ds)) = Num.of_Z (decimal_value ds).
Proof.
  intros Hne H. unfold Num.Number, Num.of_chars.
  rewrite chars_str, (trim_digits ds H).
  destruct ds as [|c ds'] eqn:Eds; [done|]. rewrite <- Eds in *.
  rewrite (non_decimal_digits ds H).
  assert (Hc : is_digit c = true).
  { rewrite Eds in H. cbn [forallb] in H. by apply andb_prop in H as [Hc _]. }
  destruct (Ascii.eqb_spec c "-") as [->|_]; [discriminate Hc|].
  destruct (Ascii.eqb_spec c "+") as [->|_]; [discriminate Hc|].
  unfold Num.unsigned_decimal.
  destruct (decide (ds = Js.chars "Infinity")) as [E|_].
  { rewrite E in H. discriminate H. }
  rewrite (digits_all ds H). fold (decimal_value ds). cbv beta iota zeta.
  replace (0 + length ds + 0 =? 0) with false
    by (symmetry; apply Nat.eqb_neq; rewrite Eds; simpl; lia).
  cbn [Num.exponent]. unfold Num.decimal, Num.of_Z.
  pose proof (decimal_value_nonneg ds) as Hv.
  destruct (decimal_value ds) as [|p|p]; [done| |lia].
  change (0 - Z.of_nat 0)%Z with 0%Z. change (0 <=? 0)%Z with true.
  cbv iota. by rewrite Z.pow_0_r, Z.mul_1_r.
Qed.

End NumFacts.

Module FurtherParserFacts.
Import RegExp RegExpSpec RegExpFacts Parser ParserSpec ParserFacts.
Import FurtherSpec FurtherRegExpFacts.

(** *** The step of a line *)

Lemma v_stepNumber_pushed v items :
  v_stepNumber (pushed v items) = v_stepNumber v.
Proof. reflexivity. Qed.

Lemma scan_items this line ms :
  Forall (λ m, is_metadata m = false) ms →
  ∀ v step pos,
    scan this line ms v step pos
    = Ok (Scanned (pushed v (items_from this (v_stepNumber v) line ms pos))
            (step ++ items_from this (v_stepNumber v) line ms pos)
            (end_from ms pos)).
Proof.
  induction 1 as [|m ms Hm _ IH]; intros v step pos; cbn [scan].
  - by rewrite pushed_nil, app_nil_r.
  - rewrite on_match_plain by done. cbn [mbind result_bind].
    rewrite IH, pushed_app, v_stepNumber_pushed. cbn [items_from end_from].
    by rewrite <- !app_assoc.
Qed.

(** A line that is not of the metadata form appends its step, when the step
    has items. *)
Lemma on_line_step this v line :
  (∀ m ms, matchAll Tokens.tokens line = m :: ms → is_metadata m = false) →
  on_line this v line
  = Ok (let step := step_of this (v_stepNumber v) line in
        if decide (step = []) then v else appended (pushed v step) step).
Proof.
  intros Hno. unfold on_line.
  assert (F : Forall (λ m, is_metadata m = false)
                (matchAll Tokens.tokens line)).
  { destruct (matchAll Tokens.tokens line) as [|m ms] eqn:E; [done|].
    constructor; [by eapply Hno|by eapply matchAll_tokens_tail]. }
  rewrite (scan_items this line _ F). cbn [mbind result_bind]. cbv zeta.
  unfold step_of. cbv zeta. cbn [app]. unfold rest_of.
  generalize (items_from this (v_stepNumber v) line
                (matchAll Tokens.tokens line) 0),
             (end_from (matchAll Tokens.tokens line) 0).
  intros items e. destruct (e <? String.length line).
  - replace (0 <? length (items ++ [Text (Js.substring_from line e)]))
      with true
      by (symmetry; apply Nat.ltb_lt; rewrite List.length_app; simpl; lia).
    unfold appended, pushed. cbn.
    rewrite ingredients_in_app, cookwares_in_app. cbn.
    rewrite !app_nil_r.
    case_decide as Hn; [by destruct items|done].
  - rewrite app_nil_r. destruct items as [|it items'].
    + rewrite pushed_nil. by case_decide.
    + by case_decide.
Qed.

(** *** Lines of plain text *)

Lemma requires_tokens : requires markup Tokens.tokens = true.
Proof. reflexivity. Qed.

Lemma substring_from_0 line : Js.substring_from line 0 = line.
Proof. unfold Js.substring_from. rewrite drop_0. apply str_chars. Qed.

Lemma on_line_text this v line :
  free_of markup line = true → line ≠ "" →
  on_line this v line = Ok (appended v [Text line]).
Proof.
  intros Hfree Hne. unfold on_line.
  rewrite (matchAll_requires markup) by
    (apply requires_tokens || by apply free_of_spec).
  cbn [scan mbind result_bind app]. rewrite substring_from_0.
  destruct line as [|c line]; [done|]. done.
Qed.

Lemma texts_nil v : texts v [] = v.
Proof. destruct v. unfold texts. cbn. by rewrite app_nil_r, Nat.add_0_r. Qed.

Lemma texts_cons v s ss : texts v (s :: ss) = texts (appended v s) ss.
Proof.
  unfold texts, appended. cbn. rewrite <- app_assoc. do 2 f_equal. lia.
Qed.

Lemma stepLoop_text this lines :
  Forall (λ l, free_of markup l = true ∧ l ≠ "") lines →
  ∀ v, stepLoop this lines v = Ok (texts v ((λ l, [Text l]) <$> lines)).
Proof.
  induction 1 as [|l ls [Hl Hne] _ IH]; intros v; cbn [stepLoop].
  - by rewrite texts_nil.
  - rewrite on_line_text by done. cbn [mbind result_bind].
    by rewrite IH, fmap_cons, texts_cons.
Qed.

Lemma trim_nil : Js.trim "" = "".
Proof. reflexivity. Qed.

(** *** Comments and lines of a text *)

Lemma no_hyphen source :
  free_of hyphen source = true → strip_comments source = source.
Proof.
  rewrite free_of_spec. intros H. unfold strip_comments.
  rewrite (replace_requires hyphen Tokens.comment) by done.
  by rewrite (replace_requires hyphen Tokens.blockComment).
Qed.

Lemma lines_joined lines :
  Forall (λ l, free_of terminators l = true) lines →
  lines_of (joined lines)
  = List.filter (λ l, 0 <? String.length (Js.trim l)) lines.
Proof.
  intros F. unfold lines_of. destruct lines as [|l ls]; [done|].
  by rewrite split_joined.
Qed.

(** [parse] over lines that have no hyphen and no line terminator. *)
Lemma parse_joined this lines :
  Forall (λ l, free_of (hyphen ++ terminators) l = true) lines →
  parse this (joined lines)
  = result_of
    <$> stepLoop this
          (List.filter (λ l, 0 <? String.length (Js.trim l)) lines) initial.
Proof.
  intros F. rewrite parse_eq.
  assert (Hsub : ∀ cs, cs ⊆ hyphen ++ terminators →
                       Forall (λ l, free_of cs l = true) lines).
  { intros cs Hcs. eapply Forall_impl; [exact F|].
    intros l. by apply free_of_subseteq. }
  assert (H2 : hyphen ⊆ hyphen ++ terminators)
    by (intros c Hc; rewrite !elem_of_app; auto).
  assert (H3 : terminators ⊆ hyphen ++ terminators)
    by (intros c Hc; rewrite !elem_of_app; auto).
  rewrite no_hyphen by (apply free_of_joined; [done|by apply Hsub]).
  rewrite lines_joined by (by apply Hsub).
  by destruct (stepLoop this _ initial).
Qed.

Lemma filter_filter {A} (f : A → bool) l :
  List.filter f (List.filter f l) = List.filter f l.
Proof.
  induction l as [|x l IH]; [done|]. simpl.
  destruct (f x) eqn:E; [|done]. simpl. by rewrite E, IH.
Qed.

Lemma Forall_filter {A} (P : A → Prop) (f : A → bool) l :
  Forall P l → Forall P (List.filter f l).
Proof.
  induction 1 as [|x l Hx _ IH]; [done|]. simpl.
  destruct (f x); [by constructor|done].
Qed.

(** *** The items of a step *)

Lemma truthy_ne s : Js.truthy s = true → s ≠ "".
Proof. by destruct s. Qed.

Lemma truthy_opt_default o :
  Js.truthy_opt o = true → default "" o ≠ "" ∧ o ≠ Some "".
Proof. by destruct o as [[|c s]|]. Qed.

Lemma truthy_opt_Some o :
  Js.truthy_opt o = true → ∃ s, o = Some s ∧ default "" o = s.
Proof. destruct o as [s|]; [|done]. intros _. by exists s. Qed.

Lemma parseQuantity_resolved d q : resolved d (default d (parseQuantity q)).
Proof.
  destruct q as [raw|]; [|by left].
  destruct (decide (Js.trim raw = "")) as [E|E].
  - apply parseQuantity_None in E. rewrite E. by left.
  - rewrite (parseQuantity_eq raw E). right.
    assert (T : trimmed (Js.trim raw)) by (split; [done|apply trim_idem]).
    repeat match goal with |- context [if ?b then _ else _] => destruct b end;
      done.
Qed.

Lemma parseUnits_trimmed d u :
  default d (parseUnits u) = d ∨ trimmed (default d (parseUnits u)).
Proof.
  destruct u as [u|]; [|by left]. unfold parseUnits.
  destruct (negb (Js.truthy u) || String.eqb (Js.trim u) "") eqn:E;
    [by left|].
  right. split; [|apply trim_idem]. simpl. intros Hu.
  apply blank_test in Hu. congruence.
Qed.

Lemma items_of_proper this n m : Forall (proper this) (items_of this n m).
Proof.
  unfold items_of, ingredients_of, cookwares_of, timers_of.
  rewrite !fmap_app, !Forall_app. split_and!.
  - destruct (Js.truthy_opt (at_index m 7)) eqn:E; [|constructor].
    apply truthy_opt_default in E as [E _].
    constructor; [|constructor]. cbn. split_and!; [done|done|by left|by left].
  - destruct (Js.truthy_opt (at_index m 3)) eqn:E; [|constructor].
    apply truthy_opt_default in E as [E _].
    constructor; [|constructor]. cbn.
    split_and!; [done| |apply parseQuantity_resolved|apply parseUnits_trimmed].
    destruct (Js.truthy_opt (at_index m 6)) eqn:E6; [|done].
    by apply truthy_opt_default in E6 as [_ E6].
  - destruct (Js.truthy_opt (at_index m 10)) eqn:E; [|constructor].
    apply truthy_opt_default in E as [E _].
    constructor; [|constructor]. cbn. split; [done|by left].
  - destruct (Js.truthy_opt (at_index m 8)) eqn:E; [|constructor].
    apply truthy_opt_default in E as [E _].
    constructor; [|constructor]. cbn.
    split; [done|apply parseQuantity_resolved].
  - destruct (Js.truthy_opt (at_index m 12)) eqn:E; [|constructor].
    constructor; [|constructor]. cbn.
    split; [apply parseQuantity_resolved|apply parseUnits_trimmed].
Qed.

Lemma substring_ne line a b :
  a < b → b ≤ String.length line → Js.substring line a b ≠ "".
Proof.
  intros Hab Hb. rewrite substring_slice by lia.
  apply truthy_ne, slice_truthy; [done|by rewrite length_chars].
Qed.

Lemma token_match_index line m :
  token_match (Js.chars line) m → index m ≤ String.length line.
Proof. intros (s & st & -> & B & _). by rewrite length_chars in B. Qed.

(** What holds of the texts that are not empty and of the items of every
    match holds of every item of every step. *)
Section Items.
Variable this : t.
Variable P : StepItem → Prop.
Hypothesis P_text : ∀ value, value ≠ "" → P (Text value).
Hypothesis P_items :
  ∀ line n m, token_match (Js.chars line) m → Forall P (items_of this n m).

Lemma gap_items line pos m :
  index m ≤ String.length line → Forall P (gap line pos m).
Proof.
  intros Hm. unfold gap. destruct (pos <? index m) eqn:E; [|constructor].
  apply Nat.ltb_lt in E. constructor; [|constructor].
  by apply P_text, substring_ne.
Qed.

Lemma rest_of_items line pos : Forall P (rest_of line pos).
Proof.
  unfold rest_of. destruct (pos <? String.length line) eqn:E; [|constructor].
  apply Nat.ltb_lt in E. constructor; [|constructor]. apply P_text.
  unfold Js.substring_from. intros H. apply (f_equal String.length) in H.
  rewrite length_str, length_drop, length_chars in H. simpl in H. lia.
Qed.

Lemma items_from_items n line ms :
  Forall (token_match (Js.chars line)) ms →
  ∀ pos, Forall P (items_from this n line ms pos).
Proof.
  induction 1 as [|m ms Hm _ IH]; intros pos; cbn [items_from]; [done|].
  rewrite !Forall_app. split; [|split].
  - by apply gap_items, token_match_index.
  - by eapply P_items.
  - apply IH.
Qed.

Lemma step_of_items n line : Forall P (step_of this n line).
Proof.
  unfold step_of. cbv zeta. apply Forall_app. split.
  - apply items_from_items, matchAll_tokens.
  - apply rest_of_items.
Qed.

Lemma on_line_items v line v' :
  Forall (Forall P) (v_steps v) → on_line this v line = Ok v' →
  Forall (Forall P) (v_steps v').
Proof.
  intros Hv. destruct (on_line_cases this v line)
    as [(m & ms & _ & _ & ->)|(step & Hno & _ & _)].
  - by intros [= <-].
  - rewrite (on_line_step _ _ _ Hno). cbv zeta. intros [= <-].
    case_decide; [done|]. cbn. apply Forall_app. split; [done|].
    constructor; [|done]. apply step_of_items.
Qed.

Lemma stepLoop_items lines :
  ∀ v v', Forall (Forall P) (v_steps v) → stepLoop this lines v = Ok v' →
          Forall (Forall P) (v_steps v').
Proof.
  induction lines as [|line lines IH]; intros v v' Hv; cbn [stepLoop].
  - by intros [= <-].
  - destruct (on_line this v line) as [v1|] eqn:E; [|done].
    cbn [mbind result_bind]. apply IH. by eapply on_line_items.
Qed.

Lemma flat_ingredients ss :
  Forall (Forall P) ss →
  Forall (λ i, P (AnIngredient i)) (concat (ingredients_in <$> ss)).
Proof.
  induction 1 as [|s ss Hs _ IH]; [done|]. rewrite fmap_cons. cbn [concat].
  apply Forall_app. split; [|done]. clear IH.
  induction Hs as [|it s Hit _ IH]; [done|].
  destruct it; cbn; try done. by constructor.
Qed.

Lemma flat_cookwares ss :
  Forall (Forall P) ss →
  Forall (λ c, P (ACookware c)) (concat (cookwares_in <$> ss)).
Proof.
  induction 1 as [|s ss Hs _ IH]; [done|]. rewrite fmap_cons. cbn [concat].
  apply Forall_app. split; [|done]. clear IH.
  induction Hs as [|it s Hit _ IH]; [done|].
  destruct it; cbn; try done. by constructor.
Qed.

(** The items of every step of the result, and those of its flat lists. *)
Lemma parse_items source :
  ∃ r, parse this source = Ok r
       ∧ Forall (Forall P) (steps r)
       ∧ Forall (λ i, P (AnIngredient i)) (ingredients r)
       ∧ Forall (λ c, P (ACookware c)) (cookwares r).
Proof.
  destruct (parse_well_formed this source) as (v & Hv & W & ->).
  eexists. split; [done|]. cbn.
  assert (F : Forall (Forall P) (v_steps v)).
  { eapply stepLoop_items; [|exact Hv]. constructor. }
  split; [done|]. destruct W as [-> -> _ _ _].
  split; [by apply flat_ingredients|by apply flat_cookwares].
Qed.

End Items.

(** *** The characters of a name *)

Lemma name_char_ok c :
  class_matches true [CChar "@"; CChar "#"; CChar "~"; CChar "["] c = true →
  negb (existsb (Ascii.eqb c) reserved) = true.
Proof.
  unfold class_matches, reserved. cbn [existsb item_matches].
  by destruct (Ascii.eqb c "@"), (Ascii.eqb c "#"), (Ascii.eqb c "~"),
       (Ascii.eqb c "[").
Qed.

Lemma word_char_ok c :
  class_matches true [CSpace; CChar "009"; CZs; CP] c = true →
  negb (existsb (Ascii.eqb c) reserved) = true.
Proof.
  unfold class_matches, reserved. cbn [existsb item_matches]. intros H.
  assert (HP : Js.is_P c = false).
  { destruct (Js.is_P c); [|done]. by rewrite !orb_true_r in H. }
  clear H.
  destruct (Ascii.eqb_spec c "@") as [->|_]; [discriminate HP|].
  destruct (Ascii.eqb_spec c "#") as [->|_]; [discriminate HP|].
  destruct (Ascii.eqb_spec c "[") as [->|_]; [discriminate HP|].
  done.
Qed.

Lemma free_of_slice input a e :
  Forall (λ c, negb (existsb (Ascii.eqb c) reserved) = true)
    (take (e - a) (drop a input)) →
  free_of reserved (slice input a e) = true.
Proof.
  intros F. unfold free_of, slice. rewrite chars_str.
  apply forallb_forall. intros c Hc. apply list_elem_of_In in Hc.
  by apply (proj1 (Forall_forall _ _) F).
Qed.

Ltac normal_form H :=
  match type of H with
  | rmatch ?r _ _ = _ =>
      let r' := eval vm_compute in r in change r with r' in H
  end.

Ltac no_capture H C :=
  exfalso; apply rmatch_sound in H as (? & [_ _ _ Hframe] & [= ->]);
  rewrite Hframe in C; [done|]; vm_compute groups;
  rewrite list_elem_of_In; simpl; lia.

Ltac run_of H C lem ok :=
  normal_form H; apply lem in H as (e' & C' & F);
  [rewrite C' in C; injection C as <- <-;
   rewrite drop_drop, Nat.add_1_r in F;
   eapply Forall_impl; [exact F|apply ok]
  |vm_compute groups; rewrite list_elem_of_In; simpl; lia ..].

(** In a match of the combined pattern, the name of an ingredient and the
    name of a cookware are runs of a class that leaves out the reserved
    characters. *)
Lemma token_names input m i name :
  token_match input m → i ∈ [3; 7; 8; 10] → at_index m i = Some name →
  free_of reserved name = true.
Proof.
  intros (s & st & -> & B & H) Hi Hn.
  assert (Hr : 1 ≤ i ≤ 13).
  { apply list_elem_of_In in Hi. simpl in Hi. lia. }
  rewrite at_index_match_array in Hn by done.
  destruct (caps st !! i) as [[a e]|] eqn:C; [|done].
  injection Hn as <-. apply free_of_slice.
  unfold match_at in H. rewrite tokens_alternatives in H.
  apply list_elem_of_In in Hi. simpl in Hi.
  apply rmatch_alt in H as [H|[_ H]]; [no_capture H C|].
  apply rmatch_alt in H as [H|[_ H]].
  { destruct (decide (i = 3)) as [->|]; [|no_capture H C].
    run_of H C char_group_run name_char_ok. }
  apply rmatch_alt in H as [H|[_ H]].
  { destruct (decide (i = 7)) as [->|]; [|no_capture H C].
    run_of H C char_group_run_last word_char_ok. }
  apply rmatch_alt in H as [H|[_ H]].
  { destruct (decide (i = 8)) as [->|]; [|no_capture H C].
    run_of H C char_group_run name_char_ok. }
  apply rmatch_alt in H as [H|[_ H]].
  { destruct (decide (i = 10)) as [->|]; [|no_capture H C].
    run_of H C char_group_run_last word_char_ok. }
  no_capture H C.
Qed.

Lemma items_of_well_named this n line m :
  token_match (Js.chars line) m → Forall well_named (items_of this n m).
Proof.
  intros T. unfold items_of, ingredients_of, cookwares_of, timers_of.
  assert (In3 : 3 ∈ [3; 7; 8; 10]) by (apply list_elem_of_In; simpl; tauto).
  assert (In7 : 7 ∈ [3; 7; 8; 10]) by (apply list_elem_of_In; simpl; tauto).
  assert (In8 : 8 ∈ [3; 7; 8; 10]) by (apply list_elem_of_In; simpl; tauto).
  assert (In10 : 10 ∈ [3; 7; 8; 10]) by (apply list_elem_of_In; simpl; tauto).
  rewrite !fmap_app, !Forall_app. split_and!.
  - destruct (Js.truthy_opt (at_index m 7)) eqn:E; [|constructor].
    apply truthy_opt_Some in E as (name & E & ->).
    constructor; [|constructor]. cbn [well_named Ingredient.name].
    exact (token_names _ m 7 name T In7 E).
  - destruct (Js.truthy_opt (at_index m 3)) eqn:E; [|constructor].
    apply truthy_opt_Some in E as (name & E & ->).
    constructor; [|constructor]. cbn [well_named Ingredient.name].
    exact (token_names _ m 3 name T In3 E).
  - destruct (Js.truthy_opt (at_index m 10)) eqn:E; [|constructor].
    apply truthy_opt_Some in E as (name & E & ->).
    constructor; [|constructor]. cbn [well_named Cookware.name].
    exact (token_names _ m 10 name T In10 E).
  - destruct (Js.truthy_opt (at_index m 8)) eqn:E; [|constructor].
    apply truthy_opt_Some in E as (name & E & ->).
    constructor; [|constructor]. cbn [well_named Cookware.name].
    exact (token_names _ m 8 name T In8 E).
  - destruct (Js.truthy_opt (at_index m 12)); repeat constructor.
Qed.

(** *** One text after another *)

Lemma stepField_later this k n :
  stepField this (k + n) = (λ n, k + n) <$> stepField this n.
Proof. unfold stepField. by destruct (includeStepNumber this). Qed.

Lemma items_of_later this k n m :
  items_of this (k + n) m = later k <$> items_of this n m.
Proof.
  unfold items_of, ingredients_of, cookwares_of, timers_of.
  rewrite !fmap_app, !stepField_later.
  repeat match goal with
         | |- context [if ?b then _ else _] => destruct b
         end; reflexivity.
Qed.

Lemma gap_later k line pos m : later k <$> gap line pos m = gap line pos m.
Proof. unfold gap. by destruct (pos <? index m). Qed.

Lemma items_from_later this k n line ms :
  ∀ pos, items_from this (k + n) line ms pos
         = later k <$> items_from this n line ms pos.
Proof.
  induction ms as [|m ms IH]; intros pos; cbn [items_from]; [done|].
  by rewrite !fmap_app, gap_later, items_of_later, IH.
Qed.

Lemma step_of_later this k n line :
  step_of this (k + n) line = later k <$> step_of this n line.
Proof.
  unfold step_of. cbv zeta. rewrite fmap_app, items_from_later.
  f_equal. unfold rest_of.
  by destruct (end_from (matchAll Tokens.tokens line) 0 <? String.length line).
Qed.

Lemma ingredients_in_later k s :
  ingredients_in (later k <$> s) = later_ingredient k <$> ingredients_in s.
Proof.
  unfold ingredients_in.
  induction s as [|it s IH]; [done|]. rewrite fmap_cons.
  destruct it; cbn [omap list_omap later]; rewrite IH; done.
Qed.

Lemma cookwares_in_later k s :
  cookwares_in (later k <$> s) = later_cookware k <$> cookwares_in s.
Proof.
  unfold cookwares_in.
  induction s as [|it s IH]; [done|]. rewrite fmap_cons.
  destruct it; cbn [omap list_omap later]; rewrite IH; done.
Qed.

Lemma on_line_after this v d line :
  on_line this (after_vars v d) line = after_vars v <$> on_line this d line.
Proof.
  destruct (on_line_cases this d line)
    as [(m & ms & E & Hm & ->)|(_ & Hno & _ & _)].
  - rewrite (on_line_entry _ _ line _ _ (first_metadata_entry _ _ _ E Hm)).
    cbn [fmap result_fmap]. f_equal. unfold recorded, after_vars.
    cbn [v_ingredients v_cookwares v_metadata v_steps v_stepNumber].
    by rewrite insert_union_l.
  - rewrite !(on_line_step _ _ _ Hno). cbv zeta. cbn [fmap result_fmap].
    f_equal.
    change (v_stepNumber (after_vars v d))
      with (v_stepNumber v + v_stepNumber d).
    rewrite step_of_later.
    generalize (step_of this (v_stepNumber d) line). intros step.
    destruct step as [|it step]; [by repeat case_decide|].
    repeat case_decide; try done.
    unfold appended, pushed, after_vars.
    cbn [v_ingredients v_cookwares v_metadata v_steps v_stepNumber].
    rewrite !fmap_app, ingredients_in_later, cookwares_in_later.
    rewrite <- !app_assoc. f_equal. lia.
Qed.

Lemma stepLoop_after this lines :
  ∀ v d, stepLoop this lines (after_vars v d)
         = after_vars v <$> stepLoop this lines d.
Proof.
  induction lines as [|line lines IH]; intros v d; cbn [stepLoop]; [done|].
  rewrite on_line_after.
  destruct (on_line this d line) as [d1|]; [|done].
  cbn [fmap result_fmap mbind result_bind]. apply IH.
Qed.

Lemma after_vars_initial v : after_vars v initial = v.
Proof.
  destruct v. unfold after_vars. cbn.
  by rewrite !app_nil_r, Nat.add_0_r, (left_id_L ∅ (∪)).
Qed.

Lemma stepLoop_app this l1 l2 v :
  stepLoop this (l1 ++ l2) v = stepLoop this l1 v ≫= stepLoop this l2.
Proof.
  revert v. induction l1 as [|line l1 IH]; intros v; [done|].
  cbn [app stepLoop]. destruct (on_line this v line) as [v1|]; [|done].
  cbn [mbind result_bind]. apply IH.
Qed.

(** The step loop over the lines of one text and then of another, from the
    loops over each. *)
Lemma stepLoop_two this l1 l2 :
  ∃ v1 v2, stepLoop this l1 initial = Ok v1
           ∧ stepLoop this l2 initial = Ok v2
           ∧ v_stepNumber v1 = length (v_steps v1)
           ∧ stepLoop this (l1 ++ l2) initial = Ok (after_vars v1 v2).
Proof.
  destruct (stepLoop_well_formed this l1 initial (well_formed_initial this))
    as (v1 & H1 & W1).
  destruct (stepLoop_total this l2 initial) as (v2 & H2).
  exists v1, v2. split; [done|]. split; [done|].
  split; [by destruct W1|].
  rewrite stepLoop_app, H1. cbn [mbind result_bind].
  rewrite <- (after_vars_initial v1) at 1.
  by rewrite stepLoop_after, H2.
Qed.

(** *** Steps and lines *)

Lemma stepLoop_steps_le this lines :
  ∀ v v', stepLoop this lines v = Ok v' →
          length (v_steps v') ≤ length (v_steps v) + length lines.
Proof.
  induction lines as [|line lines IH]; intros v v'; cbn [stepLoop].
  - intros [= <-]. lia.
  - destruct (on_line_counter this v line) as (v1 & -> & H).
    cbn [mbind result_bind]. intros H'. apply IH in H'. cbn [length].
    destruct H as [[E _]|(step & _ & E & _)]; rewrite E in H'; [lia|].
    rewrite List.length_app in H'. simpl in H'. lia.
Qed.

(** *** Where the metadata come from *)

Lemma record_all_from lines key value :
  ∀ md, record_all lines md !! key = Some value →
        md !! key = Some value
        ∨ ∃ line, line ∈ lines ∧ metadata_entry line = Some (key, value).
Proof.
  induction lines as [|line lines IH]; intros md; [by left|].
  rewrite record_all_cons. intros H. apply IH in H as [H|(l & Hl & E)].
  - destruct (metadata_entry line) as [[k val]|] eqn:E; [|by left].
    destruct (decide (k = key)) as [->|Hne].
    + rewrite lookup_insert_eq in H. injection H as ->.
      right. exists line. split; [by left|done].
    + rewrite lookup_insert_ne in H by done. by left.
  - right. exists l. split; [by right|done].
Qed.

Lemma metadata_entry_prefix line key value :
  metadata_entry line = Some (key, value) → Js.startsWith line ">>" = true.
Proof.
  unfold metadata_entry, exec0. intros H.
  destruct (search Tokens.metadata (Js.chars line) 0) as [[s st]|] eqn:E;
    [|done]. clear H.
  apply search_spec in E as (_ & _ & H).
  destruct (match_at_metadata _ _ _ H) as [-> _]. simpl in H.
  unfold match_at in H. destruct metadata_shape as [_ E]. rewrite E in H.
  clear E. change (lit ">>") with (Seq (Char ">") (Char ">")) in H.
  match type of H with
  | rmatch (Seq Bol (Seq (Seq ?a ?b) ?x)) ?s ?k = _ =>
      change (rmatch (Seq a (Seq b x)) s k = Some st) in H
  end.
  apply rmatch_char_then in H as (l1 & E1 & H).
  apply rmatch_char_then in H as (l2 & E2 & _).
  cbn [rest] in E1, E2. subst l1. rewrite drop_0 in E1.
  rewrite <- (str_chars line), E1. unfold Js.startsWith.
  apply String.prefix_correct. cbn. by destruct l2.
Qed.

(** *** Step numbers *)

Lemma items_of_unnumbered this n m :
  items_of (without_numbers this) n m = unnumbered <$> items_of this n m.
Proof.
  unfold items_of, ingredients_of, cookwares_of, timers_of.
  rewrite !fmap_app.
  repeat match goal with
         | |- context [if ?b then _ else _] => destruct b
         end; reflexivity.
Qed.

Lemma gap_unnumbered line pos m :
  unnumbered <$> gap line pos m = gap line pos m.
Proof. unfold gap. by destruct (pos <? index m). Qed.

Lemma items_from_unnumbered this n line ms :
  ∀ pos, items_from (without_numbers this) n line ms pos
         = unnumbered <$> items_from this n line ms pos.
Proof.
  induction ms as [|m ms IH]; intros pos; cbn [items_from]; [done|].
  by rewrite !fmap_app, gap_unnumbered, items_of_unnumbered, IH.
Qed.

Lemma step_of_unnumbered this n line :
  step_of (without_numbers this) n line = unnumbered <$> step_of this n line.
Proof.
  unfold step_of. cbv zeta. rewrite fmap_app, items_from_unnumbered.
  f_equal. unfold rest_of.
  by destruct (end_from (matchAll Tokens.tokens line) 0 <? String.length line).
Qed.

Lemma ingredients_in_unnumbered s :
  ingredients_in (unnumbered <$> s) = unnumbered_ingredient <$> ingredients_in s.
Proof.
  unfold ingredients_in.
  induction s as [|it s IH]; [done|]. rewrite fmap_cons.
  destruct it; cbn [omap list_omap unnumbered]; rewrite IH; done.
Qed.

Lemma cookwares_in_unnumbered s :
  cookwares_in (unnumbered <$> s) = unnumbered_cookware <$> cookwares_in s.
Proof.
  unfold cookwares_in.
  induction s as [|it s IH]; [done|]. rewrite fmap_cons.
  destruct it; cbn [omap list_omap unnumbered]; rewrite IH; done.
Qed.

Lemma on_line_unnumbered this v line :
  on_line (without_numbers this) (unnumbered_vars v) line
  = unnumbered_vars <$> on_line this v line.
Proof.
  destruct (on_line_cases this v line)
    as [(m & ms & E & Hm & ->)|(_ & Hno & _ & _)].
  - by rewrite (on_line_entry _ _ line _ _ (first_metadata_entry _ _ _ E Hm)).
  - rewrite !(on_line_step _ _ _ Hno). cbv zeta. cbn [fmap result_fmap].
    f_equal. change (v_stepNumber (unnumbered_vars v)) with (v_stepNumber v).
    rewrite step_of_unnumbered.
    generalize (step_of this (v_stepNumber v) line). intros step.
    destruct step as [|it step]; [by repeat case_decide|].
    repeat case_decide; try done.
    unfold appended, pushed, unnumbered_vars. cbn [v_ingredients v_cookwares
      v_metadata v_steps v_stepNumber].
    by rewrite !fmap_app, ingredients_in_unnumbered, cookwares_in_unnumbered.
Qed.

Lemma stepLoop_unnumbered this lines :
  ∀ v, stepLoop (without_numbers this) lines (unnumbered_vars v)
       = unnumbered_vars <$> stepLoop this lines v.
Proof.
  induction lines as [|line lines IH]; intros v; cbn [stepLoop]; [done|].
  rewrite on_line_unnumbered.
  destruct (on_line this v line) as [v1|]; [|done].
  cbn [fmap result_fmap mbind result_bind]. apply IH.
Qed.

(** *** White space around quantities and units *)

Lemma head_trim_start l c :
  head (Js.trim_start l) = Some c → Js.is_space c = false.
Proof.
  induction l as [|d l IH]; [done|]. simpl.
  destruct (Js.is_space d) eqn:E; [done|]. by intros [= <-].
Qed.

Lemma last_rev (l : list ascii) : last (rev l) = head l.
Proof. destruct l as [|c l]; [done|]. simpl. by rewrite last_snoc. Qed.

Lemma trim_no_space s : no_space_at_ends (Js.trim s).
Proof.
  unfold no_space_at_ends, Js.trim. rewrite chars_str. split; intros c.
  - rewrite <- trim_start_end. apply head_trim_start.
  - unfold Js.trim_end. rewrite last_rev. apply head_trim_start.
Qed.

Lemma parseQuantity_trim raw :
  parseQuantity (Some raw) = parseQuantity (Some (Js.trim raw)).
Proof.
  destruct (decide (Js.trim raw = "")) as [E|E].
  - rewrite (proj2 (parseQuantity_None raw) E).
    symmetry. apply parseQuantity_None. by rewrite trim_idem.
  - rewrite (parseQuantity_eq raw E).
    rewrite (parseQuantity_eq (Js.trim raw)) by (by rewrite trim_idem).
    cbv zeta. by rewrite trim_idem.
Qed.

Lemma parseQuantity_text raw t :
  parseQuantity (Some raw) = Some (Textual t) →
  t = Js.trim raw ∧ t ≠ "".
Proof.
  intros H. destruct (decide (Js.trim raw = "")) as [E|E].
  - apply parseQuantity_None in E. congruence.
  - rewrite (parseQuantity_eq raw E) in H. cbv zeta in H.
    repeat match type of H with
           | context [if ?b then _ else _] => destruct b
           end; try discriminate; by injection H as <-.
Qed.

Lemma parseUnits_trim u : parseUnits (Some u) = parseUnits (Some (Js.trim u)).
Proof.
  unfold parseUnits. rewrite trim_idem.
  destruct (negb (Js.truthy u) || String.eqb (Js.trim u) "") eqn:E.
  - apply blank_test in E. by rewrite E.
  - replace (negb (Js.truthy (Js.trim u)) || String.eqb (Js.trim u) "")
      with false; [done|].
    symmetry. apply not_true_is_false. intros H.
    assert (Js.trim u = "") as Hu.
    { apply orb_true_iff in H as [H|H]; [|by apply String.eqb_eq in H].
      by destruct (Js.trim u). }
    apply blank_test in Hu. congruence.
Qed.

(** *** The named groups *)

Lemma group_index_None mapping name :
  name ∉ mapping.*1 → group_index mapping name = None.
Proof.
  intros H. unfold group_index. apply fmap_None.
  induction mapping as [|[k i] mapping IH]; [done|]. simpl.
  apply not_elem_of_cons in H as [Hne H].
  destruct (String.eqb_spec k name) as [->|_]; [done|]. by apply IH.
Qed.

Lemma foldl_groups m mapping :
  NoDup mapping.*1 →
  ∀ (g0 : gmap string string) name,
    foldl (λ groups '(groupName, index),
             match at_index m index with
             | Some s => <[groupName := s]> groups
             | None => groups
             end) g0 mapping !! name
    = match group_index mapping name ≫= at_index m with
      | Some s => Some s
      | None => g0 !! name
      end.
Proof.
  induction mapping as [|[k i] mapping IH]; intros Hnd g0 name; [done|].
  apply NoDup_cons in Hnd as [Hk Hnd]. cbn [fst] in Hk.
  cbn [foldl]. rewrite (IH Hnd).
  unfold group_index at 2. cbn [List.find fst].
  destruct (String.eqb_spec k name) as [->|Hne].
  - rewrite (group_index_None _ _ Hk). cbn.
    destruct (at_index m i) as [s|]; [|done]. by rewrite lookup_insert_eq.
  - fold (group_index mapping name).
    destruct (group_index mapping name ≫= at_index m); [done|].
    destruct (at_index m i) as [s|]; [|done]. by rewrite lookup_insert_ne.
Qed.

Lemma mapping_NoDup type mapping :
  mapping_of type = Some mapping → NoDup mapping.*1.
Proof.
  unfold mapping_of. intros H. apply fmap_Some in H as ([k mp] & H & ->).
  apply find_some in H as [H _]. simpl in H. cbn [snd].
  assert (D : ∀ l : list string, bool_decide (NoDup l) = true → NoDup l).
  { intros l Hl. by apply bool_decide_eq_true in Hl. }
  repeat (destruct H as [[= <- <-]|H]; [by apply D|]). done.
Qed.

(** *** The items of a category of the shopping list *)

Lemma split_chars_app sep l1 l2 :
  ∀ cur, Js.split_chars sep (l1 ++ sep :: l2) cur
         = Js.split_chars sep l1 cur ++ Js.split_chars sep l2 [].
Proof.
  induction l1 as [|c l1 IH]; intros cur; simpl.
  - by rewrite Ascii.eqb_refl.
  - destruct (Ascii.eqb c sep); [|apply IH]. by rewrite IH.
Qed.

Lemma split_app a b sep :
  Js.split (a +:+ String sep b) sep = Js.split a sep ++ Js.split b sep.
Proof.
  unfold Js.split. rewrite chars_app. apply split_chars_app.
Qed.

Lemma parseShoppingListCategory_eq items :
  parseShoppingListCategory items = omap item_of (Js.split items "010").
Proof.
  unfold parseShoppingListCategory.
  match goal with
  | |- foldl ?F [] _ = _ =>
      assert (E : ∀ ls acc, foldl F acc ls = acc ++ omap item_of ls)
  end.
  { induction ls as [|x ls IH]; intros acc.
    - by rewrite app_nil_r.
    - cbn [foldl omap list_omap]. rewrite IH. unfold item_of. cbv zeta.
      destruct (String.eqb (Js.trim x) ""); [done|]. by rewrite <- app_assoc. }
  by rewrite E.
Qed.

End FurtherParserFacts.

Module FormFacts.
Import RegExp RegExpSpec RegExpFacts Parser ParserSpec ParserFacts.
Import FurtherSpec FurtherRegExpFacts FurtherParserFacts.

Ltac lengths :=
  rewrite <- ?length_chars;
  repeat first [rewrite List.length_app | progress (cbn [length])].

Ltac flat := repeat (progress (rewrite <- ?app_assoc; cbn [app])).

(** *** Texts and characters *)

Lemma free_of_elem cs s :
  free_of cs s = true → ∀ c, c ∈ Js.chars s → c ∉ cs.
Proof. rewrite free_of_spec. intros H c Hc Hin. by apply (H c). Qed.

Lemma chars_ne s : s ≠ "" → Js.chars s ≠ [].
Proof. by destruct s. Qed.

Lemma nonblank_with (s : string) c :
  c ∈ Js.chars s → Js.is_space c = false →
  (0 <? String.length (Js.trim s)) = true.
Proof.
  intros Hc Hs.
  assert (Hstart : ∀ l, c ∈ l → c ∈ Js.trim_start l).
  { induction l as [|d l IH]; [done|]. intros Hin. simpl.
    destruct (Js.is_space d) eqn:E; [|done].
    apply elem_of_cons in Hin as [->|Hin]; [congruence|by apply IH]. }
  assert (Hrev : ∀ l, c ∈ rev l ↔ c ∈ l).
  { intros l. by rewrite !list_elem_of_In, <- in_rev. }
  assert (Hin : c ∈ Js.trim_end (Js.trim_start (Js.chars s))).
  { unfold Js.trim_end. apply Hrev, Hstart, Hrev. by apply Hstart. }
  apply Nat.ltb_lt. unfold Js.trim. rewrite length_str.
  destruct (Js.trim_end _); [by apply not_elem_of_nil in Hin|simpl; lia].
Qed.

Lemma line_terminator c :
  Js.is_line_terminator c = true → c ∈ terminators.
Proof.
  unfold Js.is_line_terminator, Js.code. intros H.
  apply orb_true_iff in H as [H|H]; apply Nat.eqb_eq in H;
    rewrite <- (ascii_nat_embedding c), H.
  - right. left.
  - left.
Qed.

Lemma dots l :
  (∀ c, c ∈ l → c ∉ terminators) →
  Forall (λ c, negb (Js.is_line_terminator c) = true) l.
Proof.
  intros H. apply Forall_forall. intros c Hc. apply negb_true_iff.
  destruct (Js.is_line_terminator c) eqn:E; [|done].
  exfalso. by apply (H c Hc), line_terminator.
Qed.

Lemma ingredients_in_text_item s : ingredients_in (text_item s) = [].
Proof. unfold text_item. by destruct (Js.truthy s). Qed.

Lemma cookwares_in_text_item s : cookwares_in (text_item s) = [].
Proof. unfold text_item. by destruct (Js.truthy s). Qed.

Lemma text_item_gap line (pre rest : list ascii) m :
  Js.chars line = pre ++ rest → index m = length pre →
  gap line 0 m = text_item (Js.str pre).
Proof.
  intros E Hm. unfold gap, text_item. rewrite Hm.
  destruct pre as [|c pre]; [done|]. cbn [length Nat.ltb Nat.leb Js.str].
  rewrite substring_slice by
    (try lia; rewrite <- length_chars, E, List.length_app; simpl; lia).
  rewrite E. cbn [Js.truthy string_of_list_ascii].
  by rewrite (slice_at _ [] (c :: pre) rest 0 (length (c :: pre))).
Qed.

Lemma text_item_rest line (pre post : list ascii) :
  Js.chars line = pre ++ post →
  rest_of line (length pre) = text_item (Js.str post).
Proof.
  intros E. unfold rest_of, text_item, Js.substring_from.
  rewrite <- length_chars, E, List.length_app, drop_app_length.
  destruct post as [|c post]; simpl.
  - by replace (length pre <? length pre + 0) with false
      by (symmetry; apply Nat.ltb_ge; lia).
  - by replace (length pre <? length pre + S (length post)) with true
      by (symmetry; apply Nat.ltb_lt; lia).
Qed.

Lemma rmatch_requires_None cs r st k :
  requires cs r = true → (∀ c, c ∈ cs → c ∉ rest st) → rmatch r st k = None.
Proof.
  intros Hr Hno. destruct (rmatch r st k) as [res|] eqn:E; [|done].
  apply (rmatch_requires cs r Hr) in E as (c & Hc & Hin).
  by apply Hno in Hc.
Qed.

(** *** A line with one token *)

Lemma at_index_capture line pre post e (cs : gmap nat (nat * nat))
  i a b A l B :
  cs !! i = Some (a, b) → 1 ≤ i ≤ 13 →
  Js.chars line = A ++ l ++ B → a = length A → b = a + length l →
  at_index (token_at line pre post e cs) i = Some (Js.str l).
Proof.
  intros C Hi E Ha Hb. unfold token_at.
  rewrite at_index_match_array by done. cbn [caps]. rewrite C.
  cbn [fmap option_fmap option_map]. f_equal. by eapply slice_at.
Qed.

Lemma at_index_no_capture line pre post e (cs : gmap nat (nat * nat)) i :
  cs !! i = None → 1 ≤ i → at_index (token_at line pre post e cs) i = None.
Proof.
  intros C Hi. unfold token_at.
  destruct (decide (i ≤ 13)) as [Hr|Hr]; [|apply at_index_beyond; lia].
  rewrite at_index_match_array by done. cbn [caps]. by rewrite C.
Qed.

Section OneToken.
Variables (this : t) (line : string) (pre tok post : list ascii).
Variables (e : nat) (cs : gmap nat (nat * nat)).
Hypothesis line_eq : Js.chars line = pre ++ tok ++ post.
Hypothesis pre_ok : ∀ c, c ∈ pre → c ∉ markup.
Hypothesis post_ok : ∀ c, c ∈ post → c ∉ markup.
Hypothesis tok_match :
  match_at Tokens.tokens (tok ++ post) (length pre) = Some (MState post e cs).
Hypothesis tok_end : e = length pre + length tok.
Hypothesis tok_ne : tok ≠ [].

Lemma matchAll_one_token :
  matchAll Tokens.tokens line = [token_at line pre post e cs].
Proof.
  unfold matchAll. rewrite tokens_groups.
  rewrite (all_matches_one markup Tokens.tokens _ pre tok post
             (MState post e cs)).
  - reflexivity.
  - exact line_eq.
  - reflexivity.
  - exact pre_ok.
  - exact tok_match.
  - exact tok_end.
  - exact tok_ne.
  - apply (search_requires markup); [reflexivity|].
    intros c Hc Hin. by apply (post_ok c).
Qed.

Lemma after_token : after (token_at line pre post e cs) = e.
Proof.
  unfold token_at. apply (after_match_array _ Tokens.tokens).
  - rewrite line_eq. lengths. lia.
  - by rewrite line_eq, drop_app_length.
Qed.

Lemma step_of_one_token n :
  step_of this n line
  = text_item (Js.str pre)
    ++ items_of this n (token_at line pre post e cs)
    ++ text_item (Js.str post).
Proof.
  unfold step_of. cbv zeta. rewrite matchAll_one_token.
  cbn [items_from end_from]. rewrite app_nil_r.
  rewrite (text_item_gap _ pre _ _ line_eq) by done.
  rewrite after_token, tok_end, <- List.length_app.
  rewrite (text_item_rest _ _ post) by (by rewrite line_eq, <- app_assoc).
  by rewrite <- app_assoc.
Qed.

Hypothesis no_metadata : cs !! 1 = None.
Hypothesis no_hyphen_nor_terminator :
  free_of (hyphen ++ terminators) line = true.
Hypothesis tok_visible : ∃ c, c ∈ tok ∧ Js.is_space c = false.

Lemma parse_one_token items :
  items_of this 0 (token_at line pre post e cs) = items → items ≠ [] →
  parse this line
  = Ok (one_step (text_item (Js.str pre) ++ items
                  ++ text_item (Js.str post))).
Proof.
  intros Hitems Hne.
  change line with (joined [line]) at 1.
  rewrite parse_joined by (by constructor). cbn [List.filter].
  destruct tok_visible as (c & Hc & Hs).
  rewrite (nonblank_with _ c)
    by (done || rewrite line_eq, !elem_of_app; by right; left).
  cbn [stepLoop]. rewrite on_line_step.
  - cbv zeta. cbn [initial v_stepNumber].
    rewrite step_of_one_token, Hitems.
    case_decide as E.
    { exfalso. destruct (text_item (Js.str pre)); [|done].
      by destruct items. }
    reflexivity.
  - intros m ms. rewrite matchAll_one_token. intros [= <- <-].
    unfold is_metadata. by rewrite at_index_no_capture.
Qed.

End OneToken.

(** *** The tokens, walked over their texts *)

Ltac normalize :=
  match goal with
  | |- rmatch ?r _ _ = _ =>
      let r' := eval vm_compute in r in change r with r'
  end.

Ltac alternatives :=
  change (rmatch (Alt ?a ?b) ?st ?k)
    with (match rmatch a st k with
          | Some x => Some x
          | None => rmatch b st k
          end).

Ltac skip_alt c :=
  alternatives; rewrite (rmatch_begins [c]);
  [|reflexivity
   |let R := fresh in
    intros ? ? R; cbn [rest] in R; injection R as <- _;
    rewrite not_elem_of_cons; split; [done|apply not_elem_of_nil]].

Ltac take_alt :=
  alternatives;
  match goal with
  | |- match ?x with _ => _ end = Some ?res =>
      let H := fresh in assert (H : x = Some res); [|by rewrite H]
  end.

Ltac enter_group :=
  change (rmatch (Seq (Group ?i ?r) ?b) ?st ?k)
    with (rmatch r st
            (λ st', rmatch b (set_cap i (pos st) (pos st') st') k)).

Ltac enter_last_group :=
  change (rmatch (Group ?i ?r) ?st ?k)
    with (rmatch r st (λ st', k (set_cap i (pos st) (pos st') st'))).

Ltac sequence :=
  change (rmatch (Seq ?a ?b) ?st ?k)
    with (rmatch a st (λ st', rmatch b st' k)).

Ltac state := unfold set_cap, clear; cbn [groups foldr app pos rest caps].

Ltac head_not H :=
  let R := fresh in
  intros ? ? R; state; unfold set_cap in R; cbn [rest] in R;
  apply head_drop_app in R; [|lia]; apply H in R;
  rewrite !not_elem_of_cons in R; rewrite !not_elem_of_cons;
  repeat split; try tauto; apply not_elem_of_nil.

Lemma name_class l :
  (∀ c, c ∈ l → c ∉ ["@"; "#"; "~"; "["; "{"]%char) →
  Forall (λ c, class_matches true
                 [CChar "@"; CChar "#"; CChar "~"; CChar "["] c = true) l.
Proof.
  intros H. apply Forall_forall. intros c Hc. apply H in Hc.
  unfold class_matches. cbn [existsb item_matches].
  rewrite !not_elem_of_cons in Hc. destruct Hc as (H1 & H2 & H3 & H4 & _).
  apply Ascii.eqb_neq in H1, H2, H3, H4. by rewrite H1, H2, H3, H4.
Qed.

Lemma not_brace_class l :
  (∀ c, c ∈ l → c ∉ ["}"]%char) →
  Forall (λ c, class_matches true [CChar "}"] c = true) l.
Proof.
  intros H. apply Forall_forall. intros c Hc. apply H in Hc.
  unfold class_matches. cbn [existsb item_matches].
  rewrite !not_elem_of_cons in Hc. destruct Hc as (H1 & _).
  apply Ascii.eqb_neq in H1. by rewrite H1.
Qed.

Lemma closing_brace post q cs :
  rmatch (Char "}") (MState ("}"%char :: post) q cs) Some
  = Some (MState post (S q) cs).
Proof. reflexivity. Qed.

Ltac captured :=
  repeat first [rewrite lookup_insert_ne by done
               |rewrite lookup_delete_ne by done];
  by rewrite lookup_insert_eq.

Ltac head_is :=
  let R := fresh in
  intros ? ? R; cbn [rest] in R; injection R as <- _;
  rewrite !not_elem_of_cons; repeat split; try done; apply not_elem_of_nil.

Lemma any_class (l : list ascii) :
  Forall (λ c, class_matches true [] c = true) l.
Proof. apply Forall_forall. by intros c Hc. Qed.

Section Walks.
Variables (post : list ascii) (s : nat).

(** [@name{q%u}] *)
Lemma walk_ingredient name q u :
  name ≠ [] → (∀ c, c ∈ name → c ∉ ["@"; "#"; "~"; "["; "{"]%char) →
  (∀ c, c ∈ q → c ∉ ["%"; "}"]%char) →
  u ≠ [] → (∀ c, c ∈ u → c ∉ ["}"]%char) →
  (∀ c l, post = c :: l → c ∉ ["("]%char) →
  ∃ cs,
    match_at Tokens.tokens
      ("@"%char :: name ++ "{"%char :: q ++ "%"%char :: u
       ++ "}"%char :: post) s
    = Some (MState post
              (S (S (S (S s + length name) + length q) + length u)) cs)
    ∧ cs !! 3 = Some (S s, S s + length name)
    ∧ cs !! 4 = Some (S (S s + length name), S (S s + length name) + length q)
    ∧ cs !! 5 = Some (S (S (S s + length name) + length q),
                      S (S (S s + length name) + length q) + length u)
    ∧ ∀ i, i ∉ [3; 4; 5] → cs !! i = None.
Proof.
  intros name_ne name_ok q_ok u_ne u_ok post_ok. eexists. split.
  { unfold match_at. rewrite tokens_alternatives.
    skip_alt ">"%char. take_alt. normalize.
    rewrite rmatch_char. enter_group.
    apply (plus_lazy_run _ _ (atom_class _ _) eq_refl);
      [done|by apply name_class| |].
    { intros i Hi. apply (rmatch_begins ["{"%char]); [reflexivity|].
      head_not name_ok. }
    state. rewrite rmatch_char. enter_group.
    apply (star_lazy_run _ _ (atom_class _ _) eq_refl).
    { apply Forall_forall. by intros c Hc. }
    { intros i Hi. state. sequence.
      rewrite (opt_passed ["%"%char]); [|reflexivity|head_not q_ok].
      apply (rmatch_begins ["}"%char]); [reflexivity|head_not q_ok]. }
    state. sequence. apply opt_taken. state.
    rewrite rmatch_char. enter_last_group.
    apply (plus_lazy_run _ _ (atom_class _ _) eq_refl);
      [done|by apply not_brace_class| |].
    { intros i Hi. rewrite progress_moved by (unfold set_cap; cbn [pos]; lia).
      apply (rmatch_begins ["}"%char]); [reflexivity|head_not u_ok]. }
    rewrite progress_moved by (unfold set_cap; cbn [pos]; lia).
    state. rewrite rmatch_char.
    rewrite (opt_passed ["("%char]); [reflexivity|reflexivity|].
    intros c l R. cbn [rest] in R. by eapply post_ok. }
  split_and!.
  - by rewrite lookup_insert_ne, lookup_delete_ne, lookup_insert_ne,
      lookup_insert_eq by done.
  - by rewrite lookup_insert_ne, lookup_delete_ne, lookup_insert_eq by done.
  - by rewrite lookup_insert_eq.
  - intros i Hi. rewrite !not_elem_of_cons in Hi.
    destruct Hi as (H3 & H4 & H5 & _).
    rewrite lookup_insert_ne by done. rewrite lookup_delete_None. right.
    by rewrite !lookup_insert_ne, lookup_empty by done.
Qed.

(** [#name{q}] *)
Lemma walk_cookware name q :
  name ≠ [] → (∀ c, c ∈ name → c ∉ ["@"; "#"; "~"; "["; "{"]%char) →
  (∀ c, c ∈ q → c ∉ "}"%char :: terminators) →
  ∃ cs,
    match_at Tokens.tokens
      ("#"%char :: name ++ "{"%char :: q ++ "}"%char :: post) s
    = Some (MState post (S (S (S s + length name) + length q)) cs)
    ∧ cs !! 8 = Some (S s, S s + length name)
    ∧ cs !! 9 = Some (S (S s + length name), S (S s + length name) + length q)
    ∧ ∀ i, i ∉ [8; 9] → cs !! i = None.
Proof.
  intros name_ne name_ok q_ok. eexists. split.
  { unfold match_at. rewrite tokens_alternatives.
    skip_alt ">"%char. skip_alt "@"%char. skip_alt "@"%char.
    take_alt. normalize.
    rewrite rmatch_char. enter_group.
    apply (plus_lazy_run _ _ (atom_class _ _) eq_refl);
      [done|by apply name_class| |].
    { intros i Hi. apply (rmatch_begins ["{"%char]); [reflexivity|].
      head_not name_ok. }
    state. rewrite rmatch_char. enter_group.
    apply (star_lazy_run _ _ atom_dot eq_refl).
    { apply dots. intros c Hc. apply q_ok in Hc.
      rewrite not_elem_of_cons in Hc. tauto. }
    { intros i Hi. state.
      apply (rmatch_begins ["}"%char]); [reflexivity|head_not q_ok]. }
    state. apply closing_brace. }
  split_and!.
  - by rewrite lookup_insert_ne, lookup_insert_eq by done.
  - by rewrite lookup_insert_eq.
  - intros i Hi. rewrite !not_elem_of_cons in Hi. destruct Hi as (H8 & H9 & _).
    by rewrite !lookup_insert_ne, lookup_empty by done.
Qed.

(** [~name{q%u}] *)
Lemma walk_timer name q u :
  (∀ c, c ∈ name → c ∉ "{"%char :: terminators) →
  (∀ c, c ∈ q → c ∉ "%"%char :: "}"%char :: terminators) →
  (∀ c, c ∈ u → c ∉ "}"%char :: terminators) →
  ∃ cs,
    match_at Tokens.tokens
      ("~"%char :: name ++ "{"%char :: q ++ "%"%char :: u
       ++ "}"%char :: post) s
    = Some (MState post
              (S (S (S (S s + length name) + length q) + length u)) cs)
    ∧ cs !! 11 = Some (S s, S s + length name)
    ∧ cs !! 12 = Some (S (S s + length name),
                       S (S s + length name) + length q)
    ∧ cs !! 13 = Some (S (S (S s + length name) + length q),
                       S (S (S s + length name) + length q) + length u)
    ∧ ∀ i, i ∉ [11; 12; 13] → cs !! i = None.
Proof.
  intros name_ok q_ok u_ok. eexists. split.
  { unfold match_at. rewrite tokens_alternatives.
    skip_alt ">"%char. skip_alt "@"%char. skip_alt "@"%char.
    skip_alt "#"%char. skip_alt "#"%char. normalize.
    rewrite rmatch_char. enter_group.
    apply (star_lazy_run _ _ atom_dot eq_refl).
    { apply dots. intros c Hc. apply name_ok in Hc.
      rewrite not_elem_of_cons in Hc. tauto. }
    { intros i Hi. state.
      apply (rmatch_begins ["{"%char]); [reflexivity|head_not name_ok]. }
    state. rewrite rmatch_char. enter_group.
    apply (star_lazy_run _ _ atom_dot eq_refl).
    { apply dots. intros c Hc. apply q_ok in Hc.
      rewrite !not_elem_of_cons in Hc. tauto. }
    { intros i Hi. state. sequence.
      rewrite (opt_passed ["%"%char]); [|reflexivity|head_not q_ok].
      apply (rmatch_begins ["}"%char]); [reflexivity|head_not q_ok]. }
    state. sequence. apply opt_taken. state.
    rewrite rmatch_char. enter_last_group.
    apply (star_lazy_run _ _ atom_dot eq_refl).
    { apply dots. intros c Hc. apply u_ok in Hc.
      rewrite not_elem_of_cons in Hc. tauto. }
    { intros i Hi. rewrite progress_moved by (unfold set_cap; cbn [pos]; lia).
      apply (rmatch_begins ["}"%char]); [reflexivity|head_not u_ok]. }
    rewrite progress_moved by (unfold set_cap; cbn [pos]; lia).
    state. apply closing_brace. }
  split_and!.
  - by rewrite lookup_insert_ne, lookup_delete_ne, lookup_insert_ne,
      lookup_insert_eq by done.
  - by rewrite lookup_insert_ne, lookup_delete_ne, lookup_insert_eq by done.
  - by rewrite lookup_insert_eq.
  - intros i Hi. rewrite !not_elem_of_cons in Hi.
    destruct Hi as (H3 & H4 & H5 & _).
    rewrite lookup_insert_ne by done. rewrite lookup_delete_None. right.
    by rewrite !lookup_insert_ne, lookup_empty by done.
Qed.

(** [@word] and [#word] *)
Lemma walk_word_ingredient word :
  word ≠ [] → Forall (λ c, is_word c = true) word →
  (∀ c l, post = c :: l → is_word c = false) →
  (∀ c, c ∈ word ++ post → c ∉ ["{"]%char) →
  ∃ cs,
    match_at Tokens.tokens ("@"%char :: word ++ post) s
    = Some (MState post (S s + length word) cs)
    ∧ cs !! 7 = Some (S s, S s + length word)
    ∧ ∀ i, i ∉ [7] → cs !! i = None.
Proof.
  intros word_ne word_ok word_end no_brace. eexists. split.
  { unfold match_at. rewrite tokens_alternatives.
    skip_alt ">"%char. alternatives.
    rewrite (rmatch_requires_None ["{"%char]); [|reflexivity|].
    2:{ intros c Hc.
        apply elem_of_cons in Hc as [->|Hc]; [|by apply not_elem_of_nil in Hc].
        cbn [rest]. rewrite not_elem_of_cons. split; [done|].
        intros Hin. apply (no_brace _ Hin). by left. }
    take_alt. normalize. rewrite rmatch_char. enter_last_group.
    by apply (plus_greedy_run _ _ (atom_class _ _) eq_refl). }
  state. split.
  - by rewrite lookup_insert_eq.
  - intros i Hi. rewrite !not_elem_of_cons in Hi. destruct Hi as (H7 & _).
    by rewrite lookup_insert_ne, lookup_empty by done.
Qed.

Lemma walk_word_cookware word :
  word ≠ [] → Forall (λ c, is_word c = true) word →
  (∀ c l, post = c :: l → is_word c = false) →
  (∀ c, c ∈ word ++ post → c ∉ ["{"]%char) →
  ∃ cs,
    match_at Tokens.tokens ("#"%char :: word ++ post) s
    = Some (MState post (S s + length word) cs)
    ∧ cs !! 10 = Some (S s, S s + length word)
    ∧ ∀ i, i ∉ [10] → cs !! i = None.
Proof.
  intros word_ne word_ok word_end no_brace. eexists. split.
  { unfold match_at. rewrite tokens_alternatives.
    skip_alt ">"%char. skip_alt "@"%char. skip_alt "@"%char. alternatives.
    rewrite (rmatch_requires_None ["{"%char]); [|reflexivity|].
    2:{ intros c Hc.
        apply elem_of_cons in Hc as [->|Hc]; [|by apply not_elem_of_nil in Hc].
        cbn [rest]. rewrite not_elem_of_cons. split; [done|].
        intros Hin. apply (no_brace _ Hin). by left. }
    take_alt. normalize. rewrite rmatch_char. enter_last_group.
    by apply (plus_greedy_run _ _ (atom_class _ _) eq_refl). }
  state. split.
  - by rewrite lookup_insert_eq.
  - intros i Hi. rewrite !not_elem_of_cons in Hi. destruct Hi as (H7 & _).
    by rewrite lookup_insert_ne, lookup_empty by done.
Qed.

(** [@name{q}] *)
Lemma walk_amount_ingredient name q :
  name ≠ [] → (∀ c, c ∈ name → c ∉ ["@"; "#"; "~"; "["; "{"]%char) →
  (∀ c, c ∈ q → c ∉ ["%"; "}"]%char) →
  (∀ c l, post = c :: l → c ∉ ["("]%char) →
  ∃ cs,
    match_at Tokens.tokens
      ("@"%char :: name ++ "{"%char :: q ++ "}"%char :: post) s
    = Some (MState post (S (S (S s + length name) + length q)) cs)
    ∧ cs !! 3 = Some (S s, S s + length name)
    ∧ cs !! 4 = Some (S (S s + length name), S (S s + length name) + length q)
    ∧ ∀ i, i ∉ [3; 4] → cs !! i = None.
Proof.
  intros name_ne name_ok q_ok post_ok. eexists. split.
  { unfold match_at. rewrite tokens_alternatives.
    skip_alt ">"%char. take_alt. normalize.
    rewrite rmatch_char. enter_group.
    apply (plus_lazy_run _ _ (atom_class _ _) eq_refl);
      [done|by apply name_class| |].
    { intros i Hi. apply (rmatch_begins ["{"%char]); [reflexivity|].
      head_not name_ok. }
    state. rewrite rmatch_char. enter_group.
    apply (star_lazy_run _ _ (atom_class _ _) eq_refl).
    { apply any_class. }
    { intros i Hi. state. sequence.
      rewrite (opt_passed ["%"%char]); [|reflexivity|head_not q_ok].
      apply (rmatch_begins ["}"%char]); [reflexivity|head_not q_ok]. }
    state. sequence.
    rewrite (opt_passed ["%"%char]); [|reflexivity|head_is].
    rewrite rmatch_char.
    rewrite (opt_passed ["("%char]); [reflexivity|reflexivity|].
    intros c l R. cbn [rest] in R. by eapply post_ok. }
  split_and!.
  - captured.
  - captured.
  - intros i Hi. rewrite !not_elem_of_cons in Hi. destruct Hi as (H3 & H4 & _).
    by rewrite !lookup_insert_ne, lookup_empty by done.
Qed.

(** [@name{q%u}(prep)] *)
Lemma walk_prepared_ingredient name q u prep :
  name ≠ [] → (∀ c, c ∈ name → c ∉ ["@"; "#"; "~"; "["; "{"]%char) →
  (∀ c, c ∈ q → c ∉ ["%"; "}"]%char) →
  u ≠ [] → (∀ c, c ∈ u → c ∉ ["}"]%char) →
  (∀ c, c ∈ prep → c ∉ [")"]%char) →
  ∃ cs,
    match_at Tokens.tokens
      ("@"%char :: name ++ "{"%char :: q ++ "%"%char :: u
       ++ "}"%char :: "("%char :: prep ++ ")"%char :: post) s
    = Some (MState post
              (S (S (S (S (S (S s + length name) + length q) + length u))
                  + length prep)) cs)
    ∧ cs !! 3 = Some (S s, S s + length name)
    ∧ cs !! 4 = Some (S (S s + length name), S (S s + length name) + length q)
    ∧ cs !! 5 = Some (S (S (S s + length name) + length q),
                      S (S (S s + length name) + length q) + length u)
    ∧ cs !! 6 = Some (S (S (S (S (S s + length name) + length q)
                            + length u)),
                      S (S (S (S (S s + length name) + length q)
                            + length u)) + length prep)
    ∧ ∀ i, i ∉ [3; 4; 5; 6] → cs !! i = None.
Proof.
  intros name_ne name_ok q_ok u_ne u_ok prep_ok. eexists. split.
  { unfold match_at. rewrite tokens_alternatives.
    skip_alt ">"%char. take_alt. normalize.
    rewrite rmatch_char. enter_group.
    apply (plus_lazy_run _ _ (atom_class _ _) eq_refl);
      [done|by apply name_class| |].
    { intros i Hi. apply (rmatch_begins ["{"%char]); [reflexivity|].
      head_not name_ok. }
    state. rewrite rmatch_char. enter_group.
    apply (star_lazy_run _ _ (atom_class _ _) eq_refl).
    { apply any_class. }
    { intros i Hi. state. sequence.
      rewrite (opt_passed ["%"%char]); [|reflexivity|head_not q_ok].
      apply (rmatch_begins ["}"%char]); [reflexivity|head_not q_ok]. }
    state. sequence. apply opt_taken. state.
    rewrite rmatch_char. enter_last_group.
    apply (plus_lazy_run _ _ (atom_class _ _) eq_refl);
      [done|by apply not_brace_class| |].
    { intros i Hi. rewrite progress_moved by (unfold set_cap; cbn [pos]; lia).
      apply (rmatch_begins ["}"%char]); [reflexivity|head_not u_ok]. }
    rewrite progress_moved by (unfold set_cap; cbn [pos]; lia).
    state. rewrite rmatch_char.
    apply opt_taken. state. rewrite rmatch_char. enter_group.
    apply (star_lazy_run _ _ (atom_class _ _) eq_refl).
    { apply any_class. }
    { intros i Hi. state.
      apply (rmatch_begins [")"%char]); [reflexivity|head_not prep_ok]. }
    state. cbn [rmatch]. unfold read. cbn [rest pos caps].
    rewrite Ascii.eqb_refl.
    rewrite progress_moved by (cbn [pos]; lia). reflexivity. }
  split_and!.
  - captured.
  - captured.
  - captured.
  - captured.
  - intros i Hi. rewrite !not_elem_of_cons in Hi.
    destruct Hi as (H3 & H4 & H5 & H6 & _).
    rewrite lookup_insert_ne by done. rewrite lookup_delete_None. right.
    rewrite lookup_insert_ne by done. rewrite lookup_delete_None. right.
    by rewrite !lookup_insert_ne, lookup_empty by done.
Qed.

(** [~name{q}] *)
Lemma walk_amount_timer name q :
  (∀ c, c ∈ name → c ∉ "{"%char :: terminators) →
  (∀ c, c ∈ q → c ∉ "%"%char :: "}"%char :: terminators) →
  ∃ cs,
    match_at Tokens.tokens
      ("~"%char :: name ++ "{"%char :: q ++ "}"%char :: post) s
    = Some (MState post (S (S (S s + length name) + length q)) cs)
    ∧ cs !! 11 = Some (S s, S s + length name)
    ∧ cs !! 12 = Some (S (S s + length name),
                       S (S s + length name) + length q)
    ∧ ∀ i, i ∉ [11; 12] → cs !! i = None.
Proof.
  intros name_ok q_ok. eexists. split.
  { unfold match_at. rewrite tokens_alternatives.
    skip_alt ">"%char. skip_alt "@"%char. skip_alt "@"%char.
    skip_alt "#"%char. skip_alt "#"%char. normalize.
    rewrite rmatch_char. enter_group.
    apply (star_lazy_run _ _ atom_dot eq_refl).
    { apply dots. intros c Hc. apply name_ok in Hc.
      rewrite not_elem_of_cons in Hc. tauto. }
    { intros i Hi. state.
      apply (rmatch_begins ["{"%char]); [reflexivity|head_not name_ok]. }
    state. rewrite rmatch_char. enter_group.
    apply (star_lazy_run _ _ atom_dot eq_refl).
    { apply dots. intros c Hc. apply q_ok in Hc.
      rewrite !not_elem_of_cons in Hc. tauto. }
    { intros i Hi. state. sequence.
      rewrite (opt_passed ["%"%char]); [|reflexivity|head_not q_ok].
      apply (rmatch_begins ["}"%char]); [reflexivity|head_not q_ok]. }
    state. sequence.
    rewrite (opt_passed ["%"%char]); [|reflexivity|head_is].
    apply closing_brace. }
  split_and!.
  - captured.
  - captured.
  - intros i Hi. rewrite !not_elem_of_cons in Hi.
    destruct Hi as (H3 & H4 & _).
    by rewrite !lookup_insert_ne, lookup_empty by done.
Qed.

End Walks.

(** *** The lines with one token *)

Ltac not_among :=
  first [lia
        |rewrite !not_elem_of_cons; repeat split; try lia;
         apply not_elem_of_nil].

Ltac capture H A l B :=
  rewrite (at_index_capture _ _ _ _ _ _ _ _ A l B H);
  [rewrite ?str_chars
  |lia
  |match goal with E : Js.chars _ = _ |- _ => rewrite E end; by flat
  |lengths; lia
  |lengths; lia].

Lemma sigil_visible (c : ascii) (l : list ascii) :
  Js.is_space c = false → ∃ d, d ∈ c :: l ∧ Js.is_space d = false.
Proof. intros H. exists c. split; [by left|done]. Qed.

Lemma word_has_no_brace word post :
  forallb is_word (Js.chars word) = true →
  free_of ["{"]%char post = true →
  ∀ c, c ∈ Js.chars word ++ Js.chars post → c ∉ ["{"]%char.
Proof.
  intros Hw Hp c Hc. apply elem_of_app in Hc as [Hc|Hc].
  - apply list_elem_of_In in Hc.
    apply (proj1 (forallb_forall _ _) Hw) in Hc.
    rewrite not_elem_of_cons. split; [|apply not_elem_of_nil].
    intros ->. discriminate Hc.
  - by apply (free_of_elem _ _ Hp).
Qed.

Lemma word_stops post :
  word_ends post = true → ∀ c l, Js.chars post = c :: l → is_word c = false.
Proof.
  unfold word_ends. intros H c l E. rewrite E in H.
  by apply negb_true_iff in H.
Qed.

Lemma words word :
  forallb is_word (Js.chars word) = true →
  Forall (λ c, is_word c = true) (Js.chars word).
Proof.
  intros H. apply Forall_forall. intros c Hc. apply list_elem_of_In in Hc.
  by apply (proj1 (forallb_forall _ _) H).
Qed.

(** *** The line of an entry of the metadata *)

Lemma spaces l :
  Forall (λ c, Js.is_space c = true) l →
  Forall (λ c, class_matches false [CSpace] c = true) l.
Proof.
  intros F. eapply Forall_impl; [exact F|]. intros c H.
  unfold class_matches. cbn [existsb item_matches]. by rewrite H.
Qed.


Lemma blank_spaces s :
  blank s = true → Forall (λ c, Js.is_space c = true) (Js.chars s).
Proof.
  intros H. apply Forall_forall. intros c Hc. apply list_elem_of_In in Hc.
  by apply (proj1 (forallb_forall _ _) H).
Qed.




End FormFacts.

Module CommentFacts.
Import RegExp RegExpSpec RegExpFacts Parser ParserSpec ParserFacts.
Import FurtherSpec FurtherRegExpFacts FurtherParserFacts FormFacts.

(** *** The line comment *)

Lemma walk_comment (c b : list ascii) s :
  (∀ d, d ∈ c → d ∉ terminators) →
  (∀ d l, b = d :: l → Js.is_line_terminator d = true) →
  match_at Tokens.comment ("-"%char :: "-"%char :: c ++ b) s
  = Some (MState b (S (S s) + length c) ∅).
Proof.
  intros c_ok b_head. unfold match_at. normalize.
  change (rmatch (Seq (Seq (Char ?x) (Char ?y)) ?r)
            (MState (?x :: ?y :: ?l) ?q ?cs) ?k)
    with (rmatch r (MState l (S (S q)) cs) k).
  apply (star_greedy_run _ _ atom_dot eq_refl); [by apply dots| |done].
  intros d l E. by rewrite (b_head d l E).
Qed.

Lemma replace_comment a c b :
  free_of hyphen a = true → free_of terminators c = true →
  line_ends b = true → free_of hyphen b = true →
  replace Tokens.comment (a +:+ "--" +:+ c +:+ b) "" = a +:+ b.
Proof.
  intros Ha Hc Hb1 Hb2. unfold replace. cbv zeta.
  assert (E : Js.chars (a +:+ "--" +:+ c +:+ b)
              = Js.chars a ++ ("-"%char :: "-"%char :: Js.chars c)
                ++ Js.chars b).
  { rewrite !chars_app. cbn [Js.chars list_ascii_of_string]. by flat. }
  rewrite (all_matches_one hyphen Tokens.comment _ _ _ _
             (MState (Js.chars b) (S (S (length (Js.chars a)))
                                   + length (Js.chars c)) ∅) E).
  - cbn [replace_from pos Js.chars list_ascii_of_string app].
    rewrite Nat.sub_0_r, drop_0, E, take_app_length.
    replace (S (S (length (Js.chars a))) + length (Js.chars c))
      with (length (Js.chars a ++ "-"%char :: "-"%char :: Js.chars c))
      by (lengths; lia).
    rewrite app_assoc, drop_app_length. by rewrite str_app, !str_chars.
  - reflexivity.
  - by apply free_of_elem.
  - cbn [app]. apply walk_comment; [by apply free_of_elem|].
    unfold line_ends in Hb1. intros d l Eb. by rewrite Eb in Hb1.
  - cbn [pos]. lengths. lia.
  - done.
  - apply (search_requires hyphen); [reflexivity|]. by apply free_of_spec.
Qed.

Lemma strip_line_comment a c b :
  free_of hyphen a = true → free_of terminators c = true →
  line_ends b = true → free_of hyphen b = true →
  strip_comments (a +:+ "--" +:+ c +:+ b) = a +:+ b.
Proof.
  intros Ha Hc Hb1 Hb2. unfold strip_comments.
  rewrite replace_comment by done.
  apply (replace_requires hyphen); [reflexivity|].
  apply free_of_spec. by rewrite free_of_app, Ha, Hb2.
Qed.

Lemma parse_strip_comments this s1 s2 :
  strip_comments s1 = strip_comments s2 → parse this s1 = parse this s2.
Proof. intros H. unfold parse. by rewrite H. Qed.

(** *** The block comment *)

Lemma search_before r pre l :
  ∀ s, (∀ i, i < length pre → match_at r (drop i pre ++ l) (s + i) = None) →
       search r (pre ++ l) s = search r l (s + length pre).
Proof.
  induction pre as [|c pre IH]; intros s H.
  - by rewrite Nat.add_0_r.
  - cbn [app search].
    pose proof (H 0 ltac:(simpl; lia)) as H0.
    rewrite Nat.add_0_r in H0. cbn [drop app] in H0. rewrite H0.
    rewrite IH.
    + f_equal. simpl. lia.
    + intros i Hi. specialize (H (S i) ltac:(simpl; lia)).
      cbn [drop] in H. by replace (S s + i) with (s + S i) by lia.
Qed.

Lemma all_matches_one_at r input pre tok post st :
  input = pre ++ tok ++ post →
  (∀ i, i < length pre →
        match_at r (drop i pre ++ tok ++ post) i = None) →
  match_at r (tok ++ post) (length pre) = Some st →
  pos st = length pre + length tok → tok ≠ [] →
  search r post (pos st) = None →
  all_matches r input = [(length pre, st)].
Proof.
  intros -> Hpre Hm Hpos Hne Hpost. unfold all_matches.
  rewrite all_from_S, exec_0, search_before by done. cbn [Nat.add].
  rewrite (search_here _ _ _ st) by done.
  replace (pos st =? length pre) with false
    by (symmetry; apply Nat.eqb_neq; destruct tok; [done|simpl in Hpos; lia]).
  cbv beta iota. rewrite all_from_S. unfold exec.
  replace (length (pre ++ tok ++ post) <? pos st) with false
    by (symmetry; apply Nat.ltb_ge; rewrite !List.length_app; lia).
  replace (drop (pos st) (pre ++ tok ++ post)) with post.
  - by rewrite Hpost.
  - rewrite Hpos, app_assoc, <- List.length_app. symmetry.
    apply drop_app_length.
Qed.

Lemma space_class c : class_matches false [CSpace] c = Js.is_space c.
Proof.
  unfold class_matches. cbn [existsb item_matches].
  by destruct (Js.is_space c).
Qed.

(** After any run of white space, what follows does not match when the
    first character that is not white space cannot start it. *)
Lemma spaces_then_fails cs r (k : cont) :
  begins cs r = true → (∀ c, c ∈ cs → Js.is_space c = false) →
  ∀ n l q caps,
    (∀ c l', Js.trim_start l = c :: l' → c ∉ cs) →
    repeat (rmatch Tokens.space) [] true (λ st', rmatch r st' k) n
      (MState l q caps) = None.
Proof.
  intros Hb Hcs.
  assert (K : ∀ l q caps,
            (∀ c l', Js.trim_start l = c :: l' → c ∉ cs) →
            rmatch r (MState l q caps) k = None).
  { intros l q caps H. apply (rmatch_begins cs r Hb).
    intros c l' E. cbn [rest] in E. subst l.
    destruct (Js.is_space c) eqn:Sc.
    - intros Hin. apply Hcs in Hin. congruence.
    - apply (H c l'). cbn [Js.trim_start]. by rewrite Sc. }
  induction n as [|n IH]; intros l q caps H; cbn [repeat]; [by apply K|].
  unfold clear. cbn [foldr rest pos RegExp.caps].
  change (rmatch Tokens.space) with (read (class_matches false [CSpace])).
  unfold read. cbn [rest pos RegExp.caps].
  destruct l as [|c l]; [by apply K|].
  rewrite space_class. destruct (Js.is_space c) eqn:Sc; [|by apply K].
  unfold progress. cbn [pos].
  replace (S q =? q) with false by (symmetry; apply Nat.eqb_neq; lia).
  rewrite IH; [by apply K|].
  intros d l' E. apply (H d l'). cbn [Js.trim_start]. by rewrite Sc.
Qed.

Lemma trim_start_visible x l :
  (∃ c, c ∈ x ∧ Js.is_space c = false) →
  ∃ c l', Js.trim_start (x ++ l) = c :: l' ∧ c ∈ x.
Proof.
  induction x as [|d x IH]; intros (c & Hc & Sc).
  - by apply not_elem_of_nil in Hc.
  - cbn [app Js.trim_start]. destruct (Js.is_space d) eqn:Sd.
    + apply elem_of_cons in Hc as [->|Hc]; [congruence|].
      destruct IH as (e & l' & E & He); [by exists c|].
      exists e, l'. split; [done|by right].
    + exists d, (x ++ l). split; [done|by left].
Qed.

Lemma either_class (l : list ascii) :
  Forall (λ c, class_matches false [CSpace; CNotSpace] c = true) l.
Proof.
  apply Forall_forall. intros c _. unfold class_matches.
  cbn [existsb item_matches]. by destruct (Js.is_space c).
Qed.

(** The block comment, walked over its text. *)
Lemma walk_block (w1 c w2 b : list ascii) s :
  Forall (λ d, Js.is_space d = true) w1 →
  (∀ d, d ∈ c → d ∉ ["-"]%char) →
  Forall (λ d, Js.is_space d = true) w2 →
  (∀ d l, b = d :: l → Js.is_space d = false) →
  match_at Tokens.blockComment
    (w1 ++ "["%char :: "-"%char :: c ++ "-"%char :: "]"%char :: w2 ++ b) s
  = Some (MState b (s + length w1 + 2 + length c + 2 + length w2) ∅).
Proof.
  intros w1_ok c_ok w2_ok b_head. unfold match_at. normalize.
  sequence. apply (star_greedy_run _ _ (atom_class _ _) eq_refl).
  { by apply spaces. }
  { intros d l [= <- _]. reflexivity. }
  change (rmatch (Seq (Seq (Char ?x) (Char ?y)) ?r)
            (MState (?x :: ?y :: ?l) ?q ?cs) ?k)
    with (rmatch r (MState l (S (S q)) cs) k).
  sequence. apply (star_lazy_run _ _ (atom_class _ _) eq_refl).
  { apply either_class. }
  { intros i Hi. apply (rmatch_begins ["-"%char]); [reflexivity|].
    head_not c_ok. }
  change (rmatch (Seq (Seq (Char ?x) (Char ?y)) ?r)
            (MState (?x :: ?y :: ?l) ?q ?cs) ?k)
    with (rmatch r (MState l (S (S q)) cs) k).
  apply (star_greedy_run _ _ (atom_class _ _) eq_refl).
  { by apply spaces. }
  { intros d l E. rewrite space_class. by apply (b_head d l). }
  f_equal. f_equal. lia.
Qed.

(** No block comment starts inside a text without a bracket that does not
    end with white space. *)
Lemma block_not_inside (a l : list ascii) i s :
  (∀ d, d ∈ a → d ∉ bracket) →
  (∀ a' z, a = a' ++ [z] → Js.is_space z = false) →
  i < length a →
  match_at Tokens.blockComment (drop i a ++ l) s = None.
Proof.
  intros a_ok a_end Hi. unfold match_at. normalize. sequence.
  change (rmatch (Star true ?r) ?st ?k)
    with (repeat (rmatch r) [] true k (length (rest st)) st).
  apply (spaces_then_fails bracket).
  - reflexivity.
  - intros c Hc. apply elem_of_cons in Hc as [->|Hc]; [done|].
    by apply not_elem_of_nil in Hc.
  - intros c l' E.
    destruct (trim_start_visible (drop i a) l) as (d & l'' & E' & Hd).
    + destruct (exists_last (l := a)) as (a' & z & Ea).
      { intros ->. simpl in Hi. lia. }
      exists z. split; [|by apply (a_end a' z)].
      rewrite Ea, drop_app_le.
      * apply elem_of_app. right. by left.
      * rewrite Ea, List.length_app in Hi. simpl in Hi. lia.
    + rewrite E in E'. injection E' as <- _.
      apply a_ok. by apply (elem_of_drop c i).
Qed.

Lemma search_next r c l s :
  match_at r (c :: l) s = None → search r (c :: l) s = search r l (S s).
Proof. intros H. cbn [search]. by rewrite H. Qed.

Lemma comment_needs_two x y l s :
  y ≠ "-"%char → match_at Tokens.comment (x :: y :: l) s = None.
Proof.
  intros Hy. unfold match_at. normalize. cbn [rmatch]. unfold read.
  cbn [rest pos caps]. destruct (Ascii.eqb "-" x); [|done].
  by replace (Ascii.eqb "-" y) with false
    by (symmetry; apply Ascii.eqb_neq; congruence).
Qed.

Lemma space_not_hyphen (w : list ascii) :
  Forall (λ d, Js.is_space d = true) w → ∀ d, d ∈ w → d ∉ hyphen.
Proof.
  intros F d Hd Hin. rewrite Forall_forall in F. apply F in Hd.
  apply elem_of_cons in Hin as [->|Hin]; [done|].
  by apply not_elem_of_nil in Hin.
Qed.

(** The text with one block comment has no line comment. *)
Lemma no_comment_commented (a w1 c w2 b : list ascii) :
  (∀ d, d ∈ a → d ∉ hyphen) →
  Forall (λ d, Js.is_space d = true) w1 →
  c ≠ [] → (∀ d, d ∈ c → d ∉ hyphen) →
  Forall (λ d, Js.is_space d = true) w2 →
  (∀ d, d ∈ b → d ∉ hyphen) →
  search Tokens.comment
    (a ++ w1 ++ "["%char :: "-"%char :: c ++ "-"%char :: "]"%char :: w2 ++ b)
    0 = None.
Proof.
  intros a_ok w1_ok c_ne c_ok w2_ok b_ok.
  replace (a ++ w1 ++ "["%char :: "-"%char :: c
           ++ "-"%char :: "]"%char :: w2 ++ b)
    with ((a ++ w1 ++ ["["%char])
          ++ "-"%char :: c ++ "-"%char :: "]"%char :: w2 ++ b)
    by (by flat).
  rewrite (search_skip hyphen); [|reflexivity|].
  2:{ intros d Hd. rewrite !elem_of_app in Hd.
      destruct Hd as [Hd|[Hd|Hd]];
        [by apply a_ok|by apply (space_not_hyphen w1)|].
      apply elem_of_cons in Hd as [->|Hd]; [|by apply not_elem_of_nil in Hd].
      unfold hyphen. rewrite not_elem_of_cons. split; [done|].
      apply not_elem_of_nil. }
  destruct c as [|c0 c]; [done|].
  rewrite search_next.
  2:{ apply comment_needs_two. intros ->. apply (c_ok "-"%char); by left. }
  rewrite (search_skip hyphen _ (c0 :: c)); [|reflexivity|exact c_ok].
  rewrite search_next by (by apply comment_needs_two).
  apply (search_requires hyphen); [reflexivity|].
  intros d Hd Hin. apply elem_of_cons in Hin as [->|Hin].
  { apply elem_of_cons in Hd as [Hd|Hd]; [done|].
    by apply not_elem_of_nil in Hd. }
  apply elem_of_app in Hin as [Hin|Hin].
  - by apply (space_not_hyphen w2 w2_ok d).
  - by apply (b_ok d).
Qed.

Lemma tight_end_last s :
  tight_end s = true →
  ∀ a' z, Js.chars s = a' ++ [z] → Js.is_space z = false.
Proof.
  unfold tight_end. intros H a' z E. rewrite E, rev_app_distr in H.
  simpl in H. by apply negb_true_iff in H.
Qed.

Lemma tight_start_head s :
  tight_start s = true →
  ∀ d l, Js.chars s = d :: l → Js.is_space d = false.
Proof.
  unfold tight_start. intros H d l E. rewrite E in H.
  by apply negb_true_iff in H.
Qed.

Lemma chars_commented a w1 c w2 b :
  Js.chars (commented a w1 c w2 b)
  = Js.chars a
    ++ (Js.chars w1 ++ "["%char :: "-"%char :: Js.chars c
        ++ "-"%char :: "]"%char :: Js.chars w2)
    ++ Js.chars b.
Proof.
  unfold commented. rewrite !chars_app.
  cbn [Js.chars list_ascii_of_string]. by flat.
Qed.

Lemma free_of_left cs1 cs2 s :
  free_of (cs1 ++ cs2) s = true → free_of cs1 s = true.
Proof.
  apply free_of_subseteq. intros d Hd. apply elem_of_app. by left.
Qed.

Lemma free_of_right cs1 cs2 s :
  free_of (cs1 ++ cs2) s = true → free_of cs2 s = true.
Proof.
  apply free_of_subseteq. intros d Hd. apply elem_of_app. by right.
Qed.

Lemma strip_block_comment a w1 c w2 b :
  free_of (bracket ++ hyphen) a = true → tight_end a = true →
  blank w1 = true → c ≠ "" → free_of hyphen c = true → blank w2 = true →
  free_of (bracket ++ hyphen) b = true → tight_start b = true →
  strip_comments (commented a w1 c w2 b) = a +:+ " " +:+ b.
Proof.
  intros Ha Ha' Hw1 Hne Hc Hw2 Hb Hb'.
  pose proof (free_of_left _ _ _ Ha) as Ha1.
  pose proof (free_of_right _ _ _ Ha) as Ha2.
  pose proof (free_of_left _ _ _ Hb) as Hb1.
  pose proof (free_of_right _ _ _ Hb) as Hb2.
  unfold strip_comments.
  assert (E1 : replace Tokens.comment (commented a w1 c w2 b) ""
               = commented a w1 c w2 b).
  { unfold replace. cbv zeta. unfold all_matches.
    rewrite all_from_S, exec_0, chars_commented.
    replace (Js.chars a
             ++ (Js.chars w1 ++ "["%char :: "-"%char :: Js.chars c
                 ++ "-"%char :: "]"%char :: Js.chars w2)
             ++ Js.chars b)
      with (Js.chars a ++ Js.chars w1 ++ "["%char :: "-"%char :: Js.chars c
            ++ "-"%char :: "]"%char :: Js.chars w2 ++ Js.chars b)
      by (by flat).
    rewrite no_comment_commented;
      try (by apply free_of_elem); try (by apply blank_spaces);
      try (by apply chars_ne).
    cbn [replace_from]. rewrite drop_0.
    replace (Js.chars a ++ Js.chars w1 ++ "["%char :: "-"%char :: Js.chars c
             ++ "-"%char :: "]"%char :: Js.chars w2 ++ Js.chars b)
      with (Js.chars (commented a w1 c w2 b))
      by (rewrite chars_commented; by flat).
    apply str_chars. }
  rewrite E1. unfold replace. cbv zeta.
  rewrite (all_matches_one_at Tokens.blockComment _ _ _ _
             (MState (Js.chars b)
                (length (Js.chars a) + length (Js.chars w1) + 2
                 + length (Js.chars c) + 2 + length (Js.chars w2)) ∅)
             (chars_commented a w1 c w2 b)).
  - cbn [replace_from pos Js.chars list_ascii_of_string].
    rewrite Nat.sub_0_r, drop_0, chars_commented, take_app_length.
    replace (length (Js.chars a) + length (Js.chars w1) + 2
             + length (Js.chars c) + 2 + length (Js.chars w2))
      with (length (Js.chars a
                    ++ (Js.chars w1 ++ "["%char :: "-"%char :: Js.chars c
                        ++ "-"%char :: "]"%char :: Js.chars w2)))
      by (lengths; lia).
    rewrite (app_assoc (Js.chars a) _ (Js.chars b)), drop_app_length.
    by rewrite str_app, (str_app [" "%char]), !str_chars.
  - intros i Hi. apply block_not_inside; [|by apply tight_end_last|done].
    by apply free_of_elem.
  - rewrite <- walk_block;
      [f_equal; by flat|by apply blank_spaces|by apply free_of_elem
      |by apply blank_spaces|by apply tight_start_head].
  - cbn [pos]. lengths. lia.
  - by destruct (Js.chars w1).
  - apply (search_requires bracket); [reflexivity|]. by apply free_of_spec.
Qed.

End CommentFacts.

(** ** The embedding at work *)

Module Checks.
Import RegExp Parser ParserSpec.

Example number_of_decimal :
  Num.Number (Some "0.1") = S754_finite false 7205759403792794 (-56)
  ∧ Num.Number (Some " 12 ") = Num.of_Z 12
  ∧ Num.Number (Some "0x1F") = Num.of_Z 31
  ∧ Num.Number (Some "1e3") = Num.of_Z 1000
  ∧ Num.Number (Some "") = S754_zero false
  ∧ Num.Number (Some "-0") = S754_zero true
  ∧ Num.Number (Some "1e400") = S754_infinity false
  ∧ Num.Number (Some "1 2") = Num.NaN
  ∧ Num.Number None = Num.NaN.
Proof. repeat split; vm_compute; reflexivity. Qed.

Example half : Num.div (Num.of_Z 1) (Num.of_Z 2)
               = S754_finite false 4503599627370496 (-53).
Proof. vm_compute. reflexivity. Qed.

Example forms_of_one_line :
  matchAll Tokens.tokens "@a{1}(x) #b c{} @salt"
  = [{| index := 0;
        arr := [Some "@a{1}(x)"; None; None; Some "a"; Some "1"; None;
                Some "x"; None; None; None; None; None; None; None] |};
     {| index := 9;
        arr := [Some "#b c{}"; None; None; None; None; None; None; None;
                Some "b c"; Some ""; None; None; None; None] |};
     {| index := 16;
        arr := [Some "@salt"; None; None; None; None; None; None;
                Some "salt"; None; None; None; None; None; None] |}].
Proof. vm_compute. reflexivity. Qed.

Example lines_of_a_text :
  lines_of ("a" +:+ String "013" LF +:+ LF +:+ "  " +:+ LF +:+ "b")
  = ["a"; "b"].
Proof. vm_compute. reflexivity. Qed.

Example comments_are_stripped :
  strip_comments ("a -- b" +:+ LF +:+ "c [- d" +:+ LF +:+ "e -] f")
  = "a " +:+ LF +:+ "c f"
  ∧ parse (new None) ("-- note" +:+ LF +:+ "@salt") = parse (new None) "@salt".
Proof. split; vm_compute; reflexivity. Qed.

Example step_numbers :
  steps <$> parse (new (Some {| opt_defaultCookwareAmount := None;
                               opt_defaultIngredientAmount := None;
                               opt_includeStepNumber := Some true |}))
              ("Wash." +:+ LF +:+ ">> time: 1h" +:+ LF +:+ "Add @salt.")
  = Ok [[Text "Wash."];
        [Text "Add ";
         AnIngredient {| Ingredient.name := "salt";
                         Ingredient.quantity := Textual "some";
                         Ingredient.units := "";
                         Ingredient.preparation := None;
                         Ingredient.step := Some 1 |};
         Text "."]].
Proof. vm_compute. reflexivity. Qed.

End Checks.

(** ** The claims of the specification *)

Module Claims.
Import RegExp Parser ParserSpec ParserFacts.

(** C1.  The claim: a recognized shopping-list block is excised from the
    working text before the steps are parsed, and the text around it is
    kept.  The code: the pattern matches the block (first part), yet the
    loop passes over it, because the name is looked up as the fourteenth
    element of a match that has three; the text is left as it was, and the
    lines of the block come out as steps of their own (second part).  It
    is so for every text: the loop returns the text it was given (third
    part). *)
Theorem shopping_block_stays_in_the_steps :
  matchAll Tokens.shoppingList (strip_comments recipe_with_list)
  = [{| index := 4;
        arr := [Some (LF +:+ LF +:+ "[produce]" +:+ LF +:+ "onion|onions"
                      +:+ LF +:+ "garlic" +:+ LF +:+ LF);
                Some "produce";
                Some ("onion|onions" +:+ LF +:+ "garlic")] |}]
  ∧ parse (new None) recipe_with_list
    = Ok {| ingredients := [];
            cookwares := [];
            metadata := ∅;
            steps := [[Text "Mix."]; [Text "[produce]"];
                      [Text "onion|onions"]; [Text "garlic"];
                      [Text "Serve."]];
            shoppingList := ∅ |}
  ∧ ∀ source,
      shoppingLists (matchAll Tokens.shoppingList source) ∅ source
      = Ok (∅, source).
Proof.
  split; [vm_compute; reflexivity|]. split; [vm_compute; reflexivity|].
  exact shoppingLists_unchanged.
Qed.

(** C4.  The claim: the block [[produce]] with the item lines
    [onion|onions] and [garlic] yields these two items under the key
    [produce].  The code: parseShoppingListCategory does build the two items
    from the item lines (first part), but Parser.parse never calls it, and
    the mapping of the result has no entry for [produce] (second part): it
    is empty, as it is for every configuration and every text (third
    part). *)
Theorem shopping_list_stays_empty :
  parseShoppingListCategory ("onion|onions" +:+ LF +:+ "garlic")
  = [{| name := "onion"; synonym := "onions" |};
     {| name := "garlic"; synonym := "" |}]
  ∧ (∃ r, parse (new None) recipe_with_list = Ok r
          ∧ shoppingList r !! "produce" = None)
  ∧ ∀ this source, ∃ r, parse this source = Ok r ∧ shoppingList r = ∅.
Proof.
  split; [vm_compute; reflexivity|]. split.
  - eexists. split; [vm_compute; reflexivity|reflexivity].
  - intros this source.
    destruct (parse_well_formed this source) as (v & _ & _ & ->).
    by eexists.
Qed.

(** C2, the counterexample.  The right part of [1/0] starts with a zero,
    and yet the result is the number 1, not the text [1/0]. *)
Lemma quantity_with_zero_denominator :
  Js.startsWith "0" "0" = true
  ∧ parseQuantity (Some "1/0") = Some (Numeric (Num.of_Z 1))
  ∧ parseQuantity (Some "1/0") ≠ Some (Textual "1/0").
Proof.
  split; [reflexivity|]. split; [vm_compute; reflexivity|].
  vm_compute. discriminate.
Qed.

(** C2, as amended.  parseQuantity trims its input [raw] into [q].  A blank
    [q] is unresolved.  Otherwise, with [left] and [right] the first two
    pieces of [q] split on [/]: a right part that is there, is not empty
    and is not a number gives [q] as text; a left part that is a number,
    with the right part absent or of value zero, gives the value of the
    left part; two numbers, the right one not zero, give their quotient
    when neither part starts with a zero and [q] as text when one does; a
    left part that is not a number gives [q] as text.  So [1/2] is 0.5,
    [01/2] stays [01/2], [1/0] is 1, the empty string is unresolved and
    [abc] stays [abc]. *)
Theorem parseQuantity_cases (raw : string) :
  let q := Js.trim raw in
  let left := default "" (Js.split q "/" !! 0) in
  let right := Js.split q "/" !! 1 in
  let numLeft := Num.Number (Some left) in
  let numRight := Num.Number right in
  parseQuantity None = None
  ∧ (q = "" → parseQuantity (Some raw) = None)
  ∧ (q ≠ "" →
       (Js.truthy_opt right = true → Num.isNaN numRight = true →
          parseQuantity (Some raw) = Some (Textual q))
       ∧ (Num.isNaN numLeft = false →
          right = None ∨ is_zero numRight = true →
          parseQuantity (Some raw) = Some (Numeric numLeft))
       ∧ (Num.isNaN numLeft = false → Num.isNaN numRight = false →
          is_zero numRight = false →
          Js.startsWith left "0" = false →
          Js.startsWith (default "" right) "0" = false →
          parseQuantity (Some raw)
          = Some (Numeric (Num.div numLeft numRight)))
       ∧ (Num.isNaN numLeft = false → Num.isNaN numRight = false →
          is_zero numRight = false →
          Js.startsWith left "0" = true
          ∨ Js.startsWith (default "" right) "0" = true →
          parseQuantity (Some raw) = Some (Textual q))
       ∧ (Num.isNaN numLeft = true →
          parseQuantity (Some raw) = Some (Textual q)))
  ∧ parseQuantity (Some "1/2")
    = Some (Numeric (Num.div (Num.of_Z 1) (Num.of_Z 2)))
  ∧ parseQuantity (Some "01/2") = Some (Textual "01/2")
  ∧ parseQuantity (Some "1/0") = Some (Numeric (Num.of_Z 1))
  ∧ parseQuantity (Some "") = None
  ∧ parseQuantity (Some "abc") = Some (Textual "abc").
Proof.
  cbv zeta. split; [reflexivity|].
  split; [by intros ?; apply parseQuantity_None|].
  split; [|repeat split; vm_compute; reflexivity].
  intros Hq. rewrite (parseQuantity_eq raw Hq). cbv zeta.
  set (q := Js.trim raw).
  set (left := default "" (Js.split q "/" !! 0)).
  set (right := Js.split q "/" !! 1).
  assert (Hz : ∀ x, Num.falsy x = Num.isNaN x || is_zero x) by (by intros []).
  rewrite Hz.
  repeat split.
  - by intros -> ->.
  - intros -> [->|Hzero]; simpl; [done|].
    rewrite Hzero, orb_true_r. simpl.
    destruct (Num.Number right); try done. by rewrite andb_false_r.
  - intros -> -> -> -> ->. simpl. by rewrite andb_false_r.
  - intros -> -> -> Hs. simpl. rewrite andb_false_r.
    by destruct Hs as [-> | ->]; rewrite ?orb_true_r.
  - intros ->. simpl. by destruct (Js.truthy_opt right && _).
Qed.

(** C2, at the quantity [ 1/2 ], with white space around it: two numbers
    without a zero in front, hence their quotient. *)
Lemma parseQuantity_cases_witness :
  Js.trim " 1/2 " ≠ ""
  ∧ parseQuantity (Some " 1/2 ")
    = Some (Numeric (Num.div (Num.Number (Some "1")) (Num.Number (Some "2")))).
Proof.
  split; [vm_compute; discriminate|].
  destruct (parseQuantity_cases " 1/2 ") as (_ & _ & H & _).
  destruct H as (_ & _ & H & _); [vm_compute; discriminate|].
  apply H; vm_compute; reflexivity.
Defined.

(** C3, the counterexample.  In [~eggs{}] the timer form matches, with the
    name [eggs] and the empty quantity, and no item comes of it: the result
    has no step at all. *)
Lemma timer_with_empty_braces :
  matchAll Tokens.tokens "~eggs{}"
  = [{| index := 0;
        arr := [Some "~eggs{}"; None; None; None; None; None; None; None;
                None; None; None; Some "eggs"; Some ""; None] |}]
  ∧ parse (new None) "~eggs{}"
    = Ok {| ingredients := []; cookwares := []; metadata := ∅; steps := [];
            shoppingList := ∅ |}
  ∧ ¬ ∃ r s t, parse (new None) "~eggs{}" = Ok r ∧ s ∈ steps r ∧ ATimer t ∈ s.
Proof.
  split; [vm_compute; reflexivity|]. split; [vm_compute; reflexivity|].
  intros (r & s & t & H & Hs & _). vm_compute in H. injection H as <-.
  simpl in Hs. by apply not_elem_of_nil in Hs.
Qed.

(** C3, as amended.  For every match [m] of a line in which the timer
    quantity (group 12) is defined and not empty, as [q]: the loop body
    pushes the text before the match and then one Timer, whose name is
    group 11, whose quantity is the parseQuantity value of [q], 0 and not
    the default of the configuration when that is unresolved, which is
    when [q] is blank, and whose units are those of group 13, the empty
    string when absent or blank.  Neither the flat lists nor any other
    variable of the parse change. *)
Theorem timer_items (options : option ParserOptions) (line : string)
  (i : nat) (m : MatchArray) (v : vars) (step : Step) (pos : nat)
  (q : string) :
  matchAll Tokens.tokens line !! i = Some m →
  at_index m 12 = Some q →
  Js.truthy q = true →
  on_match (new options) line m v step pos
  = Ok (Scanned v
          (step ++ gap line pos m
           ++ [ATimer {| Timer.name := at_index m 11;
                         Timer.quantity :=
                           default (Numeric (Num.of_Z 0))
                             (parseQuantity (Some q));
                         Timer.units :=
                           default "" (parseUnits (at_index m 13)) |}])
          (after m))
  ∧ (parseQuantity (Some q) = None ↔ Js.trim q = "")
  ∧ (parseUnits (at_index m 13) = None
     ↔ ∀ u, at_index m 13 = Some u → Js.trim u = "").
Proof.
  intros Hm Hq Ht. split; [|split].
  - rewrite (on_match_timer _ _ _ _ _ _ _ _ Hm Hq), Ht. reflexivity.
  - apply parseQuantity_None.
  - apply parseUnits_None.
Qed.

(** C3, at the line [Boil for ~eggs{ }]: a Timer of quantity 0. *)
Lemma timer_items_witness :
  matchAll Tokens.tokens "Boil for ~eggs{ }"
    !! 0 = Some {| index := 9;
                   arr := [Some "~eggs{ }"; None; None; None; None; None;
                           None; None; None; None; None; Some "eggs";
                           Some " "; None] |}
  ∧ on_match (new None) "Boil for ~eggs{ }"
      {| index := 9;
         arr := [Some "~eggs{ }"; None; None; None; None; None;
                 None; None; None; None; None; Some "eggs";
                 Some " "; None] |} initial [] 0
    = Ok (Scanned initial
            [Text "Boil for ";
             ATimer {| Timer.name := Some "eggs";
                       Timer.quantity := Numeric (Num.of_Z 0);
                       Timer.units := "" |}] 17).
Proof.
  split; [vm_compute; reflexivity|].
  refine (proj1 (timer_items None "Boil for ~eggs{ }" 0 _ initial [] 0 " "
                   _ _ _)); vm_compute; reflexivity.
Defined.

(** C5.  For every configuration and every source, [parse] returns a
    result whose flat list of ingredients is the concatenation, step after
    step and in the order of the items, of the ingredients in its steps,
    and whose flat list of cookware is that of the cookware in its steps
    (first part).  Nothing is merged: an ingredient named twice is there
    twice, in its steps and in the flat list (second part). *)
Theorem flat_lists_follow_the_steps :
  (∀ this source,
     ∃ r, parse this source = Ok r
          ∧ ingredients r = concat (ingredients_in <$> steps r)
          ∧ cookwares r = concat (cookwares_in <$> steps r))
  ∧ (let salt :=
       {| Ingredient.name := "salt"; Ingredient.quantity := Textual "some";
          Ingredient.units := ""; Ingredient.preparation := None;
          Ingredient.step := None |} in
     parse (new None) ("@salt" +:+ LF +:+ "@salt")
     = Ok {| ingredients := [salt; salt];
             cookwares := [];
             metadata := ∅;
             steps := [[AnIngredient salt]; [AnIngredient salt]];
             shoppingList := ∅ |}).
Proof.
  split; [|vm_compute; reflexivity].
  intros this source.
  destruct (parse_well_formed this source) as (v & _ & [I C _ _ _] & ->).
  eexists. split; [done|]. by split.
Qed.

(** C6.  [Fry the @onion{2%cups} in a #pan for ~{5%minutes}.] with the
    default configuration gives one step of seven items: the text, the
    onion (2, cups), the text, the pan (1, the default), the text, the
    timer without a name (5, minutes) and the full stop; the onion is the
    only ingredient of the flat list and the pan the only cookware. *)
Theorem fry_the_onion :
  let onion :=
    {| Ingredient.name := "onion"; Ingredient.quantity := Numeric (Num.of_Z 2);
       Ingredient.units := "cups"; Ingredient.preparation := None;
       Ingredient.step := None |} in
  let pan :=
    {| Cookware.name := "pan"; Cookware.quantity := Numeric (Num.of_Z 1);
       Cookware.step := None |} in
  parse (new None) "Fry the @onion{2%cups} in a #pan for ~{5%minutes}."
  = Ok {| ingredients := [onion];
          cookwares := [pan];
          metadata := ∅;
          steps := [[Text "Fry the "; AnIngredient onion; Text " in a ";
                     ACookware pan; Text " for ";
                     ATimer {| Timer.name := Some "";
                               Timer.quantity := Numeric (Num.of_Z 5);
                               Timer.units := "minutes" |};
                     Text "."]];
          shoppingList := ∅ |}.
Proof. vm_compute. reflexivity. Qed.

(** C10.  In [~foo @x{1}] the name of the timer runs up to the first
    brace: the line has one match, of the timer form, with the name
    [foo @x] and the quantity [1] (first part); it gives one Timer of this
    name and quantity 1, and no ingredient (second part). *)
Theorem timer_name_runs_to_the_first_brace :
  matchAll Tokens.tokens "~foo @x{1}"
  = [{| index := 0;
        arr := [Some "~foo @x{1}"; None; None; None; None; None; None; None;
                None; None; None; Some "foo @x"; Some "1"; None] |}]
  ∧ parse (new None) "~foo @x{1}"
    = Ok {| ingredients := [];
            cookwares := [];
            metadata := ∅;
            steps := [[ATimer {| Timer.name := Some "foo @x";
                                 Timer.quantity := Numeric (Num.of_Z 1);
                                 Timer.units := "" |}]];
            shoppingList := ∅ |}.
Proof. split; vm_compute; reflexivity. Qed.



(** C8.  [parse] returns a result for every configuration and every
    source (first part).  createNamedGroups throws for no form of its
    table, which has seven, and throws for a form that is not in it, with a
    message that names the form (second and third part); the body of the
    loop over the matches (fourth part) and the loop over the shopping
    lists (fifth part), which name forms of the table only, never throw. *)
Theorem parse_never_throws :
  (∀ this source, ∃ r, parse this source = Ok r)
  ∧ (∀ m type message,
       createNamedGroups m type = Throw message → type ∉ forms)
  ∧ (∀ m, createNamedGroups (Some m) "cookware"
          = Throw "Unknown regex type: cookware")
  ∧ (∀ this line m v step pos, ∃ s, on_match this line m v step pos = Ok s)
  ∧ (∀ ms shoppingList source,
       ∃ r, shoppingLists ms shoppingList source = Ok r).
Proof.
  split; [|split; [|split; [|split]]].
  - intros this source. rewrite parse_eq.
    destruct (stepLoop_total this (lines_of (strip_comments source)) initial)
      as (v & ->). by eexists.
  - intros m type message H.
    apply (createNamedGroups_throws m type). by exists message.
  - reflexivity.
  - intros. rewrite on_match_eq. by eexists.
  - apply shoppingLists_total.
Qed.

(** C9.  For every configuration and every source: the steps of the result
    are those the step loop ends with; none of them is empty; the counter
    ends as their number; and every ingredient and every cookware of the
    step of index [i] carries the step [i] when step numbers are asked for
    (and none otherwise) (first part).  A line either leaves the steps and
    the counter as they are, or appends one step that is not empty and
    adds one to the counter (second part). *)
Theorem steps_are_numbered (this : t) :
  (∀ source,
     ∃ v, stepLoop this (lines_of (strip_comments source)) initial = Ok v
          ∧ parse this source
            = Ok {| ingredients := v_ingredients v;
                    cookwares := v_cookwares v;
                    metadata := v_metadata v;
                    steps := v_steps v;
                    shoppingList := ∅ |}
          ∧ Forall (λ s, s ≠ []) (v_steps v)
          ∧ v_stepNumber v = length (v_steps v)
          ∧ ∀ i s, v_steps v !! i = Some s →
                   Forall (numbered (if includeStepNumber this
                                     then Some i else None)) s)
  ∧ (∀ v line,
       ∃ v', on_line this v line = Ok v'
             ∧ ((v_steps v' = v_steps v ∧ v_stepNumber v' = v_stepNumber v)
                ∨ ∃ step, step ≠ [] ∧ v_steps v' = v_steps v ++ [step]
                          ∧ v_stepNumber v' = S (v_stepNumber v))).
Proof.
  split; [|apply on_line_counter].
  intros source.
  destruct (parse_well_formed this source) as (v & E & [_ _ N Ne S] & P).
  exists v. by repeat split.
Qed.

End Claims.

(** ** Further properties of the code *)

Module Properties.
Import RegExp RegExpSpec RegExpFacts Parser ParserSpec ParserFacts.
Import FurtherSpec FurtherRegExpFacts NumFacts FurtherParserFacts FormFacts.
Import CommentFacts.

(** X1.  The matches that [matchAll] finds in a line come one after the
    other: each starts at or after the end of the one before, and ends
    inside the line.  The pieces of text that the step loop takes before,
    between and after the matches, with the matched texts, put the line
    together again: nothing of a line is lost or read twice. *)
Theorem matches_tile_the_line (r : regex) (line : string) :
  in_order (String.length line) (matchAll r line) 0
  ∧ covered line (matchAll r line) 0 = line.
Proof.
  unfold matchAll, all_matches. split.
  - rewrite <- length_chars. by apply all_from_in_order.
  - rewrite (all_from_covered r line _ 0 0) by done.
    unfold Js.substring_from. rewrite drop_0. apply str_chars.
Qed.

(** X2.  A source without a hyphen has no comment, and the removal of
    the comments gives it back as it is. *)
Theorem no_hyphen_no_comment (source : string) :
  free_of hyphen source = true → strip_comments source = source.
Proof. apply no_hyphen. Qed.

Lemma no_hyphen_no_comment_witness :
  strip_comments "Mix the @flour{200%g} and the @salt." 
  = "Mix the @flour{200%g} and the @salt.".
Proof. apply no_hyphen_no_comment. reflexivity. Defined.

(** X3.  The lines of a text that are joined by line feeds, none of them
    with a carriage return or a line feed inside, are the lines that [parse]
    goes through, the blank ones left out. *)
Theorem lines_of_joined (lines : list string) :
  Forall (λ l, free_of terminators l = true) lines →
  lines_of (joined lines)
  = List.filter (λ l, 0 <? String.length (Js.trim l)) lines.
Proof. apply lines_joined. Qed.

Lemma lines_of_joined_witness :
  lines_of (joined ["Mix."; "  "; ""; "Serve."]) = ["Mix."; "Serve."].
Proof.
  apply (lines_of_joined ["Mix."; "  "; ""; "Serve."]).
  repeat constructor.
Defined.

(** X4.  A text without markup is returned line by line: when no line has
    one of [@ # ~ >], a hyphen, a carriage return or a line feed, the steps
    are the lines that are not blank, each as one text item, as it was
    written, and nothing else comes of the text. *)
Theorem plain_text_line_by_line (this : t) (lines : list string) :
  Forall (λ l, free_of (markup ++ hyphen ++ terminators) l = true) lines →
  parse this (joined lines)
  = Ok {| ingredients := [];
          cookwares := [];
          metadata := ∅;
          steps := (λ l, [Text l])
                   <$> List.filter (λ l, 0 <? String.length (Js.trim l)) lines;
          shoppingList := ∅ |}.
Proof.
  intros F. rewrite parse_eq.
  assert (Hsub : ∀ cs, cs ⊆ markup ++ hyphen ++ terminators →
                       Forall (λ l, free_of cs l = true) lines).
  { intros cs Hcs. eapply Forall_impl; [exact F|].
    intros l. by apply free_of_subseteq. }
  assert (H1 : markup ⊆ markup ++ hyphen ++ terminators)
    by (intros c Hc; rewrite !elem_of_app; auto).
  assert (H2 : hyphen ⊆ markup ++ hyphen ++ terminators)
    by (intros c Hc; rewrite !elem_of_app; auto).
  assert (H3 : terminators ⊆ markup ++ hyphen ++ terminators)
    by (intros c Hc; rewrite !elem_of_app; auto).
  rewrite no_hyphen by (apply free_of_joined; [done|by apply Hsub]).
  rewrite lines_joined by (by apply Hsub).
  rewrite stepLoop_text; [reflexivity|].
  apply Forall_forall. intros l Hl.
  apply list_elem_of_In, filter_In in Hl as [Hl Hb].
  apply list_elem_of_In in Hl. split.
  - by apply (proj1 (Forall_forall _ _) (Hsub markup H1) l).
  - intros ->. by rewrite trim_nil in Hb.
Qed.

Lemma plain_text_line_by_line_witness :
  parse (new None) (joined ["Wash the rice."; ""; "Boil it, 10 min."])
  = Ok {| ingredients := [];
          cookwares := [];
          metadata := ∅;
          steps := [[Text "Wash the rice."]; [Text "Boil it, 10 min."]];
          shoppingList := ∅ |}.
Proof.
  apply (plain_text_line_by_line (new None)
           ["Wash the rice."; ""; "Boil it, 10 min."]).
  repeat constructor.
Defined.

(** X5.  Whatever the source, the items of the result are well formed: no
    text item is empty; every ingredient and every cookware has a name that
    is not empty; a preparation is never the empty string; and a quantity
    or a unit is the default, a number, or a text that is not empty and has
    no white space at either end.  This holds of the items of the steps and
    of the flat lists. *)
Theorem items_are_proper (this : t) (source : string) :
  ∃ r, parse this source = Ok r
       ∧ Forall (Forall (proper this)) (steps r)
       ∧ Forall (λ i, proper this (AnIngredient i)) (ingredients r)
       ∧ Forall (λ c, proper this (ACookware c)) (cookwares r).
Proof.
  apply parse_items; [done|]. intros line n m _. apply items_of_proper.
Qed.

(** X6.  A line gives at most one step: the result has no more steps
    than the source, its comments removed, has lines that are not blank. *)
Theorem at_most_one_step_a_line (this : t) (source : string) :
  ∃ r, parse this source = Ok r
       ∧ length (steps r) ≤ length (lines_of (strip_comments source)).
Proof.
  destruct (parse_well_formed this source) as (v & Hv & _ & ->).
  eexists. split; [done|]. cbn. by apply stepLoop_steps_le in Hv.
Qed.

(** X7.  Every entry of the metadata of the result comes from a line of the
    source: a line that starts with [>>], at its first column, and whose
    key and value, trimmed, are those of the entry. *)
Theorem metadata_come_from_lines (this : t) (source : string) :
  ∃ r, parse this source = Ok r
       ∧ ∀ key value, metadata r !! key = Some value →
           ∃ line, line ∈ lines_of (strip_comments source)
                   ∧ Js.startsWith line ">>" = true
                   ∧ metadata_entry line = Some (key, value).
Proof.
  rewrite parse_eq.
  destruct (stepLoop_metadata this (lines_of (strip_comments source)) initial)
    as (v & -> & Hmd).
  eexists. split; [done|]. cbn. intros key value H. rewrite Hmd in H.
  apply record_all_from in H as [H|(line & Hl & E)]; [done|].
  exists line. split; [done|]. split; [|done].
  by eapply metadata_entry_prefix.
Qed.

Lemma metadata_come_from_lines_witness :
  ∃ r, parse (new None) (joined [">> servings: 4"; "Mix."]) = Ok r
       ∧ ∃ line, line ∈ lines_of (strip_comments
                                    (joined [">> servings: 4"; "Mix."]))
                 ∧ Js.startsWith line ">>" = true
                 ∧ metadata_entry line = Some ("servings", "4").
Proof.
  destruct (metadata_come_from_lines (new None)
              (joined [">> servings: 4"; "Mix."])) as (r & Hr & H).
  exists r. split; [exact Hr|]. apply H.
  vm_compute in Hr. injection Hr as <-. reflexivity.
Defined.

(** X8.  The option includeStepNumber adds the step numbers and changes
    nothing else: the result without the option is the result with it, the
    step fields of the ingredients and of the cookware taken away. *)
Theorem step_numbers_change_nothing_else (this : t) (source : string) :
  parse (without_numbers this) source
  = unnumbered_result <$> parse this source.
Proof.
  rewrite !parse_eq.
  pose proof (stepLoop_unnumbered this (lines_of (strip_comments source))
                initial) as H.
  change (unnumbered_vars initial) with initial in H. rewrite H.
  by destruct (stepLoop this (lines_of (strip_comments source)) initial).
Qed.

(** X9.  A quantity that parseQuantity returns as a text is the quantity
    that was written, its white space at both ends removed; it is not
    empty, and parseQuantity returns it as it is when it is given again. *)
Theorem quantity_as_text (raw t : string) :
  parseQuantity (Some raw) = Some (Textual t) →
  t = Js.trim raw ∧ t ≠ "" ∧ no_space_at_ends t
  ∧ parseQuantity (Some t) = Some (Textual t).
Proof.
  intros H. destruct (parseQuantity_text _ _ H) as [-> Hne].
  split; [done|]. split; [done|]. split; [apply trim_no_space|].
  by rewrite <- parseQuantity_trim.
Qed.

Lemma quantity_as_text_witness :
  " a pinch " ≠ "" ∧ "a pinch" = Js.trim " a pinch "
  ∧ parseQuantity (Some "a pinch") = Some (Textual "a pinch").
Proof.
  split; [done|].
  destruct (quantity_as_text " a pinch " "a pinch") as (E & _ & _ & H);
    [reflexivity|].
  split; [exact E|exact H].
Defined.

(** X10.  White space around a quantity or a unit does not count:
    parseQuantity and parseUnits give for a text what they give for the
    text trimmed. *)
Theorem white_space_around_does_not_count (s : string) :
  parseQuantity (Some s) = parseQuantity (Some (Js.trim s))
  ∧ parseUnits (Some s) = parseUnits (Some (Js.trim s)).
Proof. split; [apply parseQuantity_trim|apply parseUnits_trim]. Qed.

(** X11.  The units that parseUnits returns are the units that were
    written, trimmed: they are not empty and have no white space at either
    end. *)
Theorem units_are_trimmed (u t : string) :
  parseUnits (Some u) = Some t →
  t = Js.trim u ∧ t ≠ "" ∧ no_space_at_ends t.
Proof.
  unfold parseUnits.
  destruct (negb (Js.truthy u) || String.eqb (Js.trim u) "") eqn:E; [done|].
  intros [= <-]. split; [done|]. split; [|apply trim_no_space].
  intros H. apply blank_test in H. congruence.
Qed.

Lemma units_are_trimmed_witness :
  "cups" = Js.trim "  cups " ∧ "cups" ≠ "" ∧ no_space_at_ends "cups".
Proof. apply (units_are_trimmed "  cups " "cups"). reflexivity. Defined.

(** X12.  For a form of its table, createNamedGroups returns an object
    that has, under the name of each group of the form, the text the group
    captured, and no key for a group that took no part in the match or for
    any other name. *)
Theorem named_groups_are_the_captures (m : MatchArray) (type : string)
  (mapping : list (string * nat)) :
  mapping_of type = Some mapping →
  ∃ g, createNamedGroups (Some m) type = Ok (Some g)
       ∧ ∀ name, g !! name = group_index mapping name ≫= at_index m.
Proof.
  intros H. unfold createNamedGroups. rewrite H. eexists. split; [done|].
  intros name. rewrite (foldl_groups m mapping (mapping_NoDup _ _ H)).
  rewrite lookup_empty. by destruct (group_index mapping name ≫= at_index m).
Qed.

Lemma named_groups_are_the_captures_witness :
  ∃ g, createNamedGroups
         (Some {| index := 0;
                  arr := [Some "~{5}"; None; None; None; None; None; None;
                          None; None; None; None; Some ""; Some "5"; None] |})
         "timer" = Ok (Some g)
       ∧ g !! "timerName" = Some "" ∧ g !! "timerQuantity" = Some "5"
       ∧ g !! "timerUnits" = None ∧ g !! "name" = None.
Proof.
  destruct (named_groups_are_the_captures
              {| index := 0;
                 arr := [Some "~{5}"; None; None; None; None; None; None;
                         None; None; None; None; Some ""; Some "5"; None] |}
              "timer"
              [("timerName", 11); ("timerQuantity", 12); ("timerUnits", 13)]
              eq_refl) as (g & Hg & H).
  exists g. split; [exact Hg|]. by rewrite !H.
Defined.

(** X13.  parseShoppingListCategory reads its text line by line: the items
    of two texts joined by a line feed are the items of the first followed
    by the items of the second. *)
Theorem category_line_by_line (a b : string) :
  parseShoppingListCategory (a +:+ LF +:+ b)
  = parseShoppingListCategory a ++ parseShoppingListCategory b.
Proof.
  rewrite !parseShoppingListCategory_eq.
  change (a +:+ LF +:+ b) with (a +:+ String "010" b).
  by rewrite split_app, omap_app.
Qed.

(** X14.  A quantity that parseQuantity returns as a number is a number
    indeed, and not NaN, with one exception: the quotient of two parts that
    both are infinite, as in [Infinity/Infinity], is returned, and is NaN. *)
Theorem numeric_quantity_is_a_number (raw : string) (x : Num.number) :
  let q := Js.trim raw in
  let left := default "" (Js.split q "/" !! 0) in
  let right := Js.split q "/" !! 1 in
  parseQuantity (Some raw) = Some (Numeric x) →
  (Num.isNaN x = false
   ∨ ∃ s1 s2, Num.Number (Some left) = S754_infinity s1
              ∧ Num.Number right = S754_infinity s2)
  ∧ parseQuantity (Some "Infinity/Infinity") = Some (Numeric Num.NaN).
Proof.
  cbv zeta. intros H. split; [|by vm_compute].
  destruct (decide (Js.trim raw = "")) as [E|E].
  { apply parseQuantity_None in E. congruence. }
  rewrite (parseQuantity_eq raw E) in H. cbv zeta in H.
  set (numLeft := Num.Number (Some (default "" (Js.split (Js.trim raw) "/"
                                                !! 0)))) in *.
  set (numRight := Num.Number (Js.split (Js.trim raw) "/" !! 1)) in *.
  destruct (Js.truthy_opt (Js.split (Js.trim raw) "/" !! 1)
            && Num.isNaN numRight); [done|].
  destruct (Num.isNaN numLeft) eqn:EL; cbn [negb andb] in H; [done|].
  destruct (Num.falsy numRight) eqn:F.
  { injection H as <-. by left. }
  destruct (Num.isNaN numRight) eqn:ER; cbn [negb andb] in H; [done|].
  destruct (negb _); [|done]. injection H as <-.
  destruct (Num.isNaN (Num.div numLeft numRight)) eqn:EN; [|by left].
  right. apply div_nan in EN as [EN|[EN|[EN|(s1 & s2 & _ & EN)]]].
  - congruence.
  - congruence.
  - exact EN.
  - rewrite EN in F. discriminate F.
Qed.

Lemma numeric_quantity_is_a_number_witness :
  Num.isNaN (Num.div (Num.of_Z 1) (Num.of_Z 3)) = false
  ∨ ∃ s1 s2, Num.Number (Some "1") = S754_infinity s1
             ∧ Num.Number (Some "3") = S754_infinity s2.
Proof.
  refine (proj1 (numeric_quantity_is_a_number " 1/3"
                   (Num.div (Num.of_Z 1) (Num.of_Z 3)) _)).
  vm_compute. reflexivity.
Defined.

(** X15.  A quantity written as a whole number in decimal digits is that
    number, as the binary64 value nearest to it; zeros in front do not
    matter. *)
Theorem whole_number_quantity (ds : list ascii) :
  ds ≠ [] → forallb is_digit ds = true →
  parseQuantity (Some (Js.str ds))
  = Some (Numeric (Num.of_Z (decimal_value ds))).
Proof.
  intros Hne H.
  assert (Ht : Js.trim (Js.str ds) = Js.str ds).
  { unfold Js.trim. by rewrite chars_str, trim_digits. }
  assert (Hs : Js.split (Js.str ds) "/" = [Js.str ds]).
  { unfold Js.split. rewrite chars_str, split_chars_none; [done|].
    intros c Hc. apply digit_is_not; [done|].
    apply list_elem_of_In in Hc.
    by apply (proj1 (forallb_forall _ _) H). }
  rewrite parseQuantity_eq by (rewrite Ht; by destruct ds).
  cbv zeta. rewrite Ht, Hs.
  change ([Js.str ds] !! 0) with (Some (Js.str ds)).
  change ([Js.str ds] !! 1) with (@None string).
  change (default "" (Some (Js.str ds))) with (Js.str ds).
  rewrite (Number_digits ds Hne H), of_Z_not_nan. reflexivity.
Qed.

Lemma whole_number_quantity_witness :
  parseQuantity (Some "0250") = Some (Numeric (Num.of_Z 250)).
Proof.
  apply (whole_number_quantity (Js.chars "0250")); [done|reflexivity].
Defined.

(** X16.  No name of an ingredient or of a cookware has one of the
    characters [@], [#] and [[] in it: a name never runs into the next
    ingredient or cookware.  (The name of a timer may: it runs up to the
    first brace.)  This holds of the items of the steps and of the flat
    lists. *)
Theorem names_have_no_reserved_character (this : t) (source : string) :
  ∃ r, parse this source = Ok r
       ∧ Forall (Forall well_named) (steps r)
       ∧ Forall (λ i, free_of reserved (Ingredient.name i) = true)
           (ingredients r)
       ∧ Forall (λ c, free_of reserved (Cookware.name c) = true)
           (cookwares r).
Proof.
  apply (parse_items this well_named); [done|]. intros line n m.
  apply items_of_well_named.
Qed.

(** X17.  Texts compose.  For lines without a hyphen and without a line
    terminator inside: the result of the lines of one text followed by the
    lines of another has the steps, the ingredients and the cookware of the
    first and then those of the second, the step numbers of the second
    counted on from the steps of the first; where both texts set an entry
    of the metadata, the second wins. *)
Theorem texts_compose (this : t) (lines1 lines2 : list string) :
  Forall (λ l, free_of (hyphen ++ terminators) l = true) (lines1 ++ lines2) →
  ∃ r1 r2, parse this (joined lines1) = Ok r1
           ∧ parse this (joined lines2) = Ok r2
           ∧ parse this (joined (lines1 ++ lines2)) = Ok (after_result r1 r2).
Proof.
  intros F. pose proof F as F'. apply Forall_app in F' as [F1 F2].
  rewrite !parse_joined by done. rewrite List.filter_app.
  destruct (stepLoop_two this
              (List.filter (λ l, 0 <? String.length (Js.trim l)) lines1)
              (List.filter (λ l, 0 <? String.length (Js.trim l)) lines2))
    as (v1 & v2 & -> & -> & Hn & ->).
  exists (result_of v1), (result_of v2). split; [done|]. split; [done|].
  cbn [fmap result_fmap]. f_equal.
  unfold after_result, result_of, after_vars. cbn. by rewrite Hn.
Qed.

Lemma texts_compose_witness :
  ∃ r1 r2,
    parse (new (Some {| opt_defaultCookwareAmount := None;
                        opt_defaultIngredientAmount := None;
                        opt_includeStepNumber := Some true |}))
      (joined [">> time: 1h"; "Wash the @rice."]) = Ok r1
    ∧ parse (new (Some {| opt_defaultCookwareAmount := None;
                          opt_defaultIngredientAmount := None;
                          opt_includeStepNumber := Some true |}))
        (joined [">> time: 2h"; "Boil it in a #pot."]) = Ok r2
    ∧ parse (new (Some {| opt_defaultCookwareAmount := None;
                          opt_defaultIngredientAmount := None;
                          opt_includeStepNumber := Some true |}))
        (joined ([">> time: 1h"; "Wash the @rice."]
                 ++ [">> time: 2h"; "Boil it in a #pot."]))
      = Ok (after_result r1 r2).
Proof.
  apply (texts_compose _ [">> time: 1h"; "Wash the @rice."]
           [">> time: 2h"; "Boil it in a #pot."]).
  repeat constructor.
Defined.

(** X18.  Blank lines do not count: for lines without a hyphen and without
    a line terminator inside, the result is that of the lines that are not
    blank. *)
Theorem blank_lines_do_not_count (this : t) (lines : list string) :
  Forall (λ l, free_of (hyphen ++ terminators) l = true) lines →
  parse this (joined lines)
  = parse this
      (joined (List.filter (λ l, 0 <? String.length (Js.trim l)) lines)).
Proof.
  intros F. rewrite !parse_joined by (done || by apply Forall_filter).
  by rewrite filter_filter.
Qed.

Lemma blank_lines_do_not_count_witness :
  parse (new None) (joined ["Mix."; ""; "   "; "Serve."])
  = parse (new None) (joined ["Mix."; "Serve."]).
Proof.
  apply (blank_lines_do_not_count (new None) ["Mix."; ""; "   "; "Serve."]).
  repeat constructor.
Defined.

(** X19.  A line with one ingredient [@name{q%u}] between two texts makes
    one step: the text before, the ingredient with the name, the quantity
    and the units read from [q] and [u], and the text after; the
    ingredient is the only one of the result.  The texts have none of the
    characters [@], [#], [~] and [>], the name is not empty and has none of
    [@], [#], [~], [[] and [{], the quantity has no [%] and no [}], the
    units are not empty and have no [}], the text after has no [(], and
    the line has no hyphen and no line terminator. *)
Theorem ingredient_with_amount_and_units
  (this : t) (pre name q u post : string) :
  free_of markup pre = true →
  name ≠ "" → free_of ["@"; "#"; "~"; "["; "{"]%char name = true →
  free_of ["%"; "}"]%char q = true →
  u ≠ "" → free_of ["}"]%char u = true →
  free_of ("("%char :: markup) post = true →
  free_of (hyphen ++ terminators) (ingredient_line pre name q u post) = true →
  parse this (ingredient_line pre name q u post)
  = Ok (one_step (text_item pre
                  ++ [AnIngredient (full_ingredient this 0 name q u)]
                  ++ text_item post)).
Proof.
  intros Hpre Hne Hname Hq Hune Hu Hpost Hline.
  destruct (walk_ingredient (Js.chars post) (length (Js.chars pre))
              (Js.chars name) (Js.chars q) (Js.chars u))
    as (cs & Hm & H3 & H4 & H5 & Hn);
    try (by apply chars_ne); try (by apply free_of_elem).
  { intros c l E. pose proof (free_of_elem _ _ Hpost c) as H.
    rewrite E in H. specialize (H ltac:(by left)).
    rewrite not_elem_of_cons in H. rewrite not_elem_of_cons.
    split; [tauto|apply not_elem_of_nil]. }
  assert (E : Js.chars (ingredient_line pre name q u post)
              = Js.chars pre
                ++ ("@"%char :: Js.chars name ++ "{"%char :: Js.chars q
                    ++ "%"%char :: Js.chars u ++ ["}"%char])
                ++ Js.chars post).
  { unfold ingredient_line. rewrite !chars_app.
    cbn [Js.chars list_ascii_of_string]. by flat. }
  pose proof (parse_one_token this _ _ _ _
                (S (S (S (S (length (Js.chars pre)) + length (Js.chars name))
                      + length (Js.chars q)) + length (Js.chars u)))
                cs E) as P.
  rewrite !str_chars in P. apply P; clear P.
  - by apply free_of_elem.
  - intros c Hc. apply (free_of_elem _ _ Hpost) in Hc.
    rewrite not_elem_of_cons in Hc. tauto.
  - rewrite <- Hm. f_equal. by flat.
  - lengths. lia.
  - done.
  - apply Hn. not_among.
  - done.
  - by apply sigil_visible.
  - assert (N : ∀ i, 1 ≤ i → i ∉ [3; 4; 5] →
                at_index (token_at (ingredient_line pre name q u post)
                            (Js.chars pre) (Js.chars post)
                            (S (S (S (S (length (Js.chars pre))
                                      + length (Js.chars name))
                                   + length (Js.chars q))
                                + length (Js.chars u))) cs) i = None).
    { intros i Hi Hni. apply at_index_no_capture; [by apply Hn|done]. }
    unfold items_of, ingredients_of, cookwares_of, timers_of.
    rewrite (N 7), (N 6), (N 10), (N 8), (N 12) by not_among.
    capture H3 (Js.chars pre ++ ["@"%char]) (Js.chars name)
      ("{"%char :: Js.chars q ++ "%"%char :: Js.chars u
       ++ "}"%char :: Js.chars post).
    capture H4 (Js.chars pre ++ "@"%char :: Js.chars name ++ ["{"%char])
      (Js.chars q) ("%"%char :: Js.chars u ++ "}"%char :: Js.chars post).
    capture H5 (Js.chars pre ++ "@"%char :: Js.chars name
                ++ "{"%char :: Js.chars q ++ ["%"%char]) (Js.chars u)
      ("}"%char :: Js.chars post).
    cbn [Js.truthy_opt default from_option id]. by destruct name.
  - done.
Qed.

Lemma ingredient_with_amount_and_units_witness :
  parse (new None) "Add @sea salt{1/2%tsp} and stir."
  = Ok (one_step (text_item "Add "
                  ++ [AnIngredient
                        (full_ingredient (new None) 0 "sea salt" "1/2" "tsp")]
                  ++ text_item " and stir.")).
Proof.
  apply (ingredient_with_amount_and_units (new None)
           "Add " "sea salt" "1/2" "tsp" " and stir."); done.
Defined.

(** X20.  A line with one ingredient [@name{q}] between two texts makes one
    step: the text before, the ingredient with the name, the quantity read
    from [q], the default units and no preparation, and the text after.
    The quantity has no [%] and no [}]; when it is empty or blank the
    ingredient has the default amount. *)
Theorem ingredient_with_amount (this : t) (pre name q post : string) :
  free_of markup pre = true →
  name ≠ "" → free_of ["@"; "#"; "~"; "["; "{"]%char name = true →
  free_of ["%"; "}"]%char q = true →
  free_of ("("%char :: markup) post = true →
  free_of (hyphen ++ terminators) (amount_line "@" pre name q post) = true →
  parse this (amount_line "@" pre name q post)
  = Ok (one_step (text_item pre
                  ++ [AnIngredient (amount_ingredient this 0 name q)]
                  ++ text_item post)).
Proof.
  intros Hpre Hne Hname Hq Hpost Hline.
  assert (Hparen : free_of ["("]%char post = true).
  { eapply free_of_subseteq; [|exact Hpost]. intros c Hc.
    apply elem_of_cons in Hc as [->|Hc]; [by left|].
    by apply not_elem_of_nil in Hc. }
  assert (Hmarkup : free_of markup post = true).
  { eapply free_of_subseteq; [|exact Hpost]. intros c Hc. by right. }
  destruct (walk_amount_ingredient (Js.chars post) (length (Js.chars pre))
              (Js.chars name) (Js.chars q))
    as (cs & Hm & H3 & H4 & Hn);
    try (by apply chars_ne); try (by apply free_of_elem).
  { intros c l E. apply (free_of_elem _ _ Hparen). rewrite E. by left. }
  assert (E : Js.chars (amount_line "@" pre name q post)
              = Js.chars pre
                ++ ("@"%char :: Js.chars name ++ "{"%char :: Js.chars q
                    ++ ["}"%char])
                ++ Js.chars post).
  { unfold amount_line. rewrite !chars_app.
    cbn [Js.chars list_ascii_of_string]. by flat. }
  pose proof (parse_one_token this _ _ _ _
                (S (S (S (length (Js.chars pre)) + length (Js.chars name))
                   + length (Js.chars q)))
                cs E) as P.
  rewrite !str_chars in P. apply P; clear P.
  - by apply free_of_elem.
  - by apply free_of_elem.
  - rewrite <- Hm. f_equal. by flat.
  - lengths. lia.
  - done.
  - apply Hn. not_among.
  - done.
  - by apply sigil_visible.
  - assert (N : ∀ i, 1 ≤ i → i ∉ [3; 4] →
                at_index (token_at (amount_line "@" pre name q post)
                            (Js.chars pre) (Js.chars post)
                            (S (S (S (length (Js.chars pre))
                                   + length (Js.chars name))
                                + length (Js.chars q))) cs) i = None).
    { intros i Hi Hni. apply at_index_no_capture; [by apply Hn|done]. }
    unfold items_of, ingredients_of, cookwares_of, timers_of.
    rewrite (N 7), (N 5), (N 6), (N 10), (N 8), (N 12) by not_among.
    capture H3 (Js.chars pre ++ ["@"%char]) (Js.chars name)
      ("{"%char :: Js.chars q ++ "}"%char :: Js.chars post).
    capture H4 (Js.chars pre ++ "@"%char :: Js.chars name ++ ["{"%char])
      (Js.chars q) ("}"%char :: Js.chars post).
    cbn [Js.truthy_opt default from_option id parseUnits]. by destruct name.
  - done.
Qed.

Lemma ingredient_with_amount_witness :
  parse (new None) "Crack @large eggs{} into a bowl."
  = Ok (one_step (text_item "Crack "
                  ++ [AnIngredient
                        (amount_ingredient (new None) 0 "large eggs" "")]
                  ++ text_item " into a bowl.")).
Proof.
  apply (ingredient_with_amount (new None)
           "Crack " "large eggs" "" " into a bowl."); done.
Defined.

(** X21.  A line with one ingredient [@name{q%u}(prep)] between two texts
    makes one step with the text before, the ingredient and the text after;
    the ingredient has the preparation [prep] when [prep] is not empty, and
    none when it is.  The preparation has no [)]. *)
Theorem ingredient_with_preparation
  (this : t) (pre name q u prep post : string) :
  free_of markup pre = true →
  name ≠ "" → free_of ["@"; "#"; "~"; "["; "{"]%char name = true →
  free_of ["%"; "}"]%char q = true →
  u ≠ "" → free_of ["}"]%char u = true →
  free_of [")"]%char prep = true →
  free_of markup post = true →
  free_of (hyphen ++ terminators) (prepared_line pre name q u prep post)
  = true →
  parse this (prepared_line pre name q u prep post)
  = Ok (one_step (text_item pre
                  ++ [AnIngredient (prepared_ingredient this 0 name q u prep)]
                  ++ text_item post)).
Proof.
  intros Hpre Hne Hname Hq Hune Hu Hprep Hpost Hline.
  destruct (walk_prepared_ingredient (Js.chars post) (length (Js.chars pre))
              (Js.chars name) (Js.chars q) (Js.chars u) (Js.chars prep))
    as (cs & Hm & H3 & H4 & H5 & H6 & Hn);
    try (by apply chars_ne); try (by apply free_of_elem).
  assert (E : Js.chars (prepared_line pre name q u prep post)
              = Js.chars pre
                ++ ("@"%char :: Js.chars name ++ "{"%char :: Js.chars q
                    ++ "%"%char :: Js.chars u
                    ++ "}"%char :: "("%char :: Js.chars prep ++ [")"%char])
                ++ Js.chars post).
  { unfold prepared_line. rewrite !chars_app.
    cbn [Js.chars list_ascii_of_string]. by flat. }
  pose proof (parse_one_token this _ _ _ _
                (S (S (S (S (S (S (length (Js.chars pre))
                                + length (Js.chars name))
                             + length (Js.chars q)) + length (Js.chars u)))
                    + length (Js.chars prep)))
                cs E) as P.
  rewrite !str_chars in P. apply P; clear P.
  - by apply free_of_elem.
  - by apply free_of_elem.
  - rewrite <- Hm. f_equal. by flat.
  - lengths. lia.
  - done.
  - apply Hn. not_among.
  - done.
  - by apply sigil_visible.
  - assert (N : ∀ i, 1 ≤ i → i ∉ [3; 4; 5; 6] →
                at_index (token_at (prepared_line pre name q u prep post)
                            (Js.chars pre) (Js.chars post)
                            (S (S (S (S (S (S (length (Js.chars pre))
                                            + length (Js.chars name))
                                         + length (Js.chars q))
                                      + length (Js.chars u)))
                                + length (Js.chars prep))) cs) i = None).
    { intros i Hi Hni. apply at_index_no_capture; [by apply Hn|done]. }
    unfold items_of, ingredients_of, cookwares_of, timers_of.
    rewrite (N 7), (N 10), (N 8), (N 12) by not_among.
    capture H3 (Js.chars pre ++ ["@"%char]) (Js.chars name)
      ("{"%char :: Js.chars q ++ "%"%char :: Js.chars u
       ++ "}"%char :: "("%char :: Js.chars prep
       ++ ")"%char :: Js.chars post).
    capture H4 (Js.chars pre ++ "@"%char :: Js.chars name ++ ["{"%char])
      (Js.chars q)
      ("%"%char :: Js.chars u ++ "}"%char :: "("%char :: Js.chars prep
       ++ ")"%char :: Js.chars post).
    capture H5 (Js.chars pre ++ "@"%char :: Js.chars name
                ++ "{"%char :: Js.chars q ++ ["%"%char]) (Js.chars u)
      ("}"%char :: "("%char :: Js.chars prep ++ ")"%char :: Js.chars post).
    capture H6 (Js.chars pre ++ "@"%char :: Js.chars name
                ++ "{"%char :: Js.chars q ++ "%"%char :: Js.chars u
                ++ ["}"%char; "("%char]) (Js.chars prep)
      (")"%char :: Js.chars post).
    cbn [Js.truthy_opt default from_option id]. by destruct name.
  - done.
Qed.

Lemma ingredient_with_preparation_witness :
  parse (new None) "Fry the @onion{1%piece}(finely chopped) in oil."
  = Ok (one_step (text_item "Fry the "
                  ++ [AnIngredient
                        (prepared_ingredient (new None) 0 "onion" "1" "piece"
                           "finely chopped")]
                  ++ text_item " in oil.")).
Proof.
  apply (ingredient_with_preparation (new None)
           "Fry the " "onion" "1" "piece" "finely chopped" " in oil."); done.
Defined.

(** X22.  A line with one ingredient [@word] between two texts makes one
    step: the text before, the ingredient named [word] with the default
    amount and the default units, and the text after.  The word is not
    empty and has no white space and no punctuation, the text after does
    not go on with a character of a word and has no [{]. *)
Theorem one_word_ingredient (this : t) (pre word post : string) :
  free_of markup pre = true →
  word ≠ "" → forallb is_word (Js.chars word) = true →
  word_ends post = true → free_of ("{"%char :: markup) post = true →
  free_of (hyphen ++ terminators) (word_line "@" pre word post) = true →
  parse this (word_line "@" pre word post)
  = Ok (one_step (text_item pre
                  ++ [AnIngredient (word_ingredient this 0 word)]
                  ++ text_item post)).
Proof.
  intros Hpre Hne Hword Hends Hpost Hline.
  assert (Hbrace : free_of ["{"]%char post = true).
  { eapply free_of_subseteq; [|exact Hpost]. intros c Hc.
    apply elem_of_cons in Hc as [->|Hc]; [by left|].
    by apply not_elem_of_nil in Hc. }
  assert (Hmarkup : free_of markup post = true).
  { eapply free_of_subseteq; [|exact Hpost]. intros c Hc. by right. }
  destruct (walk_word_ingredient (Js.chars post) (length (Js.chars pre))
              (Js.chars word))
    as (cs & Hm & H7 & Hn);
    [by apply chars_ne|by apply words|by apply word_stops
    |by apply word_has_no_brace|].
  assert (E : Js.chars (word_line "@" pre word post)
              = Js.chars pre ++ ("@"%char :: Js.chars word) ++ Js.chars post).
  { unfold word_line. rewrite !chars_app.
    cbn [Js.chars list_ascii_of_string]. by flat. }
  pose proof (parse_one_token this _ _ _ _
                (S (length (Js.chars pre)) + length (Js.chars word))
                cs E) as P.
  rewrite !str_chars in P. apply P; clear P.
  - by apply free_of_elem.
  - by apply free_of_elem.
  - rewrite <- Hm. f_equal.
  - lengths. lia.
  - done.
  - apply Hn. not_among.
  - done.
  - by apply sigil_visible.
  - assert (N : ∀ i, 1 ≤ i → i ∉ [7] →
                at_index (token_at (word_line "@" pre word post)
                            (Js.chars pre) (Js.chars post)
                            (S (length (Js.chars pre))
                             + length (Js.chars word)) cs) i = None).
    { intros i Hi Hni. apply at_index_no_capture; [by apply Hn|done]. }
    unfold items_of, ingredients_of, cookwares_of, timers_of.
    rewrite (N 3), (N 10), (N 8), (N 12) by not_among.
    capture H7 (Js.chars pre ++ ["@"%char]) (Js.chars word) (Js.chars post).
    cbn [Js.truthy_opt default from_option id]. by destruct word.
  - done.
Qed.

Lemma one_word_ingredient_witness :
  parse (new None) "Season with @salt, then serve."
  = Ok (one_step (text_item "Season with "
                  ++ [AnIngredient (word_ingredient (new None) 0 "salt")]
                  ++ text_item ", then serve.")).
Proof.
  apply (one_word_ingredient (new None)
           "Season with " "salt" ", then serve."); done.
Defined.

(** X23.  A line with one cookware [#name{q}] between two texts makes one
    step: the text before, the cookware with the name and the quantity
    read from [q], and the text after; the cookware is the only one of the
    result.  The quantity has no [}]. *)
Theorem cookware_with_amount (this : t) (pre name q post : string) :
  free_of markup pre = true →
  name ≠ "" → free_of ["@"; "#"; "~"; "["; "{"]%char name = true →
  free_of ("}"%char :: terminators) q = true →
  free_of markup post = true →
  free_of (hyphen ++ terminators) (cookware_line pre name q post) = true →
  parse this (cookware_line pre name q post)
  = Ok (one_step (text_item pre
                  ++ [ACookware (full_cookware this 0 name q)]
                  ++ text_item post)).
Proof.
  intros Hpre Hne Hname Hq Hpost Hline.
  destruct (walk_cookware (Js.chars post) (length (Js.chars pre))
              (Js.chars name) (Js.chars q))
    as (cs & Hm & H8 & H9 & Hn);
    try (by apply chars_ne); try (by apply free_of_elem).
  assert (E : Js.chars (cookware_line pre name q post)
              = Js.chars pre
                ++ ("#"%char :: Js.chars name ++ "{"%char :: Js.chars q
                    ++ ["}"%char])
                ++ Js.chars post).
  { unfold cookware_line. rewrite !chars_app.
    cbn [Js.chars list_ascii_of_string]. by flat. }
  pose proof (parse_one_token this _ _ _ _
                (S (S (S (length (Js.chars pre)) + length (Js.chars name))
                   + length (Js.chars q)))
                cs E) as P.
  rewrite !str_chars in P. apply P; clear P.
  - by apply free_of_elem.
  - by apply free_of_elem.
  - rewrite <- Hm. f_equal. by flat.
  - lengths. lia.
  - done.
  - apply Hn. not_among.
  - done.
  - by apply sigil_visible.
  - assert (N : ∀ i, 1 ≤ i → i ∉ [8; 9] →
                at_index (token_at (cookware_line pre name q post)
                            (Js.chars pre) (Js.chars post)
                            (S (S (S (length (Js.chars pre))
                                   + length (Js.chars name))
                                + length (Js.chars q))) cs) i = None).
    { intros i Hi Hni. apply at_index_no_capture; [by apply Hn|done]. }
    unfold items_of, ingredients_of, cookwares_of, timers_of.
    rewrite (N 7), (N 3), (N 10), (N 12) by not_among.
    capture H8 (Js.chars pre ++ ["#"%char]) (Js.chars name)
      ("{"%char :: Js.chars q ++ "}"%char :: Js.chars post).
    capture H9 (Js.chars pre ++ "#"%char :: Js.chars name ++ ["{"%char])
      (Js.chars q) ("}"%char :: Js.chars post).
    cbn [Js.truthy_opt default from_option id]. by destruct name.
  - done.
Qed.

Lemma cookware_with_amount_witness :
  parse (new None) "Heat the #frying pan{2} well."
  = Ok (one_step (text_item "Heat the "
                  ++ [ACookware (full_cookware (new None) 0 "frying pan" "2")]
                  ++ text_item " well.")).
Proof.
  apply (cookware_with_amount (new None)
           "Heat the " "frying pan" "2" " well."); done.
Defined.

(** X24.  A line with one cookware [#word] between two texts makes one
    step: the text before, the cookware named [word] with the default
    amount, and the text after. *)
Theorem one_word_cookware (this : t) (pre word post : string) :
  free_of markup pre = true →
  word ≠ "" → forallb is_word (Js.chars word) = true →
  word_ends post = true → free_of ("{"%char :: markup) post = true →
  free_of (hyphen ++ terminators) (word_line "#" pre word post) = true →
  parse this (word_line "#" pre word post)
  = Ok (one_step (text_item pre
                  ++ [ACookware (word_cookware this 0 word)]
                  ++ text_item post)).
Proof.
  intros Hpre Hne Hword Hends Hpost Hline.
  assert (Hbrace : free_of ["{"]%char post = true).
  { eapply free_of_subseteq; [|exact Hpost]. intros c Hc.
    apply elem_of_cons in Hc as [->|Hc]; [by left|].
    by apply not_elem_of_nil in Hc. }
  assert (Hmarkup : free_of markup post = true).
  { eapply free_of_subseteq; [|exact Hpost]. intros c Hc. by right. }
  destruct (walk_word_cookware (Js.chars post) (length (Js.chars pre))
              (Js.chars word))
    as (cs & Hm & H10 & Hn);
    [by apply chars_ne|by apply words|by apply word_stops
    |by apply word_has_no_brace|].
  assert (E : Js.chars (word_line "#" pre word post)
              = Js.chars pre ++ ("#"%char :: Js.chars word) ++ Js.chars post).
  { unfold word_line. rewrite !chars_app.
    cbn [Js.chars list_ascii_of_string]. by flat. }
  pose proof (parse_one_token this _ _ _ _
                (S (length (Js.chars pre)) + length (Js.chars word))
                cs E) as P.
  rewrite !str_chars in P. apply P; clear P.
  - by apply free_of_elem.
  - by apply free_of_elem.
  - rewrite <- Hm. f_equal.
  - lengths. lia.
  - done.
  - apply Hn. not_among.
  - done.
  - by apply sigil_visible.
  - assert (N : ∀ i, 1 ≤ i → i ∉ [10] →
                at_index (token_at (word_line "#" pre word post)
                            (Js.chars pre) (Js.chars post)
                            (S (length (Js.chars pre))
                             + length (Js.chars word)) cs) i = None).
    { intros i Hi Hni. apply at_index_no_capture; [by apply Hn|done]. }
    unfold items_of, ingredients_of, cookwares_of, timers_of.
    rewrite (N 7), (N 3), (N 8), (N 12) by not_among.
    capture H10 (Js.chars pre ++ ["#"%char]) (Js.chars word) (Js.chars post).
    cbn [Js.truthy_opt default from_option id]. by destruct word.
  - done.
Qed.

Lemma one_word_cookware_witness :
  parse (new None) "Boil it in a #pot."
  = Ok (one_step (text_item "Boil it in a "
                  ++ [ACookware (word_cookware (new None) 0 "pot")]
                  ++ text_item ".")).
Proof.
  apply (one_word_cookware (new None) "Boil it in a " "pot" "."); done.
Defined.

(** X25.  A line with one timer [~name{q%u}] between two texts makes one
    step: the text before, the timer with the name, the quantity and the
    units read from [q] and [u], and the text after; the result has no
    ingredient and no cookware.  The name may be empty, the quantity is
    not. *)
Theorem timer_with_amount_and_units
  (this : t) (pre name q u post : string) :
  free_of markup pre = true →
  free_of ("{"%char :: terminators) name = true →
  q ≠ "" → free_of ("%"%char :: "}"%char :: terminators) q = true →
  free_of ("}"%char :: terminators) u = true →
  free_of markup post = true →
  free_of (hyphen ++ terminators) (timer_line pre name q u post) = true →
  parse this (timer_line pre name q u post)
  = Ok (one_step (text_item pre ++ [ATimer (full_timer this name q u)]
                  ++ text_item post)).
Proof.
  intros Hpre Hname Hqne Hq Hu Hpost Hline.
  destruct (walk_timer (Js.chars post) (length (Js.chars pre))
              (Js.chars name) (Js.chars q) (Js.chars u))
    as (cs & Hm & H11 & H12 & H13 & Hn); try (by apply free_of_elem).
  assert (E : Js.chars (timer_line pre name q u post)
              = Js.chars pre
                ++ ("~"%char :: Js.chars name ++ "{"%char :: Js.chars q
                    ++ "%"%char :: Js.chars u ++ ["}"%char])
                ++ Js.chars post).
  { unfold timer_line. rewrite !chars_app.
    cbn [Js.chars list_ascii_of_string]. by flat. }
  pose proof (parse_one_token this _ _ _ _
                (S (S (S (S (length (Js.chars pre)) + length (Js.chars name))
                      + length (Js.chars q)) + length (Js.chars u)))
                cs E) as P.
  rewrite !str_chars in P. apply P; clear P.
  - by apply free_of_elem.
  - by apply free_of_elem.
  - rewrite <- Hm. f_equal. by flat.
  - lengths. lia.
  - done.
  - apply Hn. not_among.
  - done.
  - by apply sigil_visible.
  - assert (N : ∀ i, 1 ≤ i → i ∉ [11; 12; 13] →
                at_index (token_at (timer_line pre name q u post)
                            (Js.chars pre) (Js.chars post)
                            (S (S (S (S (length (Js.chars pre))
                                      + length (Js.chars name))
                                   + length (Js.chars q))
                                + length (Js.chars u))) cs) i = None).
    { intros i Hi Hni. apply at_index_no_capture; [by apply Hn|done]. }
    unfold items_of, ingredients_of, cookwares_of, timers_of.
    rewrite (N 7), (N 3), (N 10), (N 8) by not_among.
    capture H11 (Js.chars pre ++ ["~"%char]) (Js.chars name)
      ("{"%char :: Js.chars q ++ "%"%char :: Js.chars u
       ++ "}"%char :: Js.chars post).
    capture H12 (Js.chars pre ++ "~"%char :: Js.chars name ++ ["{"%char])
      (Js.chars q) ("%"%char :: Js.chars u ++ "}"%char :: Js.chars post).
    capture H13 (Js.chars pre ++ "~"%char :: Js.chars name
                 ++ "{"%char :: Js.chars q ++ ["%"%char]) (Js.chars u)
      ("}"%char :: Js.chars post).
    cbn [Js.truthy_opt default from_option id]. by destruct q.
  - done.
Qed.

Lemma timer_with_amount_and_units_witness :
  parse (new None) "Bake for ~{25%minutes}."
  = Ok (one_step (text_item "Bake for "
                  ++ [ATimer (full_timer (new None) "" "25" "minutes")]
                  ++ text_item ".")).
Proof.
  apply (timer_with_amount_and_units (new None)
           "Bake for " "" "25" "minutes" "."); done.
Defined.

(** X26.  A line with one timer [~name{q}] between two texts makes one
    step: the text before, the timer with the name, the quantity read from
    [q] and the default units, and the text after. *)
Theorem timer_with_amount (this : t) (pre name q post : string) :
  free_of markup pre = true →
  free_of ("{"%char :: terminators) name = true →
  q ≠ "" → free_of ("%"%char :: "}"%char :: terminators) q = true →
  free_of markup post = true →
  free_of (hyphen ++ terminators) (amount_line "~" pre name q post) = true →
  parse this (amount_line "~" pre name q post)
  = Ok (one_step (text_item pre ++ [ATimer (amount_timer this name q)]
                  ++ text_item post)).
Proof.
  intros Hpre Hname Hqne Hq Hpost Hline.
  destruct (walk_amount_timer (Js.chars post) (length (Js.chars pre))
              (Js.chars name) (Js.chars q))
    as (cs & Hm & H11 & H12 & Hn); try (by apply free_of_elem).
  assert (E : Js.chars (amount_line "~" pre name q post)
              = Js.chars pre
                ++ ("~"%char :: Js.chars name ++ "{"%char :: Js.chars q
                    ++ ["}"%char])
                ++ Js.chars post).
  { unfold amount_line. rewrite !chars_app.
    cbn [Js.chars list_ascii_of_string]. by flat. }
  pose proof (parse_one_token this _ _ _ _
                (S (S (S (length (Js.chars pre)) + length (Js.chars name))
                   + length (Js.chars q)))
                cs E) as P.
  rewrite !str_chars in P. apply P; clear P.
  - by apply free_of_elem.
  - by apply free_of_elem.
  - rewrite <- Hm. f_equal. by flat.
  - lengths. lia.
  - done.
  - apply Hn. not_among.
  - done.
  - by apply sigil_visible.
  - assert (N : ∀ i, 1 ≤ i → i ∉ [11; 12] →
                at_index (token_at (amount_line "~" pre name q post)
                            (Js.chars pre) (Js.chars post)
                            (S (S (S (length (Js.chars pre))
                                   + length (Js.chars name))
                                + length (Js.chars q))) cs) i = None).
    { intros i Hi Hni. apply at_index_no_capture; [by apply Hn|done]. }
    unfold items_of, ingredients_of, cookwares_of, timers_of.
    rewrite (N 7), (N 3), (N 10), (N 8), (N 13) by not_among.
    capture H11 (Js.chars pre ++ ["~"%char]) (Js.chars name)
      ("{"%char :: Js.chars q ++ "}"%char :: Js.chars post).
    capture H12 (Js.chars pre ++ "~"%char :: Js.chars name ++ ["{"%char])
      (Js.chars q) ("}"%char :: Js.chars post).
    cbn [Js.truthy_opt default from_option id parseUnits]. by destruct q.
  - done.
Qed.

Lemma timer_with_amount_witness :
  parse (new None) "Rest the dough ~rest{2} hours."
  = Ok (one_step (text_item "Rest the dough "
                  ++ [ATimer (amount_timer (new None) "rest" "2")]
                  ++ text_item " hours.")).
Proof.
  apply (timer_with_amount (new None)
           "Rest the dough " "rest" "2" " hours."); done.
Defined.



(** X28.  The first line comment of a source is removed up to the end of
    its line: when the text before [--] has no hyphen, the comment has no
    line terminator, and the text after it is empty or starts with a line
    terminator and has no hyphen, the source without its comments is the
    text before followed by the text after, and [parse] gives for the
    source what it gives for that text. *)
Theorem line_comment_is_removed (this : t) (a c b : string) :
  free_of hyphen a = true → free_of terminators c = true →
  line_ends b = true → free_of hyphen b = true →
  strip_comments (a +:+ "--" +:+ c +:+ b) = a +:+ b
  ∧ parse this (a +:+ "--" +:+ c +:+ b) = parse this (a +:+ b).
Proof.
  intros Ha Hc Hb1 Hb2. split; [by apply strip_line_comment|].
  apply parse_strip_comments. rewrite strip_line_comment by done.
  symmetry. apply no_hyphen. by rewrite free_of_app, Ha, Hb2.
Qed.

Lemma line_comment_is_removed_witness :
  strip_comments ("Mix the flour. " +:+ "--" +:+ " sifted, not packed"
                  +:+ (LF +:+ "Serve."))
  = "Mix the flour. " +:+ (LF +:+ "Serve.")
  ∧ parse (new None) ("Mix the flour. " +:+ "--" +:+ " sifted, not packed"
                      +:+ (LF +:+ "Serve."))
    = parse (new None) ("Mix the flour. " +:+ (LF +:+ "Serve.")).
Proof.
  apply (line_comment_is_removed (new None)
           "Mix the flour. " " sifted, not packed" (LF +:+ "Serve.")); done.
Defined.

(** X29.  A block comment [[- ... -]] and the white space on both sides of
    it become one space: when the texts before and after have no bracket
    [[] and no hyphen, the text before does not end and the text after
    does not start with white space, and the comment is not empty and has
    no hyphen, the source without its comments is the two texts with one
    space between them, and [parse] gives for the source what it gives for
    that text. *)
Theorem block_comment_becomes_a_space (this : t) (a w1 c w2 b : string) :
  free_of (bracket ++ hyphen) a = true → tight_end a = true →
  blank w1 = true → c ≠ "" → free_of hyphen c = true → blank w2 = true →
  free_of (bracket ++ hyphen) b = true → tight_start b = true →
  strip_comments (commented a w1 c w2 b) = a +:+ " " +:+ b
  ∧ parse this (commented a w1 c w2 b) = parse this (a +:+ " " +:+ b).
Proof.
  intros Ha Ha' Hw1 Hne Hc Hw2 Hb Hb'.
  split; [by apply strip_block_comment|].
  apply parse_strip_comments. rewrite strip_block_comment by done.
  symmetry. apply no_hyphen. rewrite !free_of_app.
  by rewrite (free_of_right _ _ _ Ha), (free_of_right _ _ _ Hb).
Qed.

Lemma block_comment_becomes_a_space_witness :
  strip_comments (commented "Mix" " " " by hand " "  " "well.")
  = "Mix" +:+ " " +:+ "well."
  ∧ parse (new None) (commented "Mix" " " " by hand " "  " "well.")
    = parse (new None) ("Mix" +:+ " " +:+ "well.").
Proof.
  apply (block_comment_becomes_a_space (new None)
           "Mix" " " " by hand " "  " "well."); done.
Defined.

End Properties.
